(** * dynamic_obstacle_avoidance: rotation algebra and multi-boundary container

    A shallow embedding of

    - [rotational/tests/test_general_rotation.py]: [rotate_direction],
      [rotate_array], [VectorRotationXd], [VectorRotationSequence] and
      [VectorRotationTree];
    - [obstacles/multiboundary_container.py]: [MultiBoundaryContainer].

    NumPy arrays of floats are modelled as lists of real numbers: a vector
    is a [list R], a [dimension x 2] base is its pair of columns, and a
    [dimension x n] array is the list of its [n] columns.  Floating-point
    rounding, infinities and NaN are outside the model: arithmetic is exact,
    and a division by zero (which NumPy answers with inf or nan and a
    warning) is the total division of [R].  Operations are modelled on
    arrays of matching shapes. *)

From Stdlib Require Import Reals Lra Lia List String ZArith Bool.
From Stdlib Require Import Permutation Sorted.
Import ListNotations.
Open Scope string_scope.
Open Scope list_scope.
Open Scope R_scope.

(** ** Python exceptions *)

Module Py.

Inductive exception : Type :=
| ValueError (msg : string)
| AttributeError (attr : string)
| KeyError (key : Z)
| IndexError.

Inductive result (A : Type) : Type :=
| Ok (value : A)
| Raise (e : exception).

Arguments Ok {A} value.
Arguments Raise {A} e.

Definition bind {A B : Type} (m : result A) (k : A -> result B) : result B :=
  match m with
  | Ok a => k a
  | Raise e => Raise e
  end.

(** Index of a Python sequence of length [len]: negative indices count
    from the end, anything else out of range is an [IndexError]. *)
Definition index (len : nat) (i : Z) : result nat :=
  if (0 <=? i)%Z && (i <? Z.of_nat len)%Z then Ok (Z.to_nat i)
  else if (- Z.of_nat len <=? i)%Z && (i <? 0)%Z then Ok (Z.to_nat (Z.of_nat len + i))
  else Raise IndexError.

End Py.

Import Py.

Notation "x <- m ;; k" := (Py.bind m (fun x => k))
  (at level 61, m at next level, right associativity).

Notation "' pat <- m ;; k" :=
  (Py.bind m (fun x => match x with pat => k end))
  (at level 61, pat pattern, m at next level, right associativity).

(** ** NumPy vectors *)

Module Np.

Definition Vector := list R.

(** [dimension x 2] array, as its two columns [base[:, 0]] and [base[:, 1]]. *)
Definition Base := (Vector * Vector)%type.

Definition col0 (base : Base) : Vector := fst base.
Definition col1 (base : Base) : Vector := snd base.

Fixpoint map2 {A B C : Type} (f : A -> B -> C) (u : list A) (v : list B) : list C :=
  match u, v with
  | a :: u', b :: v' => f a b :: map2 f u' v'
  | _, _ => []
  end.

(** [np.dot(u, v)] and [np.sum(u * v)] on one-dimensional arrays. *)
Fixpoint dot (u v : Vector) : R :=
  match u, v with
  | a :: u', b :: v' => a * b + dot u' v'
  | _, _ => 0
  end.

(** [LA.norm(v)] *)
Definition norm (v : Vector) : R := sqrt (dot v v).

Definition vadd (u v : Vector) : Vector := map2 Rplus u v.
Definition vsub (u v : Vector) : Vector := map2 Rminus u v.
Definition vscale (k : R) (v : Vector) : Vector := map (fun x => k * x) v.
Definition vdiv (v : Vector) (k : R) : Vector := map (fun x => x / k) v.

(** [math.atan2(y, x)] and [np.arctan2(y, x)]: the angle in (-pi, pi] of the
    point [(x, y)], [0] at the origin. *)
Definition atan2 (y x : R) : R :=
  if Rlt_dec 0 x then atan (y / x)
  else if Rlt_dec x 0 then
         if Rle_dec 0 y then atan (y / x) + PI else atan (y / x) - PI
       else if Rlt_dec 0 y then PI / 2
            else if Rlt_dec y 0 then - (PI / 2)
                 else 0.

(** [np.cumsum] *)
Fixpoint cumsum_from (acc : R) (l : list R) : list R :=
  match l with
  | [] => []
  | x :: l' => (acc + x) :: cumsum_from (acc + x) l'
  end.

Definition cumsum (l : list R) : list R := cumsum_from 0 l.

(** [a.reshape(dimension, -1)] of a [dimension x n x 2] array: the [2 n]
    columns, the two columns of each base next to each other. *)
Fixpoint flatten_bases (bases : list Base) : list Vector :=
  match bases with
  | [] => []
  | b :: bases' => col0 b :: col1 b :: flatten_bases bases'
  end.

(** [a.reshape(dimension, -1, 2)] of a [dimension x 2 n] array. *)
Fixpoint pair_columns (columns : list Vector) : list Base :=
  match columns with
  | c0 :: c1 :: columns' => (c0, c1) :: pair_columns columns'
  | _ => []
  end.

(** *** Two-dimensional arrays *)

(** A two-dimensional array, by rows. *)
Definition Array2 := list (list R).

(** [np.sum(a, axis=0)] of an array with [n] columns. *)
Definition sum_axis0 (n : nat) (a : Array2) : list R :=
  fold_right (map2 Rplus) (repeat 0 n) a.

(** [LA.norm(a, axis=0)] of an array with [n] columns. *)
Definition norm_axis0 (n : nat) (a : Array2) : list R :=
  map sqrt (sum_axis0 n (map (map (fun x => x * x)) a)).

(** [a / v], the one-dimensional [v] broadcast along the rows. *)
Definition div_rows (a : Array2) (v : list R) : Array2 :=
  map (fun row => map2 Rdiv row v) a.

(** [np.tile(v, (k, 1))] *)
Definition tile (v : list R) (k : nat) : Array2 := repeat v k.

(** [a.T] of an array with [n] columns. *)
Definition transpose (n : nat) (a : Array2) : Array2 :=
  map (fun j => map (fun row => nth j row 0) a) (seq 0 n).

(** [a + b], [a - b] and [a * b] on arrays of one shape. *)
Definition array_map2 (f : R -> R -> R) (a b : Array2) : Array2 := map2 (map2 f) a b.

(** [np.dot(base.T, a)] for an array [a] with [n] columns: its two rows. *)
Definition dot_base_T (n : nat) (base : Base) (a : Array2) : list R * list R :=
  (sum_axis0 n (map2 (fun b row => map (Rmult b) row) (col0 base) a),
   sum_axis0 n (map2 (fun b row => map (Rmult b) row) (col1 base) a)).

(** [base @ dot_prods] *)
Definition base_matmul (base : Base) (dot_prods : list R * list R) : Array2 :=
  map2 (fun b0 b1 => map2 (fun p q => b0 * p + b1 * q) (fst dot_prods) (snd dot_prods))
       (col0 base) (col1 base).

End Np.

Import Np.

(** ** Rotation primitives *)

Module Rotation.

(** [rotate_direction(direction, base, rotation_angle)] *)
Definition rotate_direction (direction : Vector) (base : Base) (rotation_angle : R)
  : Vector :=
  let direction := vdiv direction (norm direction) in
  let dot_prods := (dot (col0 base) direction, dot (col1 base) direction) in
  let angle := atan2 (snd dot_prods) (fst dot_prods) + rotation_angle in
  let out_direction :=
    vadd (vscale (cos angle) (col0 base)) (vscale (sin angle) (col1 base)) in
  let out_direction :=
    vscale (sqrt ((fst dot_prods) ^ 2 + (snd dot_prods) ^ 2)) out_direction in
  vadd out_direction
       (vsub direction
             (vadd (vscale (fst dot_prods) (col0 base))
                   (vscale (snd dot_prods) (col1 base)))).

(** [rotate_array(directions, base, rotation_angle)]: the source computes
    all columns at once with tiled arrays; column by column that is the
    computation below. *)
Definition rotate_array (directions : list Vector) (base : Base) (rotation_angle : R)
  : list Vector :=
  let directions := map (fun d => vdiv d (norm d)) directions in
  let dot_prods := map (fun d => (dot (col0 base) d, dot (col1 base) d)) directions in
  let angles := map (fun dp => atan2 (snd dp) (fst dp) + rotation_angle) dot_prods in
  let out_vectors :=
    map (fun a => vadd (vscale (cos a) (col0 base)) (vscale (sin a) (col1 base)))
        angles in
  let out_vectors :=
    map2 (fun dp out => vscale (sqrt ((fst dp) ^ 2 + (snd dp) ^ 2)) out)
         dot_prods out_vectors in
  map2 vadd out_vectors
       (map2 (fun d dp =>
                vsub d (vadd (vscale (fst dp) (col0 base))
                             (vscale (snd dp) (col1 base))))
             directions dot_prods).

(** [rotate_array(directions, base, rotation_angle)] as the source writes
    it, with tiled arrays, on the [dimension x n_dirs] array given by its
    rows. *)
Definition rotate_array_tiled (directions : Array2) (base : Base) (rotation_angle : R)
  : Array2 :=
  let dimension := List.length directions in
  let n_dirs := List.length (hd [] directions) in
  let directions := div_rows directions (norm_axis0 n_dirs directions) in
  let dot_prods := dot_base_T n_dirs base directions in
  let angles :=
    map2 (fun y x => atan2 y x + rotation_angle) (snd dot_prods) (fst dot_prods) in
  let out_vectors :=
    array_map2 Rplus
      (array_map2 Rmult
         (transpose (List.length (col0 base)) (tile (col0 base) n_dirs))
         (tile (map cos angles) dimension))
      (array_map2 Rmult
         (transpose (List.length (col1 base)) (tile (col1 base) n_dirs))
         (tile (map sin angles) dimension)) in
  let out_vectors :=
    array_map2 Rmult out_vectors
      (tile (map sqrt
                 (sum_axis0 n_dirs [map (fun x => x ^ 2) (fst dot_prods);
                                    map (fun x => x ^ 2) (snd dot_prods)]))
            dimension) in
  array_map2 Rplus out_vectors
             (array_map2 Rminus directions (base_matmul base dot_prods)).

(** The dataclass [VectorRotationXd]. *)
Record VectorRotationXd : Type := {
  base : Base;
  rotation_angle : R
}.

(** [VectorRotationXd.from_directions(vec_init, vec_rot)].  The two
    normalisation lines of the source are commented out there, and are
    absent here. *)
Definition from_directions (vec_init vec_rot : Vector) : result VectorRotationXd :=
  if negb (List.length vec_init =? List.length vec_rot)%nat
  then Raise (ValueError "shapes not aligned")
  else
    let dot_prod := dot vec_init vec_rot in
    if Req_dec_T dot_prod (-1) then Raise (ValueError "Antiparallel vectors")
    else
      let vec_perp :=
        if Rlt_dec dot_prod 1 then
          let vec_perp := vsub vec_rot (vscale dot_prod vec_init) in
          vdiv vec_perp (norm vec_perp)
        else vec_rot in
      Ok {| base := (vec_init, vec_perp); rotation_angle := acos dot_prod |}.

(** [VectorRotationXd.rotate(direction, rot_factor=1)] *)
Definition rotate (self : VectorRotationXd) (direction : Vector) (rot_factor : R)
  : Vector :=
  rotate_direction direction (base self) (rot_factor * rotation_angle self).

(** [VectorRotationXd.inverse_rotate(direction)] *)
Definition inverse_rotate (self : VectorRotationXd) (direction : Vector) : Vector :=
  rotate_direction direction (base self) ((-1) * rotation_angle self).

(** *** [VectorRotationSequence] *)

(** The warnings of the module, by the place that emits them. *)
Inductive warning : Type :=
| weights_sum_warning
| rotation_limit_warning (rotation_limit : R).

Record VectorRotationSequence : Type := {
  vectors_array : list Vector;
  basis_array : list Base;
  rotation_angles : list R
}.

Definition Req_bool (a b : R) : bool := if Req_dec_T a b then true else false.

(** [VectorRotationSequence.__init__(vectors_array)]: the columns of
    [vectors_array] are the directions of the chain. *)
Definition sequence_init (vectors_array : list Vector) : result VectorRotationSequence :=
  let vectors_array := map (fun v => vdiv v (norm v)) vectors_array in
  let dot_prod := map2 dot (tl vectors_array) (removelast vectors_array) in
  if existsb (fun d => Req_bool d (-1)) dot_prod
  then Raise (ValueError "Antiparallel vectors.")
  else
    let vec_perp :=
      map2 vsub (tl vectors_array)
           (map2 (fun v d => vscale d v) (removelast vectors_array) dot_prod) in
    let vec_perp := map (fun v => vdiv v (norm v)) vec_perp in
    Ok {| vectors_array := vectors_array;
          basis_array := combine (removelast vectors_array) vec_perp;
          rotation_angles := map acos dot_prod |}.

Definition n_rotations (self : VectorRotationSequence) : nat :=
  List.length (basis_array self).

(** [math.isclose(a, b)] with its default tolerances. *)
Definition isclose (a b : R) : bool :=
  if Rle_dec (Rabs (a - b)) (1 / 10 ^ 9 * Rmax (Rabs a) (Rabs b)) then true else false.

(** One round of the top-to-bottom loop of [rotate_weighted]: the bases
    above [ii] are rotated in the plane of base [ii]. *)
Definition rebase_above (self : VectorRotationSequence) (cumulated_weights : list R)
           (temp_base : list Base) (ii : nat) : list Base :=
  firstn (ii + 1) temp_base ++
  pair_columns
    (rotate_array (flatten_bases (skipn (ii + 1) temp_base))
                  (nth ii temp_base ([], []))
                  (nth ii (rotation_angles self) 0 * (1 - nth ii cumulated_weights 0))).

(** [VectorRotationSequence.rotate_weighted(direction, weights)], for an
    array [weights] with one entry per rotation; on another length the
    model answers with the [ValueError] of NumPy (which broadcasts instead
    where there is a single weight or a single rotation).  The result comes
    with the warnings emitted. *)
Definition rotate_weighted (self : VectorRotationSequence) (direction : Vector)
           (weights : list R) : result (Vector * list warning) :=
  let cumulated_weights := rev (cumsum (rev weights)) in
  match cumulated_weights with
  | [] => Raise IndexError
  | total :: _ =>
      let warnings :=
        if isclose total 1 then [] else [weights_sum_warning] in
      if negb (List.length weights =? n_rotations self)%nat
      then Raise (ValueError "operands could not be broadcast together")
      else
        let temp_base := basis_array self in
        let temp_angle := map2 Rmult (rotation_angles self) cumulated_weights in
        let temp_base :=
          fold_left (rebase_above self cumulated_weights)
                    (rev (seq 0 (n_rotations self - 1))) temp_base in
        Ok (fold_left (fun direction step =>
                         rotate_direction direction (snd step) (fst step))
                      (combine temp_angle temp_base) direction,
            warnings)
  end.

(** [weights[-1] = rot_factor] *)
Definition set_last (weights : list R) (rot_factor : R) : result (list R) :=
  match weights with
  | [] => Raise IndexError
  | _ => Ok (removelast weights ++ [rot_factor])
  end.

(** [VectorRotationSequence.rotate(direction, rot_factor=1)] *)
Definition sequence_rotate (self : VectorRotationSequence) (direction : Vector)
           (rot_factor : R) : result (Vector * list warning) :=
  weights <- set_last (repeat 0 (n_rotations self)) rot_factor ;;
  rotate_weighted self direction weights.

(** *** [VectorRotationTree] *)

Definition NodeType := Z.

(** A [VectorRotationXd] object as the tree holds it: the two fields the
    dataclass declares, and the attributes assigned to the instance
    afterwards. *)
Record RotationObject : Type := {
  fields : VectorRotationXd;
  instance_dict : list (string * R)
}.

Definition new_object (r : VectorRotationXd) : RotationObject :=
  {| fields := r; instance_dict := [] |}.

(** [self.<name>] for an array-valued attribute: [base] is the only one a
    [VectorRotationXd] has. *)
Definition getattr_array (self : RotationObject) (name : string) : result Base :=
  if String.eqb name "base" then Ok (base (fields self))
  else Raise (AttributeError name).

(** [self.<name> = value] for a float. *)
Definition setattr_float (self : RotationObject) (name : string) (value : R)
  : RotationObject :=
  if String.eqb name "rotation_angle"
  then {| fields := {| base := base (fields self); rotation_angle := value |};
          instance_dict := instance_dict self |}
  else {| fields := fields self;
          instance_dict :=
            (name, value)
              :: filter (fun kv => negb (String.eqb (fst kv) name)) (instance_dict self) |}.

(** Attributes of a node of the graph. *)
Record NodeData : Type := {
  level : Z;
  direction : Vector;
  weight : R;
  orientation : RotationObject
}.

(** [nx.DiGraph]: nodes and the successors of each node, both in insertion
    order. *)
Record DiGraph : Type := {
  nodes : list (NodeType * NodeData);
  succ : list (NodeType * list NodeType)
}.

Fixpoint lookup {A : Type} (key : NodeType) (d : list (NodeType * A)) : option A :=
  match d with
  | [] => None
  | (k, v) :: d' => if (k =? key)%Z then Some v else lookup key d'
  end.

(** [d[key] = f(d[key])] on a present key. *)
Fixpoint update {A : Type} (key : NodeType) (f : A -> A) (d : list (NodeType * A))
  : list (NodeType * A) :=
  match d with
  | [] => []
  | (k, v) :: d' => if (k =? key)%Z then (k, f v) :: d' else (k, v) :: update key f d'
  end.

(** [d[key] = value]: in place on a present key, at the end otherwise. *)
Definition store {A : Type} (key : NodeType) (value : A) (d : list (NodeType * A))
  : list (NodeType * A) :=
  match lookup key d with
  | Some _ => update key (fun _ => value) d
  | None => d ++ [(key, value)]
  end.

(** [graph.nodes[node_id]] *)
Definition get_node (graph : DiGraph) (node_id : NodeType) : result NodeData :=
  match lookup node_id (nodes graph) with
  | Some data => Ok data
  | None => Raise (KeyError node_id)
  end.

(** [graph.successors(node_id)] for a node of the graph.  (For any other
    node networkx raises [NetworkXError]; the list is empty here, and the
    properties below call it on nodes of the graph.) *)
Definition successors (graph : DiGraph) (node_id : NodeType) : list NodeType :=
  match lookup node_id (succ graph) with
  | Some l => l
  | None => []
  end.

(** [graph.add_node(node_id, **data)] *)
Definition graph_add_node (graph : DiGraph) (node_id : NodeType) (data : NodeData)
  : DiGraph :=
  {| nodes := store node_id data (nodes graph);
     succ := match lookup node_id (succ graph) with
             | Some _ => succ graph
             | None => succ graph ++ [(node_id, [])]
             end |}.

(** [graph.add_edge(u, v)] between two nodes of the graph. *)
Definition graph_add_edge (graph : DiGraph) (u v : NodeType) : DiGraph :=
  {| nodes := nodes graph;
     succ := update u (fun l => if existsb (Z.eqb v) l then l else l ++ [v])
                    (succ graph) |}.

(** [VectorRotationTree.__init__(root_id, root_direction)] *)
Definition tree_init (root_id : NodeType) (root_direction : Vector) : DiGraph :=
  graph_add_node {| nodes := []; succ := [] |} root_id
    {| level := 0;
       direction := root_direction;
       weight := 0;
       orientation :=
         new_object {| base := (root_direction, root_direction);
                       rotation_angle := 0 |} |}.

(** Truth value of a float. *)
Definition truthy (x : R) : bool := negb (Req_bool x 0).

Definition Rgt_bool (a b : R) : bool := if Rlt_dec b a then true else false.

(** [VectorRotationTree.add_node(node_id, direction, parent_id,
    rotation_limit)]: the tree after the call and the warnings emitted, or
    the exception raised (and then the tree is as before the call). *)
Definition add_node (self : DiGraph) (node_id : NodeType) (direction : Vector)
           (parent_id : NodeType) (rotation_limit : R)
  : result (DiGraph * list warning) :=
  parent <- get_node self parent_id ;;
  new_rotation <- from_directions (Rotation.direction parent) direction ;;
  let new_rotation := new_object new_rotation in
  clipped <-
    (if truthy rotation_limit
        && Rgt_bool (Rabs (rotation_angle (fields new_rotation))) rotation_limit
     then
       let rot_factor :=
         (2 * PI - Rabs (rotation_angle (fields new_rotation))) / rotation_limit in
       basis <- getattr_array new_rotation "basis" ;;
       let direction := rotate (fields new_rotation) (col0 basis) rot_factor in
       let new_rotation :=
         setattr_float new_rotation "angle"
                       (rotation_angle (fields new_rotation) * rot_factor) in
       Ok (direction, new_rotation, [rotation_limit_warning rotation_limit])
     else Ok (direction, new_rotation, [])) ;;
  let '(direction, new_rotation, warnings) := clipped in
  parent <- get_node self parent_id ;;
  let graph :=
    graph_add_node self node_id
      {| level := level parent + 1;
         direction := direction;
         weight := 0;
         orientation := new_rotation |} in
  Ok (graph_add_edge graph parent_id node_id, warnings).

(** [VectorRotationTree.reset_node_weights()] *)
Definition set_weight (value : R) (data : NodeData) : NodeData :=
  {| level := level data; direction := Rotation.direction data; weight := value;
     orientation := orientation data |}.

Definition reset_node_weights (self : DiGraph) : DiGraph :=
  {| nodes := map (fun kv => (fst kv, set_weight 0 (snd kv))) (nodes self);
     succ := succ self |}.

(** [np.argsort] on the levels, as a stable insertion sort (what NumPy runs
    on short arrays; on long ones the order among equal levels is not
    specified). *)
Fixpoint insert_by_level (x : NodeType * Z) (l : list (NodeType * Z))
  : list (NodeType * Z) :=
  match l with
  | [] => [x]
  | y :: l' => if (snd x <? snd y)%Z then x :: y :: l' else y :: insert_by_level x l'
  end.

Definition sort_by_level (l : list (NodeType * Z)) : list (NodeType * Z) :=
  fold_left (fun sorted x => insert_by_level x sorted) l [].

(** [VectorRotationTree.get_sorted_nodes()] *)
Definition get_sorted_nodes (self : DiGraph) : list NodeType :=
  map fst (sort_by_level (map (fun kv => (fst kv, level (snd kv))) (nodes self))).

(** [graph.nodes[node]["weight"] = value] *)
Definition assign_weight (self : DiGraph) (node : NodeType) (value : R)
  : result DiGraph :=
  _ <- get_node self node ;;
  Ok {| nodes := update node (set_weight value) (nodes self); succ := succ self |}.

(** The loop over [enumerate(node_list)] of [get_weighted_mean]. *)
Fixpoint assign_weights (self : DiGraph) (node_list : list NodeType) (weights : list R)
  : result DiGraph :=
  match node_list with
  | [] => Ok self
  | node :: node_list' =>
      match weights with
      | [] => Raise IndexError
      | w :: weights' =>
          self <- assign_weight self node w ;;
          assign_weights self node_list' weights'
      end
  end.

(** [graph.nodes[succ_id]["weight"] += graph.nodes[node_id]["weight"]] *)
Definition add_weight_to_successor (node_id : NodeType) (self : DiGraph)
           (succ_id : NodeType) : DiGraph :=
  match lookup node_id (nodes self) with
  | Some data =>
      {| nodes := update succ_id (fun d => set_weight (weight d + weight data) d)
                         (nodes self);
         succ := succ self |}
  | None => self
  end.

(** The loop [# Update cumulated weights] of [get_weighted_mean]. *)
Definition update_cumulated_weights (self : DiGraph) (sorted_list : list NodeType)
  : DiGraph :=
  fold_left (fun graph node_id =>
               fold_left (add_weight_to_successor node_id)
                         (successors graph node_id) graph)
            sorted_list self.

(** [VectorRotationTree.get_weighted_mean(node_list, weights)], from its
    start to the end of the loop [# Update cumulated weights]: the graph
    with the weights that the rest of the method reads. *)
Definition get_weighted_mean_weights (self : DiGraph) (node_list : list NodeType)
           (weights : list R) : result DiGraph :=
  let self := reset_node_weights self in
  self <- assign_weights self node_list weights ;;
  let sorted_list := get_sorted_nodes self in
  Ok (update_cumulated_weights self sorted_list).

(** [VectorRotationTree.get_all_childs_children(node)] for a node of the
    graph; the [while] loop runs for at most [fuel] rounds. *)
Fixpoint childs_children_loop (fuel : nat) (self : DiGraph)
         (successor_list : list NodeType) (ii : nat) : option (list NodeType) :=
  match fuel with
  | O => None
  | S fuel' =>
      if (ii <? List.length successor_list)%nat
      then childs_children_loop fuel' self
             (successor_list ++ successors self (nth ii successor_list 0%Z))
             (ii + 1)
      else Some successor_list
  end.

Definition get_all_childs_children (fuel : nat) (self : DiGraph) (node : NodeType)
  : option (list NodeType) :=
  childs_children_loop fuel self (successors self node) 0.

End Rotation.

Import Rotation.

(** ** [MultiBoundaryContainer] *)

Module MultiBoundary.

(** What the last call of [update_relative_reference_point] left on an
    obstacle: nothing yet, a call of [reset_relative_reference()], or the
    assignment of [global_relative_reference_point] followed by
    [set_relative_gamma_at_position(position, relative_gamma)]. *)
Inductive RelativeReference : Type :=
| untouched
| reset
| blended (global_relative_reference_point : Vector) (position : Vector)
          (relative_gamma : R).

(** The obstacle classes ([Ellipse], ...) are not under src/; the container
    uses them through the attributes and methods below.  [get_gamma] is
    [get_gamma(position, in_global_frame=True)], [get_gamma_absolute] is the
    call with [relative_gamma=False] added, [get_intersection_with_surface]
    is the call with [in_global_frame=True]. *)
Record Obstacle : Type := {
  is_boundary : bool;
  center_position : Vector;
  global_reference_point : Vector;
  get_gamma : Vector -> R;
  get_gamma_absolute : Vector -> R;
  get_intersection_with_surface : Vector -> Vector;
  relative_reference : RelativeReference
}.

Definition set_relative_reference (value : RelativeReference) (obstacle : Obstacle)
  : Obstacle :=
  {| is_boundary := is_boundary obstacle;
     center_position := center_position obstacle;
     global_reference_point := global_reference_point obstacle;
     get_gamma := get_gamma obstacle;
     get_gamma_absolute := get_gamma_absolute obstacle;
     get_intersection_with_surface := get_intersection_with_surface obstacle;
     relative_reference := value |}.

(** Modelled from the spec: the base class [BaseContainer] is not under
    src/.  It holds the obstacles in a list: [append] adds one at the end,
    [n_obstacles] is the length of the list and [self[ii]] its element
    [ii].  The other three fields are those of [MultiBoundaryContainer]. *)
Record Container : Type := {
  obstacle_list : list Obstacle;
  parent_array : list Z;
  children_list : list (list Z);
  parent_intersection_point : list (option Vector)
}.

Definition n_obstacles (self : Container) : nat := List.length (obstacle_list self).

(** [MultiBoundaryContainer()] *)
Definition empty : Container :=
  {| obstacle_list := []; parent_array := []; children_list := [];
     parent_intersection_point := [] |}.

(** [l[k] = f(l[k])] *)
Fixpoint update_nth {A : Type} (k : nat) (f : A -> A) (l : list A) : list A :=
  match l, k with
  | [], _ => []
  | x :: l', O => f x :: l'
  | x :: l', S k' => x :: update_nth k' f l'
  end.

(** [set_parent(it, parent)].  ([_parent_array] is an array of [int64]:
    a [parent] outside that range raises [OverflowError] in NumPy, and is
    outside this model.) *)
Definition set_parent (self : Container) (it parent : Z) : result Container :=
  k <- Py.index (List.length (parent_array self)) it ;;
  Ok {| obstacle_list := obstacle_list self;
        parent_array := update_nth k (fun _ => parent) (parent_array self);
        children_list := children_list self;
        parent_intersection_point := parent_intersection_point self |}.

(** [add_children(it, children)] with a list [children] *)
Definition add_children (self : Container) (it : Z) (children : list Z)
  : result Container :=
  k <- Py.index (List.length (children_list self)) it ;;
  Ok {| obstacle_list := obstacle_list self;
        parent_array := parent_array self;
        children_list := update_nth k (fun l => l ++ children) (children_list self);
        parent_intersection_point := parent_intersection_point self |}.

(** [extend_graph(child, parent)] *)
Definition extend_graph (self : Container) (child parent : Z) : result Container :=
  self <- set_parent self child parent ;;
  add_children self parent [child].

(** [append(value, parent=None)]; [parent] is [None] or an integer. *)
Definition append (self : Container) (value : Obstacle) (parent : option Z)
  : result Container :=
  let self :=
    {| obstacle_list := obstacle_list self ++ [value];
       parent_array := parent_array self ++ [(-1)%Z];
       children_list := children_list self ++ [[]];
       parent_intersection_point := parent_intersection_point self ++ [None] |} in
  match parent with
  | None => Ok self
  | Some parent =>
      if (parent =? -1)%Z
      then extend_graph self (Z.of_nat (n_obstacles self) - 1)
                        (Z.of_nat (n_obstacles self) - 2)
      else Ok self
  end.

Definition Rlt_bool (a b : R) : bool := if Rlt_dec a b then true else false.
Definition Rle_bool (a b : R) : bool := if Rle_dec a b then true else false.

(** The loop of [check_collision(position)] over the obstacles that are
    left, and its final line. *)
Fixpoint check_collision_loop (obstacles : list Obstacle) (position : Vector)
         (gamma_list_boundary : list R) : bool :=
  match obstacles with
  | [] => forallb (fun gamma => Rle_bool gamma 1) gamma_list_boundary
  | obstacle :: obstacles' =>
      let gamma := get_gamma obstacle position in
      if is_boundary obstacle
      then check_collision_loop obstacles' position (gamma_list_boundary ++ [gamma])
      else if Rlt_bool gamma 1 then true
           else check_collision_loop obstacles' position gamma_list_boundary
  end.

(** [check_collision(position)] *)
Definition check_collision (self : Container) (position : Vector) : bool :=
  check_collision_loop (obstacle_list self) position [].

(** [zip(range(n), obstacles)] *)
Definition indexed (self : Container) : list (nat * Obstacle) :=
  combine (seq 0 (n_obstacles self)) (obstacle_list self).

(** The entries of [ind_inside] and of [ind_close]. *)
Definition is_inside (position : Vector) (obstacle : Obstacle) : bool :=
  Rlt_bool 1 (get_gamma_absolute obstacle position) && is_boundary obstacle.

Definition is_close (position : Vector) (gamma_margin_close_wall : R)
           (obstacle : Obstacle) : bool :=
  Rlt_bool gamma_margin_close_wall (get_gamma_absolute obstacle position)
  && is_boundary obstacle.

(** [1 - 1 / (1 + weight_1 * weight_2)] *)
Definition blend_weight (dist_point dist_boundary_point gamma_boundary_point : R) : R :=
  let weight_1 := dist_point / (dist_boundary_point - dist_point) in
  let weight_2 := gamma_boundary_point - 1 in
  1 - 1 / (1 + weight_1 * weight_2).

(** The array [weights] at the end of the inner loop: one entry per close
    boundary, [0] where the loop [continue]s. *)
Definition blend_weights (self : Container) (position : Vector)
           (gamma_margin_close_wall : R) (ii_self : nat) (obstacle : Obstacle)
  : list R :=
  let boundary_point :=
    get_intersection_with_surface obstacle
      (vsub position (center_position obstacle)) in
  let dist_boundary_point := norm (vsub boundary_point (center_position obstacle)) in
  let dist_point := norm (vsub position (center_position obstacle)) in
  map (fun other =>
         if (ii_self =? fst other)%nat then 0
         else
           let gamma_boundary_point := get_gamma_absolute (snd other) boundary_point in
           if Rlt_bool gamma_boundary_point 1 then 0
           else blend_weight dist_point dist_boundary_point gamma_boundary_point)
      (filter (fun other => is_close position gamma_margin_close_wall (snd other))
              (indexed self)).

(** [np.max] *)
Definition np_max (a : list R) : result R :=
  match a with
  | [] =>
      Raise (ValueError
               "zero-size array to reduction operation maximum which has no identity")
  | x :: a' => Ok (fold_left Rmax a' x)
  end.

Definition weight_error : exception := ValueError "Weight greater than 1...".

(** The body of the outer loop of [update_relative_reference_point], for
    the inside obstacle [self[ii_self]].  (The [breakpoint()] before the
    [raise] stops in the debugger and is not modelled.) *)
Definition update_inside (self : Container) (position : Vector)
           (gamma_margin_close_wall : R) (ii_self : nat) (obstacle : Obstacle)
  : result Obstacle :=
  let boundary_point :=
    get_intersection_with_surface obstacle
      (vsub position (center_position obstacle)) in
  let dist_boundary_point := norm (vsub boundary_point (center_position obstacle)) in
  let dist_point := norm (vsub position (center_position obstacle)) in
  rel_reference_weight <-
    np_max (blend_weights self position gamma_margin_close_wall ii_self obstacle) ;;
  if Rlt_bool 1 rel_reference_weight then Raise weight_error
  else
    let global_relative_reference_point :=
      vadd (vscale rel_reference_weight position)
           (vscale (1 - rel_reference_weight) (global_reference_point obstacle)) in
    let dist_rel_ref :=
      norm (vsub global_relative_reference_point (center_position obstacle)) in
    let relative_gamma :=
      (dist_boundary_point - dist_rel_ref) / (dist_point - dist_rel_ref) in
    Ok (set_relative_reference
          (blended global_relative_reference_point position relative_gamma)
          obstacle).

(** The outer loop, over the obstacles that are left. *)
Fixpoint update_inside_loop (self : Container) (position : Vector)
         (gamma_margin_close_wall : R) (obstacles : list (nat * Obstacle))
  : result (list Obstacle) :=
  match obstacles with
  | [] => Ok []
  | (ii_self, obstacle) :: obstacles' =>
      obstacle <-
        (if is_inside position obstacle
         then update_inside self position gamma_margin_close_wall ii_self obstacle
         else Ok obstacle) ;;
      obstacles' <-
        update_inside_loop self position gamma_margin_close_wall obstacles' ;;
      Ok (obstacle :: obstacles')
  end.

(** [update_relative_reference_point(position, gamma_margin_close_wall)] *)
Definition update_relative_reference_point (self : Container) (position : Vector)
           (gamma_margin_close_wall : R) : result Container :=
  obstacles <-
    update_inside_loop self position gamma_margin_close_wall (indexed self) ;;
  Ok {| obstacle_list :=
          map (fun obstacle =>
                 if is_inside position obstacle then obstacle
                 else set_relative_reference reset obstacle)
              obstacles;
        parent_array := parent_array self;
        children_list := children_list self;
        parent_intersection_point := parent_intersection_point self |}.

(** [l[i]] on a Python list. *)
Definition getitem {A : Type} (l : list A) (i : Z) : result A :=
  k <- Py.index (List.length l) i ;;
  match nth_error l k with
  | Some x => Ok x
  | None => Raise IndexError
  end.

(** [get_parent(it)] *)
Definition get_parent (self : Container) (it : Z) : result Z :=
  getitem (parent_array self) it.

(** [get_children(it)] *)
Definition get_children (self : Container) (it : Z) : result (list Z) :=
  getitem (children_list self) it.

Definition attractor_error : exception :=
  ValueError "Need 'attractor_position' to evaluate the desired direction.".

(** An attribute that [__init__] does not assign: missing from the
    instance until a method assigns it, and an [AttributeError] when read
    before. *)
Inductive Attribute (A : Type) : Type :=
| missing
| assigned (value : A).

Arguments missing {A}.
Arguments assigned {A} value.

(** [get_convergence_direction(position, it_obs, attractor_position)].
    [evaluate_linear_dynamical_system] is the function of the package
    vartools, called with [position] and [center_position].  The argument
    [_attractor_position] is the attribute of that name before the call:
    [__init__] assigns [_attractractor_position] in its place, so it is
    missing until [update_intersection_graph] or a call with an attractor
    assigns it.  The result comes with the attribute after the call. *)
Definition get_convergence_direction
           (evaluate_linear_dynamical_system : Vector -> Vector -> Vector)
           (self : Container) (_attractor_position : Attribute (option Vector))
           (position : Vector) (it_obs : Z) (attractor_position : option Vector)
  : Attribute (option Vector) * result Vector :=
  let _attractor_position :=
    match attractor_position with
    | Some attractor => assigned (Some attractor)
    | None => _attractor_position
    end in
  (_attractor_position,
   intersection <- getitem (parent_intersection_point self) it_obs ;;
   local_attractor <-
     match intersection with
     | None =>
         match _attractor_position with
         | missing => Raise (AttributeError "_attractor_position")
         | assigned None => Raise attractor_error
         | assigned (Some attractor) => Ok attractor
         end
     | Some point =>
         obstacle <- getitem (obstacle_list self) it_obs ;;
         Ok (get_intersection_with_surface obstacle
               (vsub point (center_position obstacle)))
     end ;;
   let direction := evaluate_linear_dynamical_system position local_attractor in
   let dir_mag := norm direction in
   Ok (if truthy dir_mag then vdiv direction dir_mag else direction)).

End MultiBoundary.

Import MultiBoundary.

(** * Vocabulary of the properties *)

Module Vocabulary.

(** [a * b0 + c * b1 + x], componentwise. *)
Definition comb (a c : R) (b0 b1 x : Vector) : Vector :=
  vadd (vadd (vscale a b0) (vscale c b1)) x.

(** The two columns have norm [1] and are orthogonal. *)
Definition orthonormal (b : Base) : Prop :=
  dot (col0 b) (col0 b) = 1 /\ dot (col1 b) (col1 b) = 1
  /\ dot (col0 b) (col1 b) = 0.

Definition antiparallel_error : exception := ValueError "Antiparallel vectors".

(** The rotation that [from_directions] returns when it returns one. *)
Definition built_rotation (vec_init vec_rot : Vector) : VectorRotationXd :=
  {| base := (vec_init,
              if Rlt_dec (dot vec_init vec_rot) 1
              then vdiv (vsub vec_rot (vscale (dot vec_init vec_rot) vec_init))
                        (norm (vsub vec_rot (vscale (dot vec_init vec_rot) vec_init)))
              else vec_rot);
     rotation_angle := acos (dot vec_init vec_rot) |}.

(** *** The chain of [test_multi_rotation_array] *)

Definition test_vectors : list Vector :=
  [[1; 0; 0]; [0; 1; 0]; [0; 0; 1]; [-1; 0; 0]; [0; -1; 0]].

Definition test_bases : list Base :=
  [([1; 0; 0], [0; 1; 0]); ([0; 1; 0], [0; 0; 1]);
   ([0; 0; 1], [-1; 0; 0]); ([-1; 0; 0], [0; -1; 0])].

Definition test_sequence : VectorRotationSequence :=
  {| vectors_array := test_vectors;
     basis_array := test_bases;
     rotation_angles := [PI / 2; PI / 2; PI / 2; PI / 2] |}.

(** The bases of the chain after the rounds [ii = 2] and [ii = 1] of the
    top-to-bottom loop, for the weights [[0.5, 0.5, 0, 0]]. *)
Definition half_bases_2 : list Base :=
  [([1; 0; 0], [0; 1; 0]); ([0; 1; 0], [0; 0; 1]);
   ([0; 0; 1], [-1; 0; 0]); ([0; 0; -1], [0; -1; 0])].

Definition half_bases_1 : list Base :=
  [([1; 0; 0], [0; 1; 0]); ([0; 1; 0], [0; 0; 1]);
   ([0; - (1 / sqrt 2); 1 / sqrt 2], [-1; 0; 0]);
   ([0; 1 / sqrt 2; - (1 / sqrt 2)], [0; - (1 / sqrt 2); - (1 / sqrt 2)])].

(** *** The tree of [test_rotation_tree] *)

(** [math.pi * 0.75], the default of [rotation_limit]. *)
Definition default_rotation_limit : R := PI * (3 / 4).

Definition build_test_tree : result (DiGraph * list warning) :=
  let new_tree := tree_init 0%Z [0; 1] in
  '(t, w1) <- add_node new_tree 1%Z [1; 0] 0%Z default_rotation_limit ;;
  '(t, w2) <- add_node t 2%Z [1; 0] 1%Z default_rotation_limit ;;
  '(t, w3) <- add_node t 3%Z [-1; 0] 0%Z default_rotation_limit ;;
  '(t, w4) <- add_node t 4%Z [-1; 0] 3%Z default_rotation_limit ;;
  Ok (t, w1 ++ w2 ++ w3 ++ w4).

Definition test_node (lvl : Z) (parent_direction direction : Vector) : NodeData :=
  {| level := lvl; direction := direction; weight := 0;
     orientation := new_object (built_rotation parent_direction direction) |}.

Definition test_tree : DiGraph :=
  {| nodes :=
       [(0%Z, {| level := 0; direction := [0; 1]; weight := 0;
                 orientation :=
                   new_object {| base := ([0; 1], [0; 1]); rotation_angle := 0 |} |});
        (1%Z, test_node 1 [0; 1] [1; 0]);
        (2%Z, test_node 2 [1; 0] [1; 0]);
        (3%Z, test_node 1 [0; 1] [-1; 0]);
        (4%Z, test_node 2 [-1; 0] [-1; 0])];
     succ := [(0, [1; 3]); (1, [2]); (2, []); (3, [4]); (4, [])]%Z |}.

(** [graph.nodes[node]["weight"]] *)
Definition weight_of (graph : DiGraph) (node : NodeType) : R :=
  match lookup node (nodes graph) with
  | Some data => weight data
  | None => 0
  end.

(** The weight that the call assigns to [node]: the last one on duplicates,
    [0] for a node that is not in [node_list]. *)
Fixpoint input_weight (node_list : list NodeType) (weights : list R) (node : NodeType)
  : R :=
  match node_list, weights with
  | n :: node_list', w :: weights' =>
      if existsb (Z.eqb node) node_list' then input_weight node_list' weights' node
      else if (n =? node)%Z then w else 0
  | _, _ => 0
  end.

(** The input weight of a node plus the input weights of [descendants]. *)
Definition weight_with_descendants (node_list : list NodeType) (weights : list R)
           (node : NodeType) (descendants : list NodeType) : R :=
  input_weight node_list weights node
  + fold_right Rplus 0 (map (input_weight node_list weights) descendants).

(** *** Containers *)

(** [obstacle] is a plain obstacle with [position] strictly inside. *)
Definition hits (position : Vector) (obstacle : Obstacle) : Prop :=
  is_boundary obstacle = false /\ get_gamma obstacle position < 1.

(** [position] has [gamma <= 1] for every boundary of [obstacles]. *)
Definition walls_closed (position : Vector) (obstacles : list Obstacle) : Prop :=
  forall obstacle, In obstacle obstacles -> is_boundary obstacle = true ->
                   get_gamma obstacle position <= 1.

(** The arrays of the graph are as long as the list of obstacles. *)
Definition well_formed (self : Container) : Prop :=
  List.length (parent_array self) = n_obstacles self
  /\ List.length (children_list self) = n_obstacles self.

(** [dist_point] and [dist_boundary_point] of the outer loop of
    [update_relative_reference_point]. *)
Definition dist_point (position : Vector) (obstacle : Obstacle) : R :=
  norm (vsub position (center_position obstacle)).

Definition dist_boundary_point (position : Vector) (obstacle : Obstacle) : R :=
  norm (vsub (get_intersection_with_surface obstacle
                (vsub position (center_position obstacle)))
             (center_position obstacle)).

(** What a successful round of the outer loop leaves on the obstacle: the
    reference point blended with a weight in [[0, 1]]. *)
Definition stored_blend (position : Vector) (obstacle updated : Obstacle) : Prop :=
  exists w relative_gamma,
    0 <= w <= 1
    /\ updated =
       set_relative_reference
         (blended (vadd (vscale w position)
                        (vscale (1 - w) (global_reference_point obstacle)))
                  position relative_gamma)
         obstacle.

(** An obstacle whose gamma is the same everywhere. *)
Definition constant_obstacle (boundary : bool) (gamma : R) : Obstacle :=
  {| is_boundary := boundary;
     center_position := [0; 0];
     global_reference_point := [0; 0];
     get_gamma := fun _ => gamma;
     get_gamma_absolute := fun _ => gamma;
     get_intersection_with_surface := fun direction => direction;
     relative_reference := untouched |}.

Definition container_of (obstacles : list Obstacle) : Container :=
  {| obstacle_list := obstacles;
     parent_array := map (fun _ => (-1)%Z) obstacles;
     children_list := map (fun _ => []) obstacles;
     parent_intersection_point := map (fun _ => None) obstacles |}.

(** A boundary on the line, centred at the origin: its surface is met at
    the point [surface] whatever the direction, and [gamma] is its gamma
    everywhere. *)
Definition wall (surface : R) (gamma : R) : Obstacle :=
  {| is_boundary := true;
     center_position := [0];
     global_reference_point := [0];
     get_gamma := fun _ => gamma;
     get_gamma_absolute := fun _ => gamma;
     get_intersection_with_surface := fun _ => [surface];
     relative_reference := untouched |}.

Definition one_wall : Container :=
  {| obstacle_list := [wall 2 2];
     parent_array := [(-1)%Z];
     children_list := [[]];
     parent_intersection_point := [None] |}.

Definition two_walls (surface : R) (gamma : R) : Container :=
  {| obstacle_list := [wall surface 2; wall surface gamma];
     parent_array := [-1; -1]%Z;
     children_list := [[]; []];
     parent_intersection_point := [None; None] |}.

(** [1e-6], the default of [gamma_margin_close_wall]. *)
Definition default_margin : R := 1 / 1000000.

(** *** Chains of directions *)

(** The dot products of consecutive directions, and the second column of
    each base, as [VectorRotationSequence.__init__] computes them from
    directions that are normalised already. *)
Definition chain_dots (vectors : list Vector) : list R :=
  map2 dot (tl vectors) (removelast vectors).

Definition chain_perps (vectors : list Vector) : list Vector :=
  map (fun v => vdiv v (norm v))
      (map2 vsub (tl vectors)
            (map2 (fun v d => vscale d v) (removelast vectors) (chain_dots vectors))).

(** Unit directions of one dimension, consecutive ones neither equal nor
    opposite. *)
Fixpoint proper_chain (dimension : nat) (vectors : list Vector) : Prop :=
  match vectors with
  | [] => True
  | v :: rest =>
      List.length v = dimension /\ norm v = 1
      /\ match rest with
         | [] => True
         | v' :: _ => -1 < dot v' v < 1
         end
      /\ proper_chain dimension rest
  end.

Definition unit_base (dimension : nat) (b : Base) : Prop :=
  List.length (col0 b) = dimension /\ List.length (col1 b) = dimension
  /\ norm (col0 b) = 1 /\ norm (col1 b) = 1.

(** *** Trees *)

Definition is_node (graph : DiGraph) (node : NodeType) : Prop :=
  lookup node (nodes graph) <> None.

(** [graph.nodes[node]["level"]] *)
Definition level_of (graph : DiGraph) (node : NodeType) : Z :=
  match lookup node (nodes graph) with
  | Some data => level data
  | None => 0
  end.

(** The graph is a forest whose levels count the edges from a root: every
    node is stored once and has its adjacency entry, successors are nodes,
    a node has at most one predecessor, and the level of a successor is one
    more than the level of its predecessor. *)
Record tree_invariant (graph : DiGraph) : Prop := {
  nodes_once : NoDup (map fst (nodes graph));
  adjacency_of_nodes :
    forall node, lookup node (nodes graph) = None <-> lookup node (succ graph) = None;
  successors_are_nodes :
    forall u v, In v (successors graph u) -> is_node graph v;
  successors_once : forall u, NoDup (successors graph u);
  one_parent :
    forall u u' v, In v (successors graph u) -> In v (successors graph u') -> u = u';
  child_level :
    forall u v, In v (successors graph u) ->
                level_of graph v = (level_of graph u + 1)%Z
}.

(** Same nodes, in the same order and with the same levels, and same
    edges: the graphs differ by attributes other than [level] only. *)
Definition same_tree (graph graph' : DiGraph) : Prop :=
  succ graph' = succ graph
  /\ map (fun kv => (fst kv, level (snd kv))) (nodes graph') =
     map (fun kv => (fst kv, level (snd kv))) (nodes graph).

(** [v] is reached from [node] along one edge or more. *)
Inductive descendant (graph : DiGraph) (node : NodeType) : NodeType -> Prop :=
| descendant_child (v : NodeType) :
    In v (successors graph node) -> descendant graph node v
| descendant_step (u v : NodeType) :
    descendant graph node u -> In v (successors graph u) -> descendant graph node v.

Definition level_le (a b : NodeType * Z) : Prop := (snd a <= snd b)%Z.

(** What holds of [successor_list] when the loop of
    [get_all_childs_children(node)] is about to test
    [ii < len(successor_list)]. *)
Definition loop_invariant (self : DiGraph) (node : NodeType)
           (successor_list : list NodeType) (ii : nat) : Prop :=
  (ii <= List.length successor_list)%nat
  /\ NoDup successor_list
  /\ (forall v, In v successor_list -> descendant self node v)
  /\ (forall v, In v (successors self node) -> In v successor_list)
  /\ (forall u v, In u (firstn ii successor_list) -> In v (successors self u) ->
                  In v successor_list)
  /\ (forall v, In v successor_list ->
                In v (successors self node)
                \/ exists u, In u (firstn ii successor_list) /\ In v (successors self u)).

(** *** Graphs of containers *)

(** The calls [self.append(value, parent=parent)] for the obstacles of
    [values], in turn. *)
Fixpoint append_each (self : Container) (values : list Obstacle) (parent : option Z)
  : result Container :=
  match values with
  | [] => Ok self
  | value :: values' =>
      self <- append self value parent ;;
      append_each self values' parent
  end.

(** Parents and children of [n] obstacles appended with [parent=-1] to the
    empty container. *)
Definition chain_parents (n : nat) : list Z :=
  map (fun i => (Z.of_nat i - 1)%Z) (seq 0 n).

Definition chain_children (n : nat) : list (list Z) :=
  match n with
  | O => []
  | S O => [[0%Z]]
  | S (S k) => [0; 1]%Z :: map (fun i => [(Z.of_nat i + 1)%Z]) (seq 1 k) ++ [[]]
  end.

Definition zero_size_error : exception :=
  ValueError "zero-size array to reduction operation maximum which has no identity".

(** [direction / norm(direction)] unless the norm is [0]. *)
Definition normalised (direction : Vector) : Vector :=
  if truthy (norm direction) then vdiv direction (norm direction) else direction.

(** What [update_relative_reference_point(position)] leaves of [obstacle]:
    the same obstacle, with a relative reference point blended at
    [position] when it is an inside boundary, and reset otherwise. *)
Definition reference_updated (position : Vector) (obstacle updated : Obstacle) : Prop :=
  if is_inside position obstacle
  then exists point relative_gamma,
         updated = set_relative_reference (blended point position relative_gamma) obstacle
  else updated = set_relative_reference reset obstacle.

(** Dynamics that point from [position] to [center_position]. *)
Definition toward (position center_position : Vector) : Vector :=
  vsub center_position position.


(** *** Arrays *)

(** [a] has [r] rows of [c] entries. *)
Definition shape (r c : nat) (a : Array2) : Prop :=
  List.length a = r /\ Forall (fun row => List.length row = c) a.

(** [a[i, j]] *)
Definition entry (i j : nat) (a : Array2) : R := nth j (nth i a []) 0.

(** [a[:, j]] *)
Definition column (j : nat) (a : Array2) : Vector := map (fun row => nth j row 0) a.

(** *** Boundaries and calls *)

(** The gamma of a boundary, by the convention of the specification: a
    position with [gamma > 1] is inside the region that the boundary
    encloses, nearer to the centre than the point where the surface is met
    in its direction. *)
Definition encloses (obstacle : Obstacle) : Prop :=
  forall position,
    1 < get_gamma_absolute obstacle position ->
    dist_point position obstacle < dist_boundary_point position obstacle.

(** A boundary on the line: the interval of radius [radius] around the
    origin, with the gamma [radius / distance]. *)
Definition interval_wall (radius : R) : Obstacle :=
  {| is_boundary := true;
     center_position := [0];
     global_reference_point := [0];
     get_gamma := fun position => radius / norm (vsub position [0]);
     get_gamma_absolute := fun position => radius / norm (vsub position [0]);
     get_intersection_with_surface :=
       fun direction => vscale (radius / norm direction) direction;
     relative_reference := untouched |}.

(** The values that the [int64] array [_parent_array] holds. *)
Definition int64 (value : Z) : Prop := (- 2 ^ 63 <= value < 2 ^ 63)%Z.

(** A call [get_convergence_direction(position, it_obs,
    attractor_position)]. *)
Record ConvergenceCall : Type := {
  call_position : Vector;
  call_it_obs : Z;
  call_attractor_position : option Vector
}.

(** Calls of [get_convergence_direction] on one container, one after the
    other: the attribute [_attractor_position] after the last call, and the
    results of the calls. *)
Fixpoint convergence_calls
         (evaluate_linear_dynamical_system : Vector -> Vector -> Vector)
         (self : Container) (_attractor_position : Attribute (option Vector))
         (calls : list ConvergenceCall)
  : Attribute (option Vector) * list (result Vector) :=
  match calls with
  | [] => (_attractor_position, [])
  | call :: calls' =>
      let first :=
        get_convergence_direction evaluate_linear_dynamical_system self
          _attractor_position (call_position call) (call_it_obs call)
          (call_attractor_position call) in
      let rest :=
        convergence_calls evaluate_linear_dynamical_system self (fst first) calls' in
      (fst rest, snd first :: snd rest)
  end.

(** The last attractor given by [calls], [attractor] when none gives one. *)
Definition last_attractor (attractor : Vector) (calls : list ConvergenceCall) : Vector :=
  fold_left (fun kept call =>
               match call_attractor_position call with
               | Some given => given
               | None => kept
               end)
            calls attractor.

End Vocabulary.

Import Vocabulary.

(** * Properties *)

(** ** Vector algebra *)

Section VectorAlgebra.

Lemma map2_length {A B C : Type} (f : A -> B -> C) (u : list A) (v : list B) :
  List.length u = List.length v -> List.length (map2 f u v) = List.length u.
Proof.
  revert v; induction u as [|a u IH]; intros [|b v] H; simpl in *; try congruence.
  f_equal; apply IH; congruence.
Qed.

Lemma vadd_length (u v : Vector) :
  List.length u = List.length v -> List.length (vadd u v) = List.length u.
Proof. apply map2_length. Qed.

Lemma vsub_length (u v : Vector) :
  List.length u = List.length v -> List.length (vsub u v) = List.length u.
Proof. apply map2_length. Qed.

Lemma vscale_length (k : R) (v : Vector) : List.length (vscale k v) = List.length v.
Proof. apply length_map. Qed.

Lemma vdiv_length (v : Vector) (k : R) : List.length (vdiv v k) = List.length v.
Proof. apply length_map. Qed.

Lemma vdiv_1 (v : Vector) : vdiv v 1 = v.
Proof.
  unfold vdiv; induction v as [|a v IH]; simpl; [reflexivity|].
  rewrite IH; f_equal; field.
Qed.

Lemma vdiv_vscale (v : Vector) (k : R) : vdiv v k = vscale (/ k) v.
Proof.
  unfold vdiv, vscale; induction v as [|a v IH]; simpl; [reflexivity|].
  rewrite IH; f_equal; unfold Rdiv; ring.
Qed.

Lemma dot_comm (u v : Vector) : dot u v = dot v u.
Proof.
  revert v; induction u as [|a u IH]; intros [|b v]; simpl; try reflexivity.
  rewrite IH; ring.
Qed.

Lemma dot_vscale_l (k : R) (u v : Vector) : dot (vscale k u) v = k * dot u v.
Proof.
  unfold vscale; revert v; induction u as [|a u IH]; intros [|b v]; simpl; try ring.
  rewrite IH; ring.
Qed.

Lemma dot_vscale_r (k : R) (u v : Vector) : dot u (vscale k v) = k * dot u v.
Proof. rewrite dot_comm, dot_vscale_l, dot_comm; reflexivity. Qed.

Lemma dot_vadd_l (u v w : Vector) :
  List.length u = List.length v -> List.length u = List.length w ->
  dot (vadd u v) w = dot u w + dot v w.
Proof.
  unfold vadd; revert v w; induction u as [|a u IH]; intros [|b v] [|c w] Hv Hw;
    simpl in *; try discriminate; try ring.
  rewrite IH by congruence; ring.
Qed.

Lemma dot_vadd_r (u v w : Vector) :
  List.length v = List.length w -> List.length v = List.length u ->
  dot u (vadd v w) = dot u v + dot u w.
Proof.
  intros Hv Hu; rewrite dot_comm, dot_vadd_l by assumption.
  rewrite (dot_comm v), (dot_comm w); reflexivity.
Qed.

Lemma dot_vsub_l (u v w : Vector) :
  List.length u = List.length v -> List.length u = List.length w ->
  dot (vsub u v) w = dot u w - dot v w.
Proof.
  unfold vsub; revert v w; induction u as [|a u IH]; intros [|b v] [|c w] Hv Hw;
    simpl in *; try discriminate; try ring.
  rewrite IH by congruence; ring.
Qed.

Lemma dot_vsub_r (u v w : Vector) :
  List.length v = List.length w -> List.length v = List.length u ->
  dot u (vsub v w) = dot u v - dot u w.
Proof.
  intros Hv Hu; rewrite dot_comm, dot_vsub_l by assumption.
  rewrite (dot_comm v), (dot_comm w); reflexivity.
Qed.

Lemma dot_self_nonneg (v : Vector) : 0 <= dot v v.
Proof.
  induction v as [|a v IH]; simpl; [lra|].
  pose proof (Rle_0_sqr a) as Ha; unfold Rsqr in Ha; lra.
Qed.

Lemma norm_1_dot (v : Vector) : norm v = 1 -> dot v v = 1.
Proof.
  unfold norm; intros H.
  rewrite <- (sqrt_sqrt (dot v v)) by apply dot_self_nonneg.
  rewrite H; ring.
Qed.

Lemma dot_1_norm (v : Vector) : dot v v = 1 -> norm v = 1.
Proof. unfold norm; intros ->; apply sqrt_1. Qed.

(** Two unit vectors have a dot product of at least [-1]. *)
Lemma dot_unit_lower (u v : Vector) :
  List.length u = List.length v -> dot u u = 1 -> dot v v = 1 -> -1 <= dot u v.
Proof.
  intros Hl Hu Hv.
  pose proof (dot_self_nonneg (vadd u v)) as H.
  rewrite dot_vadd_l in H by (rewrite ?vadd_length; congruence).
  rewrite !dot_vadd_r in H by congruence.
  rewrite (dot_comm v u) in H; lra.
Qed.

End VectorAlgebra.

(** ** Opposite directions *)

Section Antiparallel.

Lemma dot_self_zero (w : Vector) : dot w w = 0 -> Forall (fun x => x = 0) w.
Proof.
  induction w as [|a w IH]; cbn [dot]; intros H; constructor.
  - pose proof (dot_self_nonneg w); nra.
  - apply IH; pose proof (dot_self_nonneg w); nra.
Qed.

Lemma vadd_zero_opp (u v : Vector) :
  List.length u = List.length v ->
  Forall (fun x => x = 0) (vadd u v) -> v = vscale (-1) u.
Proof.
  unfold vadd, vscale; revert v; induction u as [|a u IH]; intros [|b v] Hl H;
    cbn [List.length map map2] in *; try discriminate; [reflexivity|].
  inversion H as [|? ? Hab Hrest]; subst.
  f_equal; [lra | apply IH; [congruence | exact Hrest]].
Qed.

(** Two unit directions have the dot product [-1] exactly when one is the
    opposite of the other. *)
Lemma dot_opposite_iff (u v : Vector) :
  List.length u = List.length v -> norm u = 1 -> norm v = 1 ->
  dot u v = -1 <-> v = vscale (-1) u.
Proof.
  intros Hl Hu Hv; apply norm_1_dot in Hu, Hv; split.
  - intros Hd; apply vadd_zero_opp; [exact Hl|].
    apply dot_self_zero.
    rewrite dot_vadd_l by (rewrite ?vadd_length; congruence).
    rewrite !dot_vadd_r by congruence.
    rewrite (dot_comm v u); lra.
  - intros ->; rewrite dot_vscale_r; lra.
Qed.

End Antiparallel.

(** ** Polar coordinates *)

Section Polar.

Lemma sqrt_sum_sq_pos (x y : R) : 0 < x -> sqrt (x ^ 2 + y ^ 2) = x * sqrt (1 + (y / x)²).
Proof.
  intros Hx.
  replace (x ^ 2 + y ^ 2) with (x ^ 2 * (1 + (y / x)²)) by (unfold Rsqr; field; lra).
  rewrite sqrt_mult_alt by nra.
  replace (x ^ 2) with (x * x) by ring.
  rewrite sqrt_square by lra; reflexivity.
Qed.

Lemma sqrt_sum_sq_neg (x y : R) : x < 0 -> sqrt (x ^ 2 + y ^ 2) = - x * sqrt (1 + (y / x)²).
Proof.
  intros Hx.
  replace (x ^ 2 + y ^ 2) with ((- x) ^ 2 + y ^ 2) by ring.
  rewrite sqrt_sum_sq_pos by lra.
  replace (y / - x)² with (y / x)² by (unfold Rsqr; field; lra).
  reflexivity.
Qed.

Lemma sqrt_1_sq_pos (t : R) : 0 < sqrt (1 + t²).
Proof. apply sqrt_lt_R0; pose proof (Rle_0_sqr t); lra. Qed.

(** [atan2 y x] is the polar angle of [(x, y)]. *)
Lemma atan2_polar (x y : R) :
  sqrt (x ^ 2 + y ^ 2) * cos (atan2 y x) = x /\
  sqrt (x ^ 2 + y ^ 2) * sin (atan2 y x) = y.
Proof.
  unfold atan2.
  destruct (Rlt_dec 0 x) as [Hx|Hx].
  - rewrite sqrt_sum_sq_pos, cos_atan, sin_atan by assumption.
    pose proof (sqrt_1_sq_pos (y / x)); split; field; lra.
  - destruct (Rlt_dec x 0) as [Hx'|Hx'].
    + rewrite sqrt_sum_sq_neg by assumption.
      pose proof (sqrt_1_sq_pos (y / x)).
      destruct (Rle_dec 0 y) as [Hy|Hy].
      * rewrite cos_plus, sin_plus, cos_PI, sin_PI, cos_atan, sin_atan.
        split; field; lra.
      * rewrite cos_minus, sin_minus, cos_PI, sin_PI, cos_atan, sin_atan.
        split; field; lra.
    + assert (x = 0) by lra; subst x.
      replace (0 ^ 2 + y ^ 2) with (y * y) by ring.
      destruct (Rlt_dec 0 y) as [Hy|Hy].
      * rewrite sqrt_square, cos_PI2, sin_PI2 by lra; lra.
      * destruct (Rlt_dec y 0) as [Hy'|Hy'].
        -- replace (y * y) with ((- y) * (- y)) by ring.
           rewrite sqrt_square, cos_neg, sin_neg, cos_PI2, sin_PI2 by lra; lra.
        -- assert (y = 0) by lra; subst y.
           rewrite Rmult_0_l, sqrt_0; lra.
Qed.

(** The in-plane part of a rotation, without the polar detour. *)
Lemma polar_rotate (x y theta : R) :
  sqrt (x ^ 2 + y ^ 2) * cos (atan2 y x + theta) = x * cos theta - y * sin theta /\
  sqrt (x ^ 2 + y ^ 2) * sin (atan2 y x + theta) = x * sin theta + y * cos theta.
Proof.
  destruct (atan2_polar x y) as [Hc Hs].
  rewrite cos_plus, sin_plus.
  set (rho := sqrt (x ^ 2 + y ^ 2)) in *.
  set (c := cos (atan2 y x)) in *.
  set (s := sin (atan2 y x)) in *.
  clearbody rho c s.
  rewrite <- Hc, <- Hs; split; ring.
Qed.

End Polar.

(** ** Closed form of [rotate_direction] *)

Section RotateDirection.

Lemma comb_expand (rho c s p q : R) (b0 b1 d : Vector) :
  List.length b0 = List.length d -> List.length b1 = List.length d ->
  vadd (vscale rho (vadd (vscale c b0) (vscale s b1)))
       (vsub d (vadd (vscale p b0) (vscale q b1))) =
  comb (rho * c - p) (rho * s - q) b0 b1 d.
Proof.
  unfold comb, vadd, vsub, vscale.
  revert b0 b1; induction d as [|x d IH]; intros [|y0 b0] [|y1 b1] H0 H1;
    simpl in *; try discriminate; try reflexivity.
  f_equal; [ring | apply IH; congruence].
Qed.

Lemma rotate_direction_comb (d b0 b1 : Vector) (theta : R) :
  List.length b0 = List.length d -> List.length b1 = List.length d ->
  let d' := vdiv d (norm d) in
  let p := dot b0 d' in
  let q := dot b1 d' in
  rotate_direction d (b0, b1) theta =
  comb (p * cos theta - q * sin theta - p) (p * sin theta + q * cos theta - q) b0 b1 d'.
Proof.
  intros H0 H1 d' p q.
  unfold rotate_direction; cbn [col0 col1 fst snd].
  fold d'; fold p; fold q.
  destruct (polar_rotate p q theta) as [Hc Hs].
  rewrite <- Hc, <- Hs.
  apply comb_expand; unfold d'; rewrite vdiv_length; assumption.
Qed.

End RotateDirection.

(** ** [VectorRotationXd.from_directions] *)

Section FromDirections.

Lemma from_directions_same_length (vec_init vec_rot : Vector) :
  List.length vec_init = List.length vec_rot ->
  from_directions vec_init vec_rot =
  let dot_prod := dot vec_init vec_rot in
  if Req_dec_T dot_prod (-1) then Raise antiparallel_error
  else
    Ok {| base := (vec_init,
                   if Rlt_dec dot_prod 1
                   then vdiv (vsub vec_rot (vscale dot_prod vec_init))
                             (norm (vsub vec_rot (vscale dot_prod vec_init)))
                   else vec_rot);
          rotation_angle := acos dot_prod |}.
Proof.
  intros H; unfold from_directions.
  rewrite H, Nat.eqb_refl; reflexivity.
Qed.

(** C6: on two arrays of one dimension, [from_directions] raises the
    antiparallel error exactly when their dot product is [-1], which for
    unit directions is when the second is the opposite of the first; it
    returns a rotation whenever the dot product is greater than [-1]; and
    [from_directions([1,0], [-1,0])] raises. *)
Theorem from_directions_antiparallel_iff (vec_init vec_rot : Vector) :
  List.length vec_init = List.length vec_rot ->
  (from_directions vec_init vec_rot = Raise antiparallel_error
   <-> dot vec_init vec_rot = -1)
  /\ (norm vec_init = 1 -> norm vec_rot = 1 ->
      (from_directions vec_init vec_rot = Raise antiparallel_error
       <-> vec_rot = vscale (-1) vec_init))
  /\ (-1 < dot vec_init vec_rot ->
      exists r, from_directions vec_init vec_rot = Ok r)
  /\ from_directions [1; 0] [-1; 0] = Raise antiparallel_error.
Proof.
  intros H.
  assert (Hiff : from_directions vec_init vec_rot = Raise antiparallel_error
                 <-> dot vec_init vec_rot = -1).
  { rewrite from_directions_same_length by assumption; cbv zeta; split.
    - destruct (Req_dec_T (dot vec_init vec_rot) (-1)); [trivial | discriminate].
    - intros ->; destruct (Req_dec_T (-1) (-1)); [reflexivity | contradiction]. }
  split; [exact Hiff|].
  split; [| split].
  - intros Hi Hr; rewrite Hiff; apply dot_opposite_iff; assumption.
  - intros Hgt; rewrite from_directions_same_length by assumption; cbv zeta.
    destruct (Req_dec_T (dot vec_init vec_rot) (-1)); [lra | eauto].
  - rewrite from_directions_same_length by reflexivity; cbv zeta.
    destruct (Req_dec_T (dot [1; 0] [-1; 0]) (-1)) as [_|Hne]; [reflexivity|].
    exfalso; apply Hne; cbn [dot]; lra.
Qed.

Lemma from_directions_antiparallel_iff_witness :
  exists r, from_directions [1; 0] [0; 1] = Ok r.
Proof.
  apply (from_directions_antiparallel_iff [1; 0] [0; 1]).
  - reflexivity.
  - cbn [dot]; lra.
Defined.

(** C7: the stored base is not normalised.  On the inputs of the source's
    own [test_cross_rotation_2d], [[1, 0.3]] and [[1, -1]], the first column
    of the stored base is the input [[1, 0.3]] as given, of norm other than
    [1], and the two columns are not orthogonal. *)
Theorem from_directions_base_not_orthonormal :
  exists r,
    from_directions [1; 3 / 10] [1; -1] = Ok r
    /\ col0 (base r) = [1; 3 / 10]
    /\ norm (col0 (base r)) <> 1
    /\ dot (col0 (base r)) (col1 (base r)) <> 0.
Proof.
  eexists; split.
  - rewrite from_directions_same_length by reflexivity; cbv zeta.
    destruct (Req_dec_T (dot [1; 3 / 10] [1; -1]) (-1)) as [He|_];
      [cbn [dot] in He; lra | reflexivity].
  - cbn [base col0 col1 fst snd]; split; [reflexivity | split].
    + intros Hn; apply norm_1_dot in Hn; cbn [dot] in Hn; lra.
    + destruct (Rlt_dec (dot [1; 3 / 10] [1; -1]) 1) as [_|Hge];
        [| exfalso; apply Hge; cbn [dot]; lra].
      rewrite vdiv_vscale, dot_vscale_r.
      set (w := vsub [1; -1] (vscale (dot [1; 3 / 10] [1; -1]) [1; 3 / 10])).
      assert (Hw : 0 < norm w).
      { apply sqrt_lt_R0; unfold w; cbn [dot vsub vscale map map2]; nra. }
      assert (Hd : dot [1; 3 / 10] w < 0).
      { unfold w; cbn [dot vsub vscale map map2]; nra. }
      apply Rinv_0_lt_compat in Hw; nra.
Qed.

End FromDirections.

(** ** Round trip of [rotate] and [inverse_rotate] *)

Ltac vlen0 :=
  repeat first [ rewrite vscale_length | rewrite vdiv_length
               | rewrite vadd_length by vlen0 | rewrite vsub_length by vlen0 ];
  congruence.

Lemma comb_length (a c : R) (b0 b1 x : Vector) :
  List.length b0 = List.length x -> List.length b1 = List.length x ->
  List.length (comb a c b0 b1 x) = List.length x.
Proof. intros H0 H1; unfold comb; vlen0. Qed.

(** Lengths of vector expressions. *)
Ltac vlen :=
  repeat first [ rewrite vscale_length | rewrite vdiv_length
               | rewrite vadd_length by vlen | rewrite vsub_length by vlen
               | rewrite comb_length by vlen ];
  congruence.

Section RoundTrip.

Lemma dot_comb_r (u : Vector) (a c : R) (b0 b1 x : Vector) :
  List.length b0 = List.length x -> List.length b1 = List.length x ->
  List.length u = List.length x ->
  dot u (comb a c b0 b1 x) = a * dot u b0 + c * dot u b1 + dot u x.
Proof.
  intros H0 H1 Hu; unfold comb.
  rewrite dot_vadd_r by vlen.
  rewrite dot_vadd_r by vlen.
  rewrite !dot_vscale_r; reflexivity.
Qed.

Lemma dot_comb_l (u : Vector) (a c : R) (b0 b1 x : Vector) :
  List.length b0 = List.length x -> List.length b1 = List.length x ->
  List.length u = List.length x ->
  dot (comb a c b0 b1 x) u = a * dot b0 u + c * dot b1 u + dot x u.
Proof.
  intros H0 H1 Hu.
  rewrite dot_comm, dot_comb_r by assumption.
  rewrite (dot_comm u b0), (dot_comm u b1), (dot_comm u x); reflexivity.
Qed.

Lemma comb_comb (a c a' c' : R) (b0 b1 x : Vector) :
  List.length b0 = List.length x -> List.length b1 = List.length x ->
  comb a' c' b0 b1 (comb a c b0 b1 x) = comb (a + a') (c + c') b0 b1 x.
Proof.
  unfold comb, vadd, vscale.
  revert b0 b1; induction x as [|y x IH]; intros [|y0 b0] [|y1 b1] H0 H1;
    simpl in *; try discriminate; try reflexivity.
  f_equal; [ring | apply IH; congruence].
Qed.

Lemma comb_0 (a c : R) (b0 b1 x : Vector) :
  List.length b0 = List.length x -> List.length b1 = List.length x ->
  a = 0 -> c = 0 -> comb a c b0 b1 x = x.
Proof.
  intros H0 H1 -> ->; unfold comb, vadd, vscale.
  revert b0 b1 H0 H1; induction x as [|y x IH]; intros [|y0 b0] [|y1 b1] H0 H1;
    simpl in *; try discriminate; try reflexivity.
  f_equal; [ring | apply IH; congruence].
Qed.

(** On a unit direction the normalisation step of [rotate_direction] does
    nothing. *)
Lemma rotate_direction_unit (x b0 b1 : Vector) (theta : R) :
  List.length b0 = List.length x -> List.length b1 = List.length x ->
  norm x = 1 ->
  rotate_direction x (b0, b1) theta =
  comb (dot b0 x * cos theta - dot b1 x * sin theta - dot b0 x)
       (dot b0 x * sin theta + dot b1 x * cos theta - dot b1 x) b0 b1 x.
Proof.
  intros H0 H1 Hx.
  rewrite rotate_direction_comb by assumption; cbv zeta.
  rewrite Hx, vdiv_1; reflexivity.
Qed.

(** A rotation by the angle [0] is the identity, whatever the base. *)
Lemma rotate_direction_zero_angle (x b0 b1 : Vector) :
  List.length b0 = List.length x -> List.length b1 = List.length x ->
  norm x = 1 ->
  rotate_direction x (b0, b1) 0 = x.
Proof.
  intros H0 H1 Hx.
  rewrite rotate_direction_unit by assumption.
  apply comb_0; try assumption; rewrite cos_0, sin_0; ring.
Qed.

(** A rotation in the plane of an orthonormal base keeps the norm. *)
Lemma rotate_direction_norm (x b0 b1 : Vector) (theta : R) :
  List.length b0 = List.length x -> List.length b1 = List.length x ->
  orthonormal (b0, b1) -> norm x = 1 ->
  norm (rotate_direction x (b0, b1) theta) = 1.
Proof.
  intros H0 H1 (H00 & H11 & H01) Hx; cbn [col0 col1 fst snd] in *.
  rewrite rotate_direction_unit by assumption.
  apply dot_1_norm.
  pose proof (norm_1_dot x Hx) as Hxx.
  set (p := dot b0 x); set (q := dot b1 x).
  rewrite dot_comb_l by vlen.
  rewrite !dot_comb_r by congruence.
  rewrite H00, H11, H01, (dot_comm b1 b0), H01, Hxx.
  rewrite (dot_comm x b0), (dot_comm x b1); fold p q.
  pose proof (sin2_cos2 theta) as Hsc; unfold Rsqr in Hsc.
  set (c := cos theta) in *; set (s := sin theta) in *.
  replace ((p * c - q * s - p) * ((p * c - q * s - p) * 1 + (p * s + q * c - q) * 0 + p)
           + (p * s + q * c - q) * ((p * c - q * s - p) * 0 + (p * s + q * c - q) * 1 + q)
           + ((p * c - q * s - p) * p + (p * s + q * c - q) * q + 1))
    with (1 + (p * p + q * q) * (s * s + c * c - 1)) by ring.
  rewrite Hsc; ring.
Qed.

(** Rotating by [theta] and then by [- theta] in the plane of an
    orthonormal base gives the direction back. *)
Lemma rotate_direction_round_trip (x b0 b1 : Vector) (theta : R) :
  List.length b0 = List.length x -> List.length b1 = List.length x ->
  orthonormal (b0, b1) -> norm x = 1 ->
  rotate_direction (rotate_direction x (b0, b1) theta) (b0, b1) (- theta) = x.
Proof.
  intros H0 H1 Hb Hx.
  pose proof (rotate_direction_norm x b0 b1 theta H0 H1 Hb Hx) as Hy.
  destruct Hb as (H00 & H11 & H01); cbn [col0 col1 fst snd] in *.
  rewrite (rotate_direction_unit x b0 b1 theta H0 H1 Hx) in Hy |- *.
  set (p := dot b0 x) in *; set (q := dot b1 x) in *.
  set (c := cos theta) in *; set (s := sin theta) in *.
  rewrite rotate_direction_unit by vlen.
  rewrite comb_comb by assumption.
  rewrite !dot_comb_r by congruence.
  rewrite H00, H11, H01, (dot_comm b1 b0), H01; fold p q.
  rewrite cos_neg, sin_neg; fold c s.
  pose proof (sin2_cos2 theta) as Hsc; unfold Rsqr in Hsc; fold c s in Hsc.
  apply comb_0; try assumption.
  - replace (p * c - q * s - p +
             (((p * c - q * s - p) * 1 + (p * s + q * c - q) * 0 + p) * c
              - ((p * c - q * s - p) * 0 + (p * s + q * c - q) * 1 + q) * - s
              - ((p * c - q * s - p) * 1 + (p * s + q * c - q) * 0 + p)))
      with (p * (s * s + c * c - 1)) by ring.
    rewrite Hsc; ring.
  - replace (p * s + q * c - q +
             (((p * c - q * s - p) * 1 + (p * s + q * c - q) * 0 + p) * - s
              + ((p * c - q * s - p) * 0 + (p * s + q * c - q) * 1 + q) * c
              - ((p * c - q * s - p) * 0 + (p * s + q * c - q) * 1 + q)))
      with (q * (s * s + c * c - 1)) by ring.
    rewrite Hsc; ring.
Qed.

End RoundTrip.

Section Invertibility.

Variables vec_init vec_rot : Vector.
Hypothesis same_dimension : List.length vec_init = List.length vec_rot.
Hypothesis unit_init : norm vec_init = 1.
Hypothesis unit_rot : norm vec_rot = 1.

Let dot_prod := dot vec_init vec_rot.
Let vec_perp := vsub vec_rot (vscale dot_prod vec_init).

Lemma vec_perp_length : List.length vec_perp = List.length vec_init.
Proof. unfold vec_perp; vlen. Qed.

Lemma vec_perp_dot_self : dot vec_perp vec_perp = 1 - dot_prod * dot_prod.
Proof.
  unfold vec_perp.
  rewrite dot_vsub_l by vlen.
  rewrite !dot_vsub_r by vlen.
  rewrite !dot_vscale_l, !dot_vscale_r.
  rewrite (dot_comm vec_rot vec_init).
  rewrite (norm_1_dot _ unit_init), (norm_1_dot _ unit_rot).
  fold dot_prod; ring.
Qed.

Lemma vec_perp_dot_init : dot vec_init vec_perp = 0.
Proof.
  unfold vec_perp.
  rewrite dot_vsub_r by vlen.
  rewrite dot_vscale_r, (norm_1_dot _ unit_init).
  fold dot_prod; ring.
Qed.

(** Between two unit directions that are neither parallel nor
    antiparallel, the base built by [from_directions] is orthonormal. *)
Lemma from_directions_orthonormal :
  dot_prod <> -1 -> dot_prod < 1 ->
  orthonormal (vec_init, vdiv vec_perp (norm vec_perp)).
Proof.
  intros Hne Hlt.
  pose proof (dot_unit_lower vec_init vec_rot same_dimension
                (norm_1_dot _ unit_init) (norm_1_dot _ unit_rot)) as Hge.
  fold dot_prod in Hge.
  assert (Hpos : 0 < dot vec_perp vec_perp) by (rewrite vec_perp_dot_self; nra).
  assert (Hn : 0 < norm vec_perp) by (apply sqrt_lt_R0; assumption).
  assert (Hnn : norm vec_perp * norm vec_perp = dot vec_perp vec_perp)
    by (apply sqrt_sqrt; lra).
  unfold orthonormal; cbn [col0 col1 fst snd].
  rewrite vdiv_vscale, dot_vscale_l, !dot_vscale_r.
  rewrite (norm_1_dot _ unit_init), vec_perp_dot_init, <- Hnn.
  repeat split; [| ring].
  field; lra.
Qed.

End Invertibility.

(** C5: for the rotation [r] that [from_directions] builds from two unit
    directions of one dimension that are not antiparallel, and for every unit
    vector [x] of that dimension, [r.inverse_rotate(r.rotate(x))] is [x];
    and [inverse_rotate] is [rotate] with the rotation factor [-1]. *)
Theorem inverse_rotate_rotate (vec_init vec_rot x : Vector) :
  List.length vec_init = List.length vec_rot ->
  List.length x = List.length vec_init ->
  norm vec_init = 1 -> norm vec_rot = 1 -> norm x = 1 ->
  vec_rot <> vscale (-1) vec_init ->
  exists r,
    from_directions vec_init vec_rot = Ok r
    /\ inverse_rotate r (rotate r x 1) = x
    /\ (forall direction, inverse_rotate r direction = rotate r direction (-1)).
Proof.
  intros Hlen Hx Hi Hr Hux Hanti.
  assert (Hne : dot vec_init vec_rot <> -1).
  { intros Hd; apply Hanti, dot_opposite_iff; assumption. }
  rewrite from_directions_same_length by assumption; cbv zeta.
  destruct (Req_dec_T (dot vec_init vec_rot) (-1)) as [He|_]; [contradiction|].
  eexists; split; [reflexivity|].
  split; [| intros direction; reflexivity].
  unfold inverse_rotate, rotate; cbn [base rotation_angle].
  replace (1 * acos (dot vec_init vec_rot)) with (acos (dot vec_init vec_rot)) by ring.
  replace (-1 * acos (dot vec_init vec_rot)) with (- acos (dot vec_init vec_rot)) by ring.
  destruct (Rlt_dec (dot vec_init vec_rot) 1) as [Hlt|Hge].
  - apply rotate_direction_round_trip; try assumption.
    + congruence.
    + rewrite vdiv_length, vec_perp_length; congruence.
    + apply from_directions_orthonormal; assumption.
  - assert (Hz : acos (dot vec_init vec_rot) = 0).
    { unfold acos.
      destruct (Rle_dec (dot vec_init vec_rot) (-1)); [lra|].
      destruct (Rle_dec 1 (dot vec_init vec_rot)); [reflexivity | lra]. }
    rewrite Hz, Ropp_0.
    rewrite (rotate_direction_zero_angle x vec_init vec_rot) by congruence.
    apply rotate_direction_zero_angle; congruence.
Qed.

Lemma inverse_rotate_rotate_witness :
  exists r,
    from_directions [1; 0; 0] [0; 1; 0] = Ok r
    /\ inverse_rotate r (rotate r [0; 0; 1] 1) = [0; 0; 1]
    /\ (forall direction, inverse_rotate r direction = rotate r direction (-1)).
Proof.
  apply (inverse_rotate_rotate [1; 0; 0] [0; 1; 0] [0; 0; 1]);
    try reflexivity;
    try (apply dot_1_norm; cbn [dot]; lra).
  cbn [vscale map]; intros [= H _]; lra.
Defined.

(** ** [VectorRotationSequence] on the chain of [test_multi_rotation_array] *)

Section WeightedChain.

Lemma rotate_array_columns (directions : list Vector) (b : Base) (theta : R) :
  rotate_array directions b theta = map (fun d => rotate_direction d b theta) directions.
Proof.
  unfold rotate_array, rotate_direction.
  induction directions as [|d ds IH]; [reflexivity|].
  cbn [map map2 fst snd]; f_equal; exact IH.
Qed.

Ltac vec_eq := repeat (f_equal; try lra).

Lemma normalize_unit (v : Vector) : dot v v = 1 -> vdiv v (norm v) = v.
Proof. intros H; rewrite (dot_1_norm _ H); apply vdiv_1. Qed.

Ltac dot_value v :=
  repeat match goal with
         | |- context [dot ?a ?b] =>
             let H := fresh in
             assert (H : dot a b = v) by (cbn [dot]; lra); rewrite H; clear H
         end.

Ltac vec_is e v :=
  replace e with v by (cbn [vsub vscale vadd vdiv comb map map2]; vec_eq).

Lemma test_sequence_init : sequence_init test_vectors = Ok test_sequence.
Proof.
  unfold sequence_init, test_sequence, test_bases, test_vectors.
  cbn [map].
  rewrite !normalize_unit by (cbn [dot]; lra).
  cbn [tl removelast map2].
  dot_value 0.
  cbn [existsb]; unfold Req_bool.
  destruct (Req_dec_T 0 (-1)) as [H|_]; [exfalso; lra|].
  cbn [orb].
  vec_is (vsub [0; 1; 0] (vscale 0 [1; 0; 0])) [0; 1; 0].
  vec_is (vsub [0; 0; 1] (vscale 0 [0; 1; 0])) [0; 0; 1].
  vec_is (vsub [-1; 0; 0] (vscale 0 [0; 0; 1])) [-1; 0; 0].
  vec_is (vsub [0; -1; 0] (vscale 0 [-1; 0; 0])) [0; -1; 0].
  cbn [map].
  rewrite !normalize_unit by (cbn [dot]; lra).
  rewrite acos_0; reflexivity.
Qed.

Lemma isclose_refl (a : R) : isclose a a = true.
Proof.
  unfold isclose.
  destruct (Rle_dec (Rabs (a - a)) (1 / 10 ^ 9 * Rmax (Rabs a) (Rabs a))) as [_|H];
    [reflexivity|].
  exfalso; apply H.
  replace (a - a) with 0 by ring; rewrite Rabs_R0.
  unfold Rmax; destruct (Rle_dec (Rabs a) (Rabs a)); pose proof (Rabs_pos a); nra.
Qed.

Ltac unit_side := first [ reflexivity | apply dot_1_norm; cbn [dot]; lra ].

Ltac rebase_unfold :=
  unfold rebase_above, test_sequence;
  cbn [rotation_angles nth firstn skipn flatten_bases col0 col1 fst snd Nat.add];
  rewrite rotate_array_columns; cbn [map].

Lemma rebase_full_weights (ii : nat) :
  (ii < 3)%nat ->
  rebase_above test_sequence [1; 1; 1; 1] test_bases ii = test_bases.
Proof.
  intros H; unfold test_bases.
  destruct ii as [|[|[|ii]]]; [| | | lia]; rebase_unfold;
    replace (PI / 2 * (1 - 1)) with 0 by lra;
    rewrite !rotate_direction_zero_angle by unit_side;
    reflexivity.
Qed.

Ltac rot_step v :=
  match goal with
  | |- context [rotate_direction (?a :: ?r) (?b0, ?b1) ?t] =>
      replace (rotate_direction (a :: r) (b0, b1) t) with v
        by (rewrite rotate_direction_unit by unit_side;
            cbn [dot comb vadd vscale map map2];
            rewrite ?cos_PI2, ?sin_PI2; vec_eq)
  end.

Lemma test_sequence_rotate :
  sequence_rotate test_sequence [1; 0; 0] 1 = Ok ([0; -1; 0], []).
Proof.
  unfold sequence_rotate, n_rotations.
  change (basis_array test_sequence) with test_bases.
  cbn [test_bases List.length repeat set_last removelast app Py.bind].
  unfold rotate_weighted.
  replace (rev (cumsum (rev [0; 0; 0; 1]))) with [1; 1; 1; 1]
    by (cbn [rev cumsum cumsum_from app]; vec_eq).
  rewrite isclose_refl.
  unfold n_rotations.
  change (basis_array test_sequence) with test_bases.
  change (rotation_angles test_sequence) with [PI / 2; PI / 2; PI / 2; PI / 2].
  cbn [test_bases List.length Nat.eqb negb Nat.sub seq rev app fold_left map2].
  fold test_bases.
  rewrite !rebase_full_weights by lia.
  cbn [test_bases combine fold_left fst snd].
  replace (PI / 2 * 1) with (PI / 2) by lra.
  rot_step [0; 1; 0].
  rot_step [0; 0; 1].
  rot_step [-1; 0; 0].
  rot_step [0; -1; 0].
  reflexivity.
Qed.

Lemma inv_sqrt2_sq : 1 / sqrt 2 * (1 / sqrt 2) = 1 / 2.
Proof.
  assert (0 < sqrt 2) by (apply sqrt_lt_R0; lra).
  replace (1 / sqrt 2 * (1 / sqrt 2)) with (1 / (sqrt 2 * sqrt 2)) by (field; lra).
  rewrite sqrt_sqrt by lra; reflexivity.
Qed.

Ltac unit_side2 :=
  first [ reflexivity
        | apply dot_1_norm; cbn [dot]; pose proof inv_sqrt2_sq; nra ].

Ltac rot_step2 v :=
  match goal with
  | |- context [rotate_direction (?a :: ?r) (?b0, ?b1) ?t] =>
      replace (rotate_direction (a :: r) (b0, b1) t) with v
        by (rewrite rotate_direction_unit by unit_side2;
            cbn [dot comb vadd vscale map map2];
            rewrite ?cos_PI2, ?sin_PI2, ?cos_PI4, ?sin_PI4; vec_eq)
  end.

Ltac rot_zero :=
  match goal with
  | |- context [rotate_direction (?a :: ?r) ?b 0] =>
      replace (rotate_direction (a :: r) b 0) with (a :: r)
        by (symmetry; apply rotate_direction_zero_angle; unit_side2)
  end.

Lemma rebase_half_2 :
  rebase_above test_sequence [1; 1 / 2; 0; 0] test_bases 2 = half_bases_2.
Proof.
  unfold test_bases; rebase_unfold.
  replace (PI / 2 * (1 - 0)) with (PI / 2) by lra.
  rot_step2 [0; 0; -1].
  rot_step2 [0; -1; 0].
  reflexivity.
Qed.

Lemma rebase_half_1 :
  rebase_above test_sequence [1; 1 / 2; 0; 0] half_bases_2 1 = half_bases_1.
Proof.
  unfold half_bases_2; rebase_unfold.
  replace (PI / 2 * (1 - 1 / 2)) with (PI / 4) by lra.
  rot_step2 [0; - (1 / sqrt 2); 1 / sqrt 2].
  rot_step2 [-1; 0; 0].
  rot_step2 [0; 1 / sqrt 2; - (1 / sqrt 2)].
  rot_step2 [0; - (1 / sqrt 2); - (1 / sqrt 2)].
  reflexivity.
Qed.

Lemma rebase_half_0 :
  rebase_above test_sequence [1; 1 / 2; 0; 0] half_bases_1 0 = half_bases_1.
Proof.
  unfold half_bases_1; rebase_unfold.
  replace (PI / 2 * (1 - 1)) with 0 by lra.
  rewrite !rotate_direction_zero_angle by unit_side2.
  reflexivity.
Qed.

Lemma test_sequence_rotate_weighted :
  rotate_weighted test_sequence [1; 0; 0] [1 / 2; 1 / 2; 0; 0] =
  Ok (vdiv [0; 1; 1] (sqrt 2), []).
Proof.
  unfold rotate_weighted.
  replace (rev (cumsum (rev [1 / 2; 1 / 2; 0; 0]))) with [1; 1 / 2; 0; 0]
    by (cbn [rev cumsum cumsum_from app]; vec_eq).
  rewrite isclose_refl.
  unfold n_rotations.
  change (basis_array test_sequence) with test_bases.
  change (rotation_angles test_sequence) with [PI / 2; PI / 2; PI / 2; PI / 2].
  cbn [test_bases List.length Nat.eqb negb Nat.sub seq rev app fold_left map2].
  fold test_bases.
  rewrite rebase_half_2, rebase_half_1, rebase_half_0.
  cbn [half_bases_1 combine fold_left fst snd].
  replace (PI / 2 * 1) with (PI / 2) by lra.
  replace (PI / 2 * (1 / 2)) with (PI / 4) by lra.
  replace (PI / 2 * 0) with 0 by lra.
  rot_step2 [0; 1; 0].
  rot_step2 [0; 1 / sqrt 2; 1 / sqrt 2].
  rot_zero. rot_zero.
  cbn [vdiv map]; vec_eq.
Qed.

(** C2: for the sequence built from the five unit directions [[1,0,0]],
    [[0,1,0]], [[0,0,1]], [[-1,0,0]], [[0,-1,0]], [rotate] of [[1,0,0]]
    returns [[0,-1,0]], and [rotate_weighted] of [[1,0,0]] with the weights
    [[0.5, 0.5, 0, 0]] returns [[0,1,1] / sqrt(2)]; neither call warns. *)
Theorem sequence_rotate_interpolation :
  exists sequence,
    sequence_init test_vectors = Ok sequence
    /\ sequence_rotate sequence [1; 0; 0] 1 = Ok ([0; -1; 0], [])
    /\ rotate_weighted sequence [1; 0; 0] [1 / 2; 1 / 2; 0; 0] =
       Ok (vdiv [0; 1; 1] (sqrt 2), []).
Proof.
  exists test_sequence; split; [exact test_sequence_init|].
  split; [exact test_sequence_rotate | exact test_sequence_rotate_weighted].
Qed.

End WeightedChain.

(** ** [VectorRotationTree] *)

Section RotationTree.

Lemma from_directions_ok (vec_init vec_rot : Vector) :
  List.length vec_init = List.length vec_rot ->
  dot vec_init vec_rot <> -1 ->
  from_directions vec_init vec_rot = Ok (built_rotation vec_init vec_rot).
Proof.
  intros Hl Hd; rewrite from_directions_same_length by assumption; cbv zeta.
  destruct (Req_dec_T (dot vec_init vec_rot) (-1)); [contradiction | reflexivity].
Qed.

Lemma add_node_within_limit (self : DiGraph) (node_id parent_id : NodeType)
      (direction : Vector) (rotation_limit : R) (parent : NodeData)
      (r : VectorRotationXd) :
  get_node self parent_id = Ok parent ->
  from_directions (Rotation.direction parent) direction = Ok r ->
  Rabs (rotation_angle r) <= rotation_limit ->
  add_node self node_id direction parent_id rotation_limit =
  Ok (graph_add_edge
        (graph_add_node self node_id
           {| level := level parent + 1;
              direction := direction;
              weight := 0;
              orientation := new_object r |})
        parent_id node_id, []).
Proof.
  intros Hp Hr Hle.
  unfold add_node; rewrite Hp; cbn [Py.bind]; rewrite Hr; cbn [Py.bind].
  unfold Rgt_bool; cbn [new_object fields].
  destruct (Rlt_dec rotation_limit (Rabs (rotation_angle r))); [lra|].
  rewrite andb_false_r; reflexivity.
Qed.

Lemma acos_above_limit : PI * (3 / 4) < acos (-4 / 5).
Proof.
  destruct (Rlt_dec (PI * (3 / 4)) (acos (-4 / 5))) as [H|H]; [exact H|].
  exfalso.
  pose proof (acos_bound (-4 / 5)) as [Hlo Hhi].
  pose proof PI_RGT_0 as Hpi.
  assert (Hcos : cos (3 * (PI / 4)) <= cos (acos (-4 / 5))).
  { apply cos_decr_1; lra. }
  rewrite cos_acos, cos_3PI4 in Hcos by lra.
  pose proof inv_sqrt2_sq as Hs.
  assert (0 < sqrt 2) by (apply sqrt_lt_R0; lra).
  assert (0 < 1 / sqrt 2) by (apply Rdiv_lt_0_compat; lra).
  replace (-1 / sqrt 2) with (- (1 / sqrt 2)) in Hcos by (field; lra).
  nra.
Qed.

(** C3: a call of [add_node] in which the rotation angle from the
    parent's direction exceeds a (non-zero) [rotation_limit] stores no node
    and emits no warning: it raises [AttributeError], as the clipping branch
    reads the attribute [basis], which a [VectorRotationXd] does not
    have. *)
Theorem add_node_over_limit_raises (self : DiGraph) (node_id parent_id : NodeType)
      (direction : Vector) (rotation_limit : R) (parent : NodeData)
      (r : VectorRotationXd) :
  get_node self parent_id = Ok parent ->
  from_directions (Rotation.direction parent) direction = Ok r ->
  rotation_limit <> 0 ->
  rotation_limit < Rabs (rotation_angle r) ->
  add_node self node_id direction parent_id rotation_limit =
  Raise (AttributeError "basis").
Proof.
  intros Hp Hr Hnz Hgt.
  unfold add_node; rewrite Hp; cbn [Py.bind]; rewrite Hr; cbn [Py.bind].
  unfold truthy, Req_bool, Rgt_bool; cbn [new_object fields].
  destruct (Req_dec_T rotation_limit 0); [contradiction|].
  destruct (Rlt_dec rotation_limit (Rabs (rotation_angle r))); [| contradiction].
  reflexivity.
Qed.

Lemma add_node_over_limit_raises_witness :
  add_node (tree_init 0%Z [0; 1]) 1%Z [3 / 5; -4 / 5] 0%Z default_rotation_limit =
  Raise (AttributeError "basis").
Proof.
  pose proof PI_RGT_0 as Hpi; unfold default_rotation_limit.
  eapply add_node_over_limit_raises.
  - reflexivity.
  - apply from_directions_ok; [reflexivity | cbn [Rotation.direction dot]; lra].
  - lra.
  - cbn [built_rotation rotation_angle Rotation.direction dot].
    replace (0 * (3 / 5) + (1 * (-4 / 5) + 0)) with (-4 / 5) by lra.
    pose proof acos_above_limit as Ha.
    rewrite Rabs_right; lra.
Defined.

Lemma acos_within_limit (x : R) :
  0 <= x -> Rabs (acos x) <= default_rotation_limit.
Proof.
  intros Hx; unfold default_rotation_limit.
  pose proof PI_RGT_0 as Hpi.
  pose proof (acos_bound x) as [Hlo Hhi].
  rewrite Rabs_right by lra.
  unfold acos.
  destruct (Rle_dec x (-1)); [lra|].
  destruct (Rle_dec 1 x); [lra|].
  assert (0 <= atan (x / sqrt (1 - x²))).
  { rewrite <- atan_0.
    destruct (Req_dec (x / sqrt (1 - x²)) 0) as [->|Hne]; [lra|].
    left; apply atan_increasing.
    assert (0 < sqrt (1 - x²)) by (apply sqrt_lt_R0; unfold Rsqr; nra).
    assert (0 <= x / sqrt (1 - x²)).
    { apply Rmult_le_pos; [lra | left; apply Rinv_0_lt_compat; lra]. }
    lra. }
  lra.
Qed.

Ltac add_step :=
  erewrite add_node_within_limit;
  [ cbn [Py.bind]
  | reflexivity
  | apply from_directions_ok; [reflexivity | cbn [Rotation.direction dot]; lra]
  | cbn [built_rotation rotation_angle Rotation.direction dot];
    apply acos_within_limit; lra ].

Lemma build_test_tree_ok : build_test_tree = Ok (test_tree, []).
Proof.
  unfold build_test_tree; cbv zeta.
  add_step. add_step. add_step. add_step.
  reflexivity.
Qed.

Ltac run :=
  cbv - [Rplus Rminus Rmult Rdiv Rinv Ropp IZR built_rotation new_object].

Lemma lookup_update_other {A : Type} (key key' : NodeType) (f : A -> A)
      (d : list (NodeType * A)) :
  key <> key' -> lookup key (update key' f d) = lookup key d.
Proof.
  intros Hne; induction d as [|[k v] d IH]; cbn [update lookup]; [reflexivity|].
  destruct (k =? key')%Z eqn:Hk'; cbn [lookup].
  - apply Z.eqb_eq in Hk'; subst k.
    destruct (key' =? key)%Z eqn:Hk; [apply Z.eqb_eq in Hk; congruence | reflexivity].
  - rewrite IH; reflexivity.
Qed.

Lemma add_weight_to_successor_succ (node_id succ_id : NodeType) (graph : DiGraph) :
  succ (add_weight_to_successor node_id graph succ_id) = succ graph.
Proof. unfold add_weight_to_successor; destruct (lookup _ _); reflexivity. Qed.

Lemma add_weight_to_successor_other (node_id succ_id node : NodeType) (graph : DiGraph) :
  node <> succ_id ->
  weight_of (add_weight_to_successor node_id graph succ_id) node = weight_of graph node.
Proof.
  intros Hne; unfold add_weight_to_successor, weight_of.
  destruct (lookup node_id (nodes graph)); [| reflexivity].
  cbn [nodes]; rewrite lookup_update_other by exact Hne; reflexivity.
Qed.

Lemma add_weights_to_successors (node_id node : NodeType) (l : list NodeType)
      (graph : DiGraph) :
  ~ In node l ->
  let graph' := fold_left (add_weight_to_successor node_id) l graph in
  succ graph' = succ graph /\ weight_of graph' node = weight_of graph node.
Proof.
  revert graph; induction l as [|s l IH]; intros graph Hnin; cbn [fold_left];
    [split; reflexivity|].
  destruct (IH (add_weight_to_successor node_id graph s)) as [Hs Hw].
  { intros Hin; apply Hnin; right; exact Hin. }
  cbv zeta in *; rewrite Hs, Hw, add_weight_to_successor_succ.
  split; [reflexivity|].
  apply add_weight_to_successor_other.
  intros ->; apply Hnin; left; reflexivity.
Qed.

(** The propagation pass never touches a node that is nobody's successor:
    the root keeps the weight it was assigned, whatever the weights of its
    descendants. *)
Lemma update_cumulated_weights_root (graph : DiGraph) (sorted_list : list NodeType)
      (root : NodeType) :
  (forall node_id, ~ In root (successors graph node_id)) ->
  weight_of (update_cumulated_weights graph sorted_list) root = weight_of graph root.
Proof.
  unfold update_cumulated_weights.
  revert graph; induction sorted_list as [|n l IH]; intros graph Hroot;
    cbn [fold_left]; [reflexivity|].
  destruct (add_weights_to_successors n root (successors graph n) graph (Hroot n))
    as [Hs Hw]; cbv zeta in *.
  rewrite IH, Hw; [reflexivity|].
  intros node_id; unfold successors at 1; rewrite Hs; apply (Hroot node_id).
Qed.

Lemma test_tree_weights :
  exists graph,
    get_weighted_mean_weights test_tree [0; 2; 4]%Z [3 / 10; 3 / 10; 3 / 10] = Ok graph
    /\ weight_of graph 0%Z = 3 / 10
    /\ weight_of graph 1%Z = 3 / 10
    /\ weight_of graph 2%Z = 6 / 10
    /\ weight_of graph 3%Z = 3 / 10
    /\ weight_of graph 4%Z = 6 / 10.
Proof.
  eexists; split; [run; reflexivity|].
  run.
  repeat split; lra.
Qed.

(** C1: on the tree and the call of [test_rotation_tree], the weights left
    by the propagation pass are [0.3] at the root [0] and [0.6] at the leaf
    [2], as the pass adds the weight of every node to its successors.  The
    weight of a node plus the weights of its descendants is [0.9] at the
    root and [0.3] at the leaf. *)
Theorem get_weighted_mean_weights_test_tree :
  exists tree graph,
    build_test_tree = Ok (tree, [])
    /\ get_weighted_mean_weights tree [0; 2; 4]%Z [3 / 10; 3 / 10; 3 / 10] = Ok graph
    /\ get_all_childs_children 5 tree 0%Z = Some [1; 3; 2; 4]%Z
    /\ weight_of graph 0%Z = 3 / 10
    /\ weight_with_descendants [0; 2; 4]%Z [3 / 10; 3 / 10; 3 / 10] 0%Z [1; 3; 2; 4]%Z
       = 9 / 10
    /\ get_all_childs_children 5 tree 2%Z = Some []
    /\ weight_of graph 2%Z = 6 / 10
    /\ weight_with_descendants [0; 2; 4]%Z [3 / 10; 3 / 10; 3 / 10] 2%Z [] = 3 / 10.
Proof.
  destruct test_tree_weights as (graph & Hg & H0 & _ & H2 & _).
  exists test_tree, graph.
  split; [exact build_test_tree_ok|].
  split; [exact Hg|].
  split; [reflexivity|].
  split; [exact H0|].
  split; [run; lra|].
  split; [reflexivity|].
  split; [exact H2|].
  run; lra.
Qed.

End RotationTree.

(** ** [MultiBoundaryContainer.check_collision] and [append] *)

Section Collision.

Variable position : Vector.

Lemma Rlt_bool_true (a b : R) : Rlt_bool a b = true <-> a < b.
Proof. unfold Rlt_bool; destruct (Rlt_dec a b); split; intros; try discriminate; tauto. Qed.

Lemma Rle_bool_true (a b : R) : Rle_bool a b = true <-> a <= b.
Proof. unfold Rle_bool; destruct (Rle_dec a b); split; intros; try discriminate; tauto. Qed.

Lemma forallb_le_1 (gammas : list R) :
  forallb (fun gamma => Rle_bool gamma 1) gammas = true
  <-> (forall gamma, In gamma gammas -> gamma <= 1).
Proof.
  rewrite forallb_forall; split; intros H gamma Hin.
  - apply Rle_bool_true, H, Hin.
  - apply Rle_bool_true, H, Hin.
Qed.

(** The loop invariant: the gammas gathered so far are those of the
    boundaries already visited. *)
Lemma check_collision_loop_spec (obstacles : list Obstacle) (gammas : list R) :
  check_collision_loop obstacles position gammas = true
  <-> (exists obstacle, In obstacle obstacles /\ hits position obstacle)
      \/ ((forall gamma, In gamma gammas -> gamma <= 1) /\ walls_closed position obstacles).
Proof.
  revert gammas; induction obstacles as [|o obstacles IH]; intros gammas.
  - cbn [check_collision_loop]; rewrite forallb_le_1; split.
    + intros H; right; split; [exact H | intros o' []].
    + intros [[o' [[] _]] | [H _]]; exact H.
  - cbn [check_collision_loop].
    destruct (is_boundary o) eqn:Hb.
    + rewrite IH; split.
      * intros [[o' [Hin Hh]] | [Hg Hw]].
        -- left; exists o'; split; [right; exact Hin | exact Hh].
        -- right; split.
           ++ intros gamma Hin; apply Hg, in_or_app; left; exact Hin.
           ++ intros o' [<-|Hin] Hb'.
              ** apply Hg, in_or_app; right; left; reflexivity.
              ** apply Hw; assumption.
      * intros [[o' [[<-|Hin] Hh]] | [Hg Hw]].
        -- destruct Hh as [Hh _]; congruence.
        -- left; exists o'; split; assumption.
        -- right; split.
           ++ intros gamma Hin; apply in_app_or in Hin as [Hin|[<-|[]]].
              ** apply Hg, Hin.
              ** apply Hw; [left; reflexivity | exact Hb].
           ++ intros o' Hin Hb'; apply Hw; [right; exact Hin | exact Hb'].
    + destruct (Rlt_bool (get_gamma o position) 1) eqn:Hlt.
      * split; [intros _ | reflexivity].
        left; exists o; split; [left; reflexivity|].
        split; [exact Hb | apply Rlt_bool_true, Hlt].
      * rewrite IH; split.
        -- intros [[o' [Hin Hh]] | [Hg Hw]].
           ++ left; exists o'; split; [right; exact Hin | exact Hh].
           ++ right; split; [exact Hg|].
              intros o' [<-|Hin] Hb'; [congruence | apply Hw; assumption].
        -- intros [[o' [[<-|Hin] Hh]] | [Hg Hw]].
           ++ destruct Hh as [_ Hh]; apply Rlt_bool_true in Hh; congruence.
           ++ left; exists o'; split; assumption.
           ++ right; split; [exact Hg|].
              intros o' Hin Hb'; apply Hw; [right; exact Hin | exact Hb'].
Qed.

End Collision.

Lemma check_collision_spec (self : Container) (position : Vector) :
  check_collision self position = true
  <-> (exists obstacle, In obstacle (obstacle_list self) /\ hits position obstacle)
      \/ walls_closed position (obstacle_list self).
Proof.
  unfold check_collision; rewrite check_collision_loop_spec; split.
  - intros [H | [_ H]]; [left | right]; exact H.
  - intros [H | H]; [left; exact H | right; split; [intros gamma [] | exact H]].
Qed.

(** C4: [check_collision(position)] is [True] exactly when some
    non-boundary obstacle has [gamma < 1] or every boundary obstacle has
    [gamma <= 1]; so a position with [gamma > 1] for some boundary and
    [gamma >= 1] for every non-boundary obstacle is not colliding. *)
Theorem check_collision_iff (self : Container) (position : Vector) :
  (check_collision self position = true
   <-> (exists obstacle, In obstacle (obstacle_list self)
                         /\ is_boundary obstacle = false
                         /\ get_gamma obstacle position < 1)
       \/ (forall obstacle, In obstacle (obstacle_list self) ->
                            is_boundary obstacle = true ->
                            get_gamma obstacle position <= 1))
  /\ ((exists obstacle, In obstacle (obstacle_list self)
                        /\ is_boundary obstacle = true
                        /\ 1 < get_gamma obstacle position) ->
      (forall obstacle, In obstacle (obstacle_list self) ->
                        is_boundary obstacle = false ->
                        1 <= get_gamma obstacle position) ->
      check_collision self position = false).
Proof.
  pose proof (check_collision_spec self position) as Hiff.
  split; [exact Hiff|].
  intros (wall & Hin & Hb & Hgt) Hfree.
  destruct (check_collision self position) eqn:Hc; [exfalso | reflexivity].
  destruct Hiff as [Hiff _]; destruct (Hiff eq_refl) as [(o & Ho & Hbo & Hlt) | Hw].
  - specialize (Hfree o Ho Hbo); lra.
  - specialize (Hw wall Hin Hb); lra.
Qed.

Lemma check_collision_iff_witness :
  check_collision
    (container_of [constant_obstacle true (1 / 2); constant_obstacle true 2;
                   constant_obstacle false (3 / 2)])
    [0; 0] = false.
Proof.
  apply check_collision_iff.
  - exists (constant_obstacle true 2); split; [right; left; reflexivity|].
    split; [reflexivity | cbn [get_gamma constant_obstacle]; lra].
  - intros o [<-|[<-|[<-|[]]]] Hb; try discriminate Hb.
    cbn [get_gamma constant_obstacle]; lra.
Defined.

(** C10: in a container without boundary obstacles, [check_collision] is
    [True] at every position that is inside no obstacle ([gamma >= 1] for
    all of them); in particular the empty container reports a collision
    everywhere. *)
Theorem check_collision_without_boundary (self : Container) (position : Vector) :
  ((forall obstacle, In obstacle (obstacle_list self) -> is_boundary obstacle = false) ->
   (forall obstacle, In obstacle (obstacle_list self) ->
                     1 <= get_gamma obstacle position) ->
   check_collision self position = true)
  /\ check_collision empty position = true.
Proof.
  split; [| reflexivity].
  intros Hnb _; apply check_collision_spec; right.
  intros o Hin Hb; rewrite (Hnb o Hin) in Hb; discriminate.
Qed.

Lemma check_collision_without_boundary_witness :
  check_collision (container_of [constant_obstacle false 2; constant_obstacle false 3])
                  [0; 0] = true.
Proof.
  apply check_collision_without_boundary.
  - intros o [<-|[<-|[]]]; reflexivity.
  - intros o [<-|[<-|[]]]; cbn [get_gamma constant_obstacle]; lra.
Defined.

Section Append.

Lemma index_in_range (len : nat) (i : Z) :
  (0 <= i < Z.of_nat len)%Z -> Py.index len i = Ok (Z.to_nat i).
Proof.
  intros [Hlo Hhi]; unfold Py.index.
  apply Z.leb_le in Hlo; apply Z.ltb_lt in Hhi; rewrite Hlo, Hhi; reflexivity.
Qed.

Lemma update_nth_app_l {A : Type} (k : nat) (f : A -> A) (l l' : list A) :
  (k < List.length l)%nat -> update_nth k f (l ++ l') = update_nth k f l ++ l'.
Proof.
  revert k; induction l as [|x l IH]; intros k Hk; cbn [List.length] in Hk; [lia|].
  destruct k as [|k]; cbn [app update_nth]; [reflexivity|].
  rewrite IH by lia; reflexivity.
Qed.

Lemma update_nth_last {A : Type} (f : A -> A) (l : list A) (x : A) :
  update_nth (List.length l) f (l ++ [x]) = l ++ [f x].
Proof.
  induction l as [|y l IH]; cbn [List.length app update_nth]; [reflexivity|].
  rewrite IH; reflexivity.
Qed.

Lemma update_nth_length {A : Type} (k : nat) (f : A -> A) (l : list A) :
  List.length (update_nth k f l) = List.length l.
Proof.
  revert k; induction l as [|x l IH]; intros [|k]; cbn [update_nth List.length];
    try reflexivity.
  rewrite IH; reflexivity.
Qed.

Lemma nth_update_nth {A : Type} (k : nat) (f : A -> A) (l : list A) (d : A) :
  (k < List.length l)%nat -> nth k (update_nth k f l) d = f (nth k l d).
Proof.
  revert k; induction l as [|x l IH]; intros k Hk; cbn [List.length] in Hk; [lia|].
  destruct k as [|k]; cbn [nth update_nth]; [reflexivity | apply IH; lia].
Qed.

Variable self : Container.
Variable value : Obstacle.
Hypothesis self_well_formed : well_formed self.

Let n : Z := (Z.of_nat (n_obstacles self) + 1)%Z.

Lemma append_root :
  append self value None =
  Ok {| obstacle_list := obstacle_list self ++ [value];
        parent_array := parent_array self ++ [(-1)%Z];
        children_list := children_list self ++ [[]];
        parent_intersection_point := parent_intersection_point self ++ [None] |}.
Proof. reflexivity. Qed.

Lemma append_child :
  (1 <= n_obstacles self)%nat ->
  append self value (Some (-1)%Z) =
  Ok {| obstacle_list := obstacle_list self ++ [value];
        parent_array := parent_array self ++ [(n - 2)%Z];
        children_list :=
          update_nth (n_obstacles self - 1) (fun l => l ++ [(n - 1)%Z])
                     (children_list self) ++ [[]];
        parent_intersection_point := parent_intersection_point self ++ [None] |}.
Proof.
  intros Hn; destruct self_well_formed as [Hp Hc].
  unfold append, extend_graph, set_parent, add_children, n_obstacles in *.
  cbn [Z.eqb Pos.eqb obstacle_list parent_array children_list
       parent_intersection_point].
  rewrite !length_app; cbn [List.length].
  rewrite index_in_range by lia; cbn [Py.bind parent_array children_list
                                      obstacle_list parent_intersection_point].
  rewrite length_app; cbn [List.length].
  rewrite index_in_range by lia; cbn [Py.bind].
  replace (Z.to_nat (Z.of_nat (List.length (obstacle_list self) + 1) - 1))
    with (List.length (parent_array self)) by lia.
  replace (Z.to_nat (Z.of_nat (List.length (obstacle_list self) + 1) - 2))
    with (List.length (obstacle_list self) - 1)%nat by lia.
  rewrite update_nth_last, update_nth_app_l by lia.
  unfold n, n_obstacles; rewrite Nat2Z.inj_add; reflexivity.
Qed.

End Append.

Lemma empty_well_formed : well_formed empty.
Proof. split; reflexivity. Qed.

(** [append] keeps the three arrays as long as the list of obstacles. *)
Lemma append_well_formed (self updated : Container) (value : Obstacle)
      (parent : option Z) :
  well_formed self -> append self value parent = Ok updated -> well_formed updated.
Proof.
  intros Hwf.
  assert (Hroot : forall c, append self value None = Ok c -> well_formed c).
  { destruct Hwf as [Hp Hc]; unfold n_obstacles in *.
    intros c [= <-]; unfold well_formed, n_obstacles.
    cbn [obstacle_list parent_array children_list].
    rewrite !length_app, Hp, Hc; split; reflexivity. }
  destruct parent as [p|]; [| apply Hroot].
  destruct (Z.eq_dec p (-1)) as [->|Hne].
  - destruct (Nat.eq_dec (n_obstacles self) 0) as [Hz|Hnz].
    + destruct Hwf as [Hp Hc]; rewrite Hz in Hp, Hc.
      apply length_zero_iff_nil in Hp, Hc.
      unfold append, extend_graph, set_parent, add_children, n_obstacles in *.
      apply length_zero_iff_nil in Hz.
      rewrite Hz, Hp, Hc; cbn; intros [= <-]; split; reflexivity.
    + rewrite append_child by (assumption || lia).
      destruct Hwf as [Hp Hc]; unfold n_obstacles in *.
      intros [= <-]; unfold well_formed, n_obstacles.
      cbn [obstacle_list parent_array children_list].
      rewrite !length_app, update_nth_length, Hp, Hc; split; reflexivity.
  - unfold append; apply Z.eqb_neq in Hne; rewrite Hne; apply Hroot.
Qed.

(** C9: on a container that holds at least one obstacle, [append(value,
    parent=-1)] makes the new obstacle, of index [n - 1], a child of the one
    appended before it, of index [n - 2]; [append(value)] leaves the new
    obstacle a root, with no link added. *)
Theorem append_links_previous (self : Container) (value : Obstacle) :
  well_formed self -> (1 <= n_obstacles self)%nat ->
  let n := (n_obstacles self + 1)%nat in
  (exists updated,
      append self value (Some (-1)%Z) = Ok updated
      /\ n_obstacles updated = n
      /\ nth (n - 1) (parent_array updated) 0%Z = (Z.of_nat n - 2)%Z
      /\ nth (n - 2) (children_list updated) [] =
         nth (n - 2) (children_list self) [] ++ [(Z.of_nat n - 1)%Z]
      /\ parent_array updated = parent_array self ++ [(Z.of_nat n - 2)%Z]
      /\ children_list updated =
         update_nth (n - 2) (fun l => l ++ [(Z.of_nat n - 1)%Z]) (children_list self)
         ++ [[]])
  /\ (exists updated,
         append self value None = Ok updated
         /\ n_obstacles updated = n
         /\ nth (n - 1) (parent_array updated) 0%Z = (-1)%Z
         /\ nth (n - 1) (children_list updated) [0%Z] = []
         /\ parent_array updated = parent_array self ++ [(-1)%Z]
         /\ children_list updated = children_list self ++ [[]]).
Proof.
  intros Hwf Hn n; pose proof Hwf as [Hp Hc]; unfold n_obstacles in *.
  assert (Hn1 : (n - 1 = List.length (obstacle_list self))%nat) by (unfold n; lia).
  assert (Hn2 : (n - 2 = List.length (obstacle_list self) - 1)%nat) by (unfold n; lia).
  split.
  - eexists; split; [apply append_child; assumption|].
    unfold n_obstacles; cbn [obstacle_list parent_array children_list].
    rewrite Hn1, Hn2.
    replace (Z.of_nat (List.length (obstacle_list self)) + 1 - 2)%Z
      with (Z.of_nat n - 2)%Z by (unfold n; lia).
    replace (Z.of_nat (List.length (obstacle_list self)) + 1 - 1)%Z
      with (Z.of_nat n - 1)%Z by (unfold n; lia).
    repeat split.
    + rewrite length_app; reflexivity.
    + rewrite <- Hp, nth_middle; reflexivity.
    + rewrite app_nth1 by (rewrite update_nth_length; lia).
      rewrite nth_update_nth by lia; reflexivity.
  - eexists; split; [apply append_root|].
    unfold n_obstacles; cbn [obstacle_list parent_array children_list].
    rewrite Hn1; repeat split.
    + rewrite length_app; reflexivity.
    + rewrite <- Hp, nth_middle; reflexivity.
    + rewrite <- Hc, nth_middle; reflexivity.
Qed.

Lemma append_links_previous_witness :
  exists updated,
    append (container_of [constant_obstacle true 2]) (constant_obstacle true 2)
           (Some (-1)%Z) = Ok updated
    /\ parent_array updated = [-1; 0]%Z
    /\ children_list updated = [[1%Z]; []].
Proof.
  destruct (append_links_previous (container_of [constant_obstacle true 2])
                                  (constant_obstacle true 2))
    as [(updated & Ha & _ & _ & _ & Hp & Hc) _].
  - split; reflexivity.
  - cbn; lia.
  - exists updated; split; [exact Ha | split; [exact Hp | exact Hc]].
Defined.

(** ** [MultiBoundaryContainer.update_relative_reference_point] *)

Section ReferencePoint.

Lemma Rlt_bool_false (a b : R) : Rlt_bool a b = false <-> b <= a.
Proof.
  unfold Rlt_bool; destruct (Rlt_dec a b); split; intros; try discriminate; lra.
Qed.

(** With the position closer to the centre than the surface point, and a
    neighbour whose gamma at the surface point is at least [1], the blend
    weight is in [[0, 1)]. *)
Lemma blend_weight_bounds (dist_point dist_boundary_point gamma_boundary_point : R) :
  0 <= dist_point < dist_boundary_point -> 1 <= gamma_boundary_point ->
  0 <= blend_weight dist_point dist_boundary_point gamma_boundary_point < 1.
Proof.
  intros [Hp Hlt] Hg; unfold blend_weight; cbv zeta.
  set (t := dist_point / (dist_boundary_point - dist_point) * (gamma_boundary_point - 1)).
  assert (Ht : 0 <= t).
  { unfold t; apply Rmult_le_pos; [| lra].
    apply Rmult_le_pos; [lra | left; apply Rinv_0_lt_compat; lra]. }
  assert (Hi : 0 < / (1 + t) <= 1).
  { split; [apply Rinv_0_lt_compat; lra|].
    rewrite <- Rinv_1 at 2; apply Rinv_le_contravar; lra. }
  unfold Rdiv; lra.
Qed.

Variable self : Container.
Variable position : Vector.
Variable gamma_margin_close_wall : R.

Lemma norm_nonneg (v : Vector) : 0 <= norm v.
Proof. apply sqrt_pos. Qed.

Lemma blend_weights_bounds (ii_self : nat) (obstacle : Obstacle) :
  dist_point position obstacle < dist_boundary_point position obstacle ->
  Forall (fun w => 0 <= w < 1)
         (blend_weights self position gamma_margin_close_wall ii_self obstacle).
Proof.
  intros Hd; unfold blend_weights; cbv zeta.
  apply Forall_map, Forall_forall; intros other _.
  destruct (ii_self =? fst other)%nat; [lra|].
  destruct (Rlt_bool _ 1) eqn:Hg; [lra|].
  apply Rlt_bool_false in Hg.
  apply blend_weight_bounds; [| exact Hg].
  split; [apply norm_nonneg | exact Hd].
Qed.

Lemma fold_left_Rmax_ge (l : list R) (x : R) : x <= fold_left Rmax l x.
Proof.
  revert x; induction l as [|y l IH]; intros x; cbn [fold_left]; [lra|].
  eapply Rle_trans; [apply Rmax_l | apply IH].
Qed.

Lemma fold_left_Rmax_upper (l : list R) (x : R) :
  forall y, In y l -> y <= fold_left Rmax l x.
Proof.
  revert x; induction l as [|z l IH]; intros x y []; cbn [fold_left].
  - subst z; eapply Rle_trans; [apply Rmax_r | apply fold_left_Rmax_ge].
  - apply IH; assumption.
Qed.

Lemma np_max_upper (a : list R) (m : R) :
  np_max a = Ok m -> forall y, In y a -> y <= m.
Proof.
  destruct a as [|x a]; cbn [np_max]; [discriminate|].
  intros [= <-] y [<-|Hin];
    [apply fold_left_Rmax_ge | apply fold_left_Rmax_upper; assumption].
Qed.

Lemma np_max_nonempty (a : list R) :
  a <> [] -> exists m, np_max a = Ok m.
Proof. destruct a; [congruence | eexists; reflexivity]. Qed.

Lemma update_inside_raises (ii_self : nat) (obstacle : Obstacle) (w : R) :
  np_max (blend_weights self position gamma_margin_close_wall ii_self obstacle) = Ok w ->
  1 < w ->
  update_inside self position gamma_margin_close_wall ii_self obstacle =
  Raise weight_error.
Proof.
  intros Hmax Hw; unfold update_inside; cbv zeta; rewrite Hmax; cbn [Py.bind].
  apply Rlt_bool_true in Hw; rewrite Hw; reflexivity.
Qed.


Lemma fold_left_Rmax_In (l : list R) (x : R) : In (fold_left Rmax l x) (x :: l).
Proof.
  revert x; induction l as [|y l IH]; intros x; cbn [fold_left]; [left; reflexivity|].
  destruct (IH (Rmax x y)) as [H|H]; [| right; right; exact H].
  rewrite <- H; unfold Rmax; destruct (Rle_dec x y); [right; left | left]; reflexivity.
Qed.

Lemma np_max_In (a : list R) (m : R) : np_max a = Ok m -> In m a.
Proof.
  destruct a as [|x a]; cbn [np_max]; [discriminate|].
  intros [= <-]; apply fold_left_Rmax_In.
Qed.

(** For an obstacle with the position nearer to its centre than its
    surface point, a round of the outer loop that returns has blended the
    reference point with a weight in [[0, 1)]. *)
Lemma update_inside_enclosed (ii_self : nat) (obstacle updated : Obstacle) :
  dist_point position obstacle < dist_boundary_point position obstacle ->
  update_inside self position gamma_margin_close_wall ii_self obstacle = Ok updated ->
  stored_blend position obstacle updated.
Proof.
  intros Hd; unfold update_inside; cbv zeta.
  destruct (np_max _) as [w|e] eqn:Hmax; cbn [Py.bind]; [| discriminate].
  destruct (Rlt_bool 1 w) eqn:Hw; [discriminate|].
  intros [= <-].
  pose proof (blend_weights_bounds ii_self obstacle Hd) as Hall.
  rewrite Forall_forall in Hall; specialize (Hall w (np_max_In _ _ Hmax)).
  eexists w, _; split; [lra | reflexivity].
Qed.

Lemma update_inside_loop_enclosed (obstacles : list (nat * Obstacle))
      (updated : list Obstacle) :
  (forall other, In other obstacles -> is_inside position (snd other) = true ->
                 dist_point position (snd other)
                 < dist_boundary_point position (snd other)) ->
  update_inside_loop self position gamma_margin_close_wall obstacles = Ok updated ->
  Forall2 (fun other obstacle =>
             if is_inside position (snd other)
             then stored_blend position (snd other) obstacle
             else obstacle = snd other)
          obstacles updated.
Proof.
  revert updated.
  induction obstacles as [|[ii o] obstacles IH]; intros updated Hd;
    cbn [update_inside_loop].
  - intros [= <-]; constructor.
  - destruct (is_inside position o) eqn:Hins.
    + destruct (update_inside self position gamma_margin_close_wall ii o)
        as [o'|e] eqn:Hu; cbn [Py.bind]; [| discriminate].
      destruct (update_inside_loop self position gamma_margin_close_wall obstacles)
        as [rest|e]; cbn [Py.bind]; [| discriminate].
      intros [= <-]; constructor.
      * cbn [snd]; rewrite Hins.
        apply (update_inside_enclosed ii); [| exact Hu].
        apply (Hd (ii, o)); [left; reflexivity | exact Hins].
      * apply IH; [intros other Hin; apply Hd; right; exact Hin | reflexivity].
    + cbn [Py.bind].
      destruct (update_inside_loop self position gamma_margin_close_wall obstacles)
        as [rest|e]; cbn [Py.bind]; [| discriminate].
      intros [= <-]; constructor.
      * cbn [snd]; rewrite Hins; reflexivity.
      * apply IH; [intros other Hin; apply Hd; right; exact Hin | reflexivity].
Qed.

(** [update_inside] raises nothing but the weight error as soon as one
    boundary is close. *)
Lemma update_inside_cases (ii_self : nat) (obstacle : Obstacle) :
  filter (fun other => is_close position gamma_margin_close_wall (snd other))
         (indexed self) <> [] ->
  (exists updated,
      update_inside self position gamma_margin_close_wall ii_self obstacle = Ok updated)
  \/ update_inside self position gamma_margin_close_wall ii_self obstacle =
     Raise weight_error.
Proof.
  intros Hne; unfold update_inside; cbv zeta.
  destruct (np_max_nonempty
              (blend_weights self position gamma_margin_close_wall ii_self obstacle))
    as [w Hw].
  { unfold blend_weights; cbv zeta; intros H; apply map_eq_nil in H; contradiction. }
  rewrite Hw; cbn [Py.bind].
  destruct (Rlt_bool 1 w); [right; reflexivity | left; eexists; reflexivity].
Qed.

Lemma update_inside_loop_raises (obstacles : list (nat * Obstacle))
      (ii_self : nat) (obstacle : Obstacle) (w : R) :
  In (ii_self, obstacle) obstacles ->
  is_inside position obstacle = true ->
  np_max (blend_weights self position gamma_margin_close_wall ii_self obstacle) = Ok w ->
  1 < w ->
  update_inside_loop self position gamma_margin_close_wall obstacles =
  Raise weight_error.
Proof.
  intros Hin Hins Hmax Hw.
  assert (Hne : filter (fun other => is_close position gamma_margin_close_wall (snd other))
                       (indexed self) <> []).
  { intros Hnil; unfold blend_weights in Hmax; cbv zeta in Hmax.
    rewrite Hnil in Hmax; discriminate. }
  induction obstacles as [|[ii o] obstacles IH]; [destruct Hin|].
  cbn [update_inside_loop].
  destruct Hin as [[= -> ->]|Hin].
  - rewrite Hins, (update_inside_raises _ _ _ Hmax Hw); reflexivity.
  - specialize (IH Hin); rewrite IH.
    destruct (is_inside position o); cbn [Py.bind]; [| reflexivity].
    destruct (update_inside_cases ii o Hne) as [[o' ->] | ->]; reflexivity.
Qed.

End ReferencePoint.

Lemma Forall2_indexed {P : Obstacle -> Obstacle -> Prop} (obstacles updated : list Obstacle)
      (start : nat) :
  Forall2 (fun (other : nat * Obstacle) obstacle => P (snd other) obstacle)
          (combine (seq start (List.length obstacles)) obstacles) updated ->
  Forall2 P obstacles updated.
Proof.
  revert start updated; induction obstacles as [|o obstacles IH]; intros start updated H;
    cbn [List.length seq combine] in H; inversion H; subst; constructor.
  - assumption.
  - eapply IH; eassumption.
Qed.

Lemma is_inside_set_relative_reference (position : Vector) (value : RelativeReference)
      (obstacle : Obstacle) :
  is_inside position (set_relative_reference value obstacle) =
  is_inside position obstacle.
Proof. reflexivity. Qed.

Lemma update_relative_reference_point_raises (self : Container)
      (position : Vector) (gamma_margin_close_wall : R)
      (ii_self : nat) (obstacle : Obstacle) (w : R) :
  In (ii_self, obstacle) (indexed self) ->
  is_inside position obstacle = true ->
  np_max (blend_weights self position gamma_margin_close_wall ii_self obstacle) = Ok w ->
  1 < w ->
  update_relative_reference_point self position gamma_margin_close_wall =
  Raise weight_error.
Proof.
  intros Hin Hins Hmax Hw; unfold update_relative_reference_point.
  rewrite (update_inside_loop_raises self position gamma_margin_close_wall
             (indexed self) ii_self obstacle w) by assumption.
  reflexivity.
Qed.

Lemma is_inside_enclosed (position : Vector) (obstacle : Obstacle) :
  (is_boundary obstacle = true -> encloses obstacle) ->
  is_inside position obstacle = true ->
  dist_point position obstacle < dist_boundary_point position obstacle.
Proof.
  unfold is_inside; intros Henc H.
  apply andb_true_iff in H as [Hg Hb]; apply Rlt_bool_true in Hg.
  apply (Henc Hb), Hg.
Qed.

Lemma update_relative_reference_point_enclosed (self updated : Container)
      (position : Vector) (gamma_margin_close_wall : R) :
  (forall obstacle, In obstacle (obstacle_list self) ->
                    is_boundary obstacle = true -> encloses obstacle) ->
  update_relative_reference_point self position gamma_margin_close_wall = Ok updated ->
  Forall2 (fun obstacle obstacle' =>
             is_inside position obstacle = true ->
             stored_blend position obstacle obstacle')
          (obstacle_list self) (obstacle_list updated).
Proof.
  intros Henc; unfold update_relative_reference_point.
  destruct (update_inside_loop self position gamma_margin_close_wall (indexed self))
    as [l|e] eqn:Hloop; cbn [Py.bind]; [| discriminate].
  intros [= <-]; cbn [obstacle_list].
  apply update_inside_loop_enclosed in Hloop.
  - apply (Forall2_indexed (P := fun o o' =>
                                   if is_inside position o
                                   then stored_blend position o o' else o' = o))
      in Hloop.
    clear Henc.
    induction Hloop as [|o o' l0 l1 Ho _ IH]; cbn [map]; constructor; [| exact IH].
    intros Hins; rewrite Hins in Ho.
    destruct Ho as (w & rg & Hw & ->).
    rewrite is_inside_set_relative_reference, Hins.
    exists w, rg; split; [exact Hw | reflexivity].
  - intros [ii o] Hin; cbn [snd]; apply is_inside_enclosed, Henc.
    unfold indexed in Hin; apply in_combine_r in Hin; exact Hin.
Qed.

Section Walls.

Lemma norm_1d (x : R) : 0 <= x -> norm [x - 0] = x.
Proof.
  intros Hx; unfold norm; cbn [dot].
  replace ((x - 0) * (x - 0) + 0) with (x * x) by ring.
  apply sqrt_square; exact Hx.
Qed.

Lemma Rlt_bool_eq_true (a b : R) : a < b -> Rlt_bool a b = true.
Proof. apply Rlt_bool_true. Qed.

Lemma Rlt_bool_eq_false (a b : R) : b <= a -> Rlt_bool a b = false.
Proof. apply Rlt_bool_false. Qed.

Lemma two_walls_weights (surface gamma x : R) :
  0 <= x -> 0 <= surface -> 1 <= gamma ->
  blend_weights (two_walls surface gamma) [x] default_margin 0 (wall surface 2) =
  [0; blend_weight x surface gamma].
Proof.
  intros Hx Hs Hg.
  unfold blend_weights, indexed, n_obstacles, is_close, default_margin; cbv zeta.
  cbn [two_walls obstacle_list List.length seq combine filter snd fst wall
       get_gamma_absolute is_boundary center_position get_intersection_with_surface
       vsub map2].
  rewrite (Rlt_bool_eq_true (1 / 1000000) 2) by lra.
  rewrite (Rlt_bool_eq_true (1 / 1000000) gamma) by lra.
  cbn [andb map fst snd Nat.eqb get_gamma_absolute wall].
  rewrite Rlt_bool_eq_false by lra.
  rewrite !norm_1d by assumption; reflexivity.
Qed.

Lemma norm_scaled_1d (k y : R) : 0 <= k -> norm [k * y - 0] = k * norm [y].
Proof.
  intros Hk; unfold norm; cbn [dot].
  replace ((k * y - 0) * (k * y - 0) + 0) with (k * k * (y * y + 0)) by ring.
  rewrite sqrt_mult; [| nra | nra].
  rewrite sqrt_square by exact Hk; reflexivity.
Qed.

(** The interval is a boundary as the specification has them: where its
    gamma is above [1], the position is nearer to the centre than the
    surface. *)
Lemma interval_wall_encloses (radius : R) : 0 < radius -> encloses (interval_wall radius).
Proof.
  intros Hr position Hg; unfold dist_point, dist_boundary_point.
  cbn [interval_wall get_gamma_absolute center_position get_intersection_with_surface]
    in *.
  set (d := vsub position [0]) in *.
  assert (Hn : 0 <= norm d) by apply norm_nonneg.
  destruct (Req_dec (norm d) 0) as [Hz|Hnz].
  - rewrite Hz in Hg; unfold Rdiv in Hg; rewrite Rinv_0 in Hg; lra.
  - assert (Hpos : 0 < norm d) by lra.
    assert (Hlt : norm d < radius).
    { apply (Rmult_lt_compat_r (norm d)) in Hg; [| exact Hpos].
      replace (radius / norm d * norm d) with radius in Hg by (field; exact Hnz).
      lra. }
    assert (Hk : 0 <= radius / norm d).
    { apply Rmult_le_pos; [lra | left; apply Rinv_0_lt_compat; exact Hpos]. }
    assert (Hshape : d = [] \/ exists y, d = [y]).
    { unfold d, vsub; destruct position as [|x rest]; [left; reflexivity|].
      right; exists (x - 0); destruct rest; reflexivity. }
    destruct Hshape as [Hd|[y Hd]].
    + rewrite Hd in Hnz; exfalso; apply Hnz.
      unfold norm; cbn [dot]; apply sqrt_0.
    + rewrite Hd in *; cbn [vscale map vsub map2].
      rewrite norm_scaled_1d by exact Hk.
      replace (radius / norm [y] * norm [y]) with radius by (field; exact Hnz).
      exact Hlt.
Qed.

End Walls.

(** C8: with boundaries whose gamma is above [1] only between the centre
    and the surface, every blend weight that
    [update_relative_reference_point(position)] computes for an inside
    boundary lies in [[0, 1]], and when the call returns every inside
    boundary has got the reference point
    [w * position + (1 - w) * global_reference_point] for a weight [w] in
    [[0, 1]]; and, for any obstacles, whenever the maximal weight computed
    for an inside boundary exceeds [1] the call raises, and stores no
    relative reference point. *)
Theorem relative_reference_weight_bounds (self : Container) (position : Vector)
        (gamma_margin_close_wall : R) :
  ((forall obstacle, In obstacle (obstacle_list self) ->
                     is_boundary obstacle = true -> encloses obstacle) ->
   (forall ii_self obstacle,
       In (ii_self, obstacle) (indexed self) ->
       is_inside position obstacle = true ->
       Forall (fun w => 0 <= w <= 1)
              (blend_weights self position gamma_margin_close_wall ii_self obstacle))
   /\ (forall updated,
          update_relative_reference_point self position gamma_margin_close_wall =
          Ok updated ->
          Forall2 (fun obstacle obstacle' =>
                     is_inside position obstacle = true ->
                     stored_blend position obstacle obstacle')
                  (obstacle_list self) (obstacle_list updated)))
  /\ (forall ii_self obstacle w,
         In (ii_self, obstacle) (indexed self) ->
         is_inside position obstacle = true ->
         np_max (blend_weights self position gamma_margin_close_wall ii_self obstacle)
         = Ok w ->
         1 < w ->
         update_relative_reference_point self position gamma_margin_close_wall =
         Raise weight_error).
Proof.
  split.
  - intros Henc; split.
    + intros ii_self obstacle Hin Hins.
      assert (Hd : dist_point position obstacle < dist_boundary_point position obstacle).
      { apply is_inside_enclosed; [| exact Hins].
        apply Henc; unfold indexed in Hin; apply in_combine_r in Hin; exact Hin. }
      pose proof (blend_weights_bounds self position gamma_margin_close_wall
                    ii_self obstacle Hd) as Hall.
      rewrite Forall_forall in Hall |- *.
      intros w Hw; specialize (Hall w Hw); lra.
    + intros updated; apply update_relative_reference_point_enclosed, Henc.
  - intros ii_self obstacle w; apply update_relative_reference_point_raises.
Qed.

Lemma one_wall_update :
  exists updated,
    update_relative_reference_point one_wall [1] default_margin = Ok updated.
Proof.
  unfold update_relative_reference_point, update_inside_loop, update_inside,
    blend_weights, indexed, n_obstacles, is_inside, is_close, default_margin;
    cbv zeta.
  cbn [one_wall obstacle_list List.length seq combine filter snd fst wall
       get_gamma_absolute is_boundary].
  rewrite (Rlt_bool_eq_true 1 2) by lra.
  rewrite (Rlt_bool_eq_true (1 / 1000000) 2) by lra.
  cbn [andb map fst snd Nat.eqb np_max fold_left Py.bind].
  rewrite (Rlt_bool_eq_false 1 0) by lra.
  eexists; reflexivity.
Qed.


Lemma relative_reference_weight_bounds_witness :
  Forall (fun w => 0 <= w <= 1)
         (blend_weights (container_of [interval_wall 2; interval_wall 3]) [1]
                        default_margin 0 (interval_wall 2))
  /\ update_relative_reference_point (two_walls 1 2) [3] default_margin =
     Raise weight_error.
Proof.
  assert (Henc : forall obstacle,
             In obstacle (obstacle_list (container_of [interval_wall 2; interval_wall 3])) ->
             is_boundary obstacle = true -> encloses obstacle).
  { intros o [<-|[<-|[]]] _; apply interval_wall_encloses; lra. }
  split.
  - apply (proj1 (proj1 (relative_reference_weight_bounds
                           (container_of [interval_wall 2; interval_wall 3]) [1]
                           default_margin) Henc)).
    + left; reflexivity.
    + unfold is_inside;
        cbn [interval_wall get_gamma_absolute is_boundary vsub map2].
      rewrite norm_1d by lra.
      rewrite Rlt_bool_eq_true by lra; reflexivity.
  - apply (proj2 (relative_reference_weight_bounds (two_walls 1 2) [3] default_margin)
             0%nat (wall 1 2) (Rmax 0 (blend_weight 3 1 2))).
    + left; reflexivity.
    + unfold is_inside; cbn [wall get_gamma_absolute is_boundary].
      rewrite Rlt_bool_eq_true by lra; reflexivity.
    + rewrite two_walls_weights by lra; reflexivity.
    + unfold blend_weight; cbv zeta.
      replace (1 - 1 / (1 + 3 / (1 - 3) * (2 - 1))) with 3 by (field; lra).
      unfold Rmax; destruct (Rle_dec 0 3); lra.
Defined.

(** * Further properties *)

(** ** Algebra of [rotate_direction] *)

Section RotationAlgebra.

Lemma normalised_unit (d : Vector) : norm d <> 0 -> norm (vdiv d (norm d)) = 1.
Proof.
  intros Hn; apply dot_1_norm.
  rewrite vdiv_vscale, dot_vscale_l, dot_vscale_r.
  assert (Hd : norm d * norm d = dot d d) by (apply sqrt_sqrt, dot_self_nonneg).
  rewrite <- Hd; field; exact Hn.
Qed.

(** [rotate_direction] normalises its input first. *)
Lemma rotate_direction_normalised (d : Vector) (b : Base) (theta : R) :
  norm d <> 0 ->
  rotate_direction d b theta = rotate_direction (vdiv d (norm d)) b theta.
Proof.
  intros Hn; unfold rotate_direction.
  rewrite (normalised_unit d Hn), vdiv_1; reflexivity.
Qed.

(** X1: with an orthonormal base, [rotate_direction] returns a unit vector
    for every direction that is not zero, whatever its length and the
    angle. *)
Theorem rotate_direction_unit_norm (d b0 b1 : Vector) (theta : R) :
  List.length b0 = List.length d -> List.length b1 = List.length d ->
  orthonormal (b0, b1) -> norm d <> 0 ->
  norm (rotate_direction d (b0, b1) theta) = 1.
Proof.
  intros H0 H1 Hb Hn.
  rewrite rotate_direction_normalised by exact Hn.
  apply rotate_direction_norm;
    [rewrite vdiv_length; exact H0 | rewrite vdiv_length; exact H1 | exact Hb
    | apply normalised_unit; exact Hn].
Qed.

Lemma rotate_direction_unit_norm_witness :
  norm (rotate_direction [2; 0; 0] ([1; 0; 0], [0; 1; 0]) (PI / 2)) = 1.
Proof.
  apply rotate_direction_unit_norm; try reflexivity.
  - unfold orthonormal; cbn [col0 col1 fst snd dot]; repeat split; lra.
  - unfold norm; cbn [dot]; intros H.
    apply sqrt_eq_0 in H; lra.
Defined.

(** X2: a unit direction orthogonal to both columns of the base is left as
    it is by [rotate_direction], for every angle. *)
Theorem rotate_direction_orthogonal (x b0 b1 : Vector) (theta : R) :
  List.length b0 = List.length x -> List.length b1 = List.length x ->
  norm x = 1 -> dot b0 x = 0 -> dot b1 x = 0 ->
  rotate_direction x (b0, b1) theta = x.
Proof.
  intros H0 H1 Hx Hp Hq.
  rewrite rotate_direction_unit by assumption.
  apply comb_0; try assumption; rewrite Hp, Hq; ring.
Qed.

Lemma rotate_direction_orthogonal_witness :
  rotate_direction [0; 0; 1] ([1; 0; 0], [0; 1; 0]) (PI / 3) = [0; 0; 1].
Proof.
  apply rotate_direction_orthogonal; try reflexivity.
  - apply dot_1_norm; cbn [dot]; lra.
  - cbn [dot]; lra.
  - cbn [dot]; lra.
Defined.

(** X3: with an orthonormal base, rotating a unit direction by [alpha] and
    then by [beta] is rotating it by [alpha + beta]. *)
Theorem rotate_direction_compose (x b0 b1 : Vector) (alpha beta : R) :
  List.length b0 = List.length x -> List.length b1 = List.length x ->
  orthonormal (b0, b1) -> norm x = 1 ->
  rotate_direction (rotate_direction x (b0, b1) alpha) (b0, b1) beta =
  rotate_direction x (b0, b1) (alpha + beta).
Proof.
  intros H0 H1 Hb Hx.
  pose proof (rotate_direction_norm x b0 b1 alpha H0 H1 Hb Hx) as Hy.
  destruct Hb as (H00 & H11 & H01); cbn [col0 col1 fst snd] in *.
  rewrite (rotate_direction_unit x b0 b1 (alpha + beta)) by assumption.
  rewrite (rotate_direction_unit x b0 b1 alpha H0 H1 Hx) in Hy |- *.
  set (p := dot b0 x) in *; set (q := dot b1 x) in *.
  rewrite rotate_direction_unit by vlen.
  rewrite comb_comb by assumption.
  rewrite !dot_comb_r by congruence.
  rewrite H00, H11, H01, (dot_comm b1 b0), H01; fold p q.
  rewrite cos_plus, sin_plus.
  unfold comb; f_equal; f_equal; f_equal; ring.
Qed.

Lemma rotate_direction_compose_witness :
  rotate_direction (rotate_direction [1; 0; 0] ([1; 0; 0], [0; 1; 0]) (PI / 2))
                   ([1; 0; 0], [0; 1; 0]) (PI / 2) =
  rotate_direction [1; 0; 0] ([1; 0; 0], [0; 1; 0]) (PI / 2 + PI / 2).
Proof.
  apply rotate_direction_compose; try reflexivity.
  - unfold orthonormal; cbn [col0 col1 fst snd dot]; repeat split; lra.
  - apply dot_1_norm; cbn [dot]; lra.
Defined.

Lemma vsub_zero_eq (u v : Vector) :
  List.length u = List.length v ->
  Forall (fun x => x = 0) (vsub u v) -> u = v.
Proof.
  unfold vsub; revert v; induction u as [|a u IH]; intros [|b v] Hl H;
    cbn [List.length map2] in *; try discriminate; [reflexivity|].
  inversion H as [|? ? Hab Hrest]; subst.
  f_equal; [lra | apply IH; [congruence | exact Hrest]].
Qed.

(** Two unit directions with a dot product of [1] or more are equal. *)
Lemma dot_unit_parallel (u v : Vector) :
  List.length u = List.length v -> norm u = 1 -> norm v = 1 ->
  1 <= dot u v -> u = v.
Proof.
  intros Hl Hu Hv Hd; apply norm_1_dot in Hu, Hv.
  apply vsub_zero_eq; [exact Hl|].
  apply dot_self_zero.
  pose proof (dot_self_nonneg (vsub u v)) as Hpos.
  rewrite dot_vsub_l in Hpos |- * by vlen.
  rewrite !dot_vsub_r in Hpos |- * by vlen.
  rewrite (dot_comm v u) in Hpos |- *; lra.
Qed.

Lemma rebuild_rotated (u v : Vector) (d n : R) :
  List.length u = List.length v -> n <> 0 ->
  comb (d - 1) n u (vdiv (vsub v (vscale d u)) n) u = v.
Proof.
  intros Hl Hn; unfold comb, vadd, vsub, vscale, vdiv.
  revert v Hl; induction u as [|a u IH]; intros [|b v] Hl;
    cbn [List.length map map2] in *; try discriminate; [reflexivity|].
  f_equal; [field; exact Hn | apply IH; congruence].
Qed.

(** Rotating the first of two unit directions by the angle between them,
    in their plane, gives the second. *)
Lemma rotate_direction_init_to_rot (u v : Vector) :
  List.length u = List.length v -> norm u = 1 -> norm v = 1 ->
  -1 < dot u v < 1 ->
  rotate_direction u
    (u, vdiv (vsub v (vscale (dot u v) u)) (norm (vsub v (vscale (dot u v) u))))
    (acos (dot u v)) = v.
Proof.
  intros Hl Hi Hr [Hlo Hlt].
  pose proof (norm_1_dot _ Hi) as Hii.
  set (d := dot u v) in *.
  set (w := vsub v (vscale d u)).
  assert (Hww : dot w w = 1 - d * d) by (apply vec_perp_dot_self; assumption).
  assert (Hn : sqrt (1 - d²) = norm w) by (unfold norm, Rsqr; rewrite Hww; reflexivity).
  assert (Hpos : 0 < norm w) by (apply sqrt_lt_R0; rewrite Hww; nra).
  assert (HQ : dot (vdiv w (norm w)) u = 0).
  { rewrite vdiv_vscale, dot_vscale_l, dot_comm.
    unfold w, d; rewrite (vec_perp_dot_init u v Hl Hi); ring. }
  rewrite rotate_direction_unit;
    [| reflexivity | rewrite vdiv_length; unfold w; vlen | exact Hi].
  rewrite Hii, HQ, cos_acos, sin_acos, Hn by lra.
  replace (1 * d - 0 * norm w - 1) with (d - 1) by ring.
  replace (1 * norm w + 0 * d - 0) with (norm w) by ring.
  apply rebuild_rotated; [exact Hl | lra].
Qed.

(** X5: for unit directions that are not opposite, the rotation built by
    [from_directions(vec_init, vec_rot)] takes [vec_init] to [vec_rot]. *)
Theorem from_directions_rotates_init_to_rot (vec_init vec_rot : Vector) :
  List.length vec_init = List.length vec_rot ->
  norm vec_init = 1 -> norm vec_rot = 1 ->
  vec_rot <> vscale (-1) vec_init ->
  exists r,
    from_directions vec_init vec_rot = Ok r /\ rotate r vec_init 1 = vec_rot.
Proof.
  intros Hl Hi Hr Hanti.
  assert (Hne : dot vec_init vec_rot <> -1).
  { intros Hd; apply Hanti, dot_opposite_iff; assumption. }
  pose proof (dot_unit_lower vec_init vec_rot Hl (norm_1_dot _ Hi) (norm_1_dot _ Hr))
    as Hlo.
  rewrite from_directions_same_length by assumption; cbv zeta.
  destruct (Req_dec_T (dot vec_init vec_rot) (-1)) as [He|_]; [contradiction|].
  eexists; split; [reflexivity|].
  unfold rotate; cbn [base rotation_angle].
  replace (1 * acos (dot vec_init vec_rot)) with (acos (dot vec_init vec_rot)) by ring.
  destruct (Rlt_dec (dot vec_init vec_rot) 1) as [Hlt|Hge].
  - apply rotate_direction_init_to_rot; try assumption; lra.
  - assert (Hz : acos (dot vec_init vec_rot) = 0).
    { unfold acos.
      destruct (Rle_dec (dot vec_init vec_rot) (-1)); [lra|].
      destruct (Rle_dec 1 (dot vec_init vec_rot)); [reflexivity | lra]. }
    rewrite Hz, rotate_direction_zero_angle by congruence.
    apply dot_unit_parallel; try assumption; lra.
Qed.

Lemma from_directions_rotates_init_to_rot_witness :
  exists r, from_directions [1; 0] [0; 1] = Ok r /\ rotate r [1; 0] 1 = [0; 1].
Proof.
  apply from_directions_rotates_init_to_rot.
  - reflexivity.
  - apply dot_1_norm; cbn [dot]; lra.
  - apply dot_1_norm; cbn [dot]; lra.
  - cbn [vscale map]; intros [= H _]; lra.
Defined.

(** X6: for unit directions that are not opposite, [from_directions] keeps
    [vec_init] as the first column of the base, the angle is in [[0, pi]]
    with cosine the dot product of the two directions, and the base is
    orthonormal unless the directions are equal. *)
Theorem from_directions_unit_invariants (vec_init vec_rot : Vector) :
  List.length vec_init = List.length vec_rot ->
  norm vec_init = 1 -> norm vec_rot = 1 ->
  vec_rot <> vscale (-1) vec_init ->
  exists r,
    from_directions vec_init vec_rot = Ok r
    /\ col0 (base r) = vec_init
    /\ 0 <= rotation_angle r <= PI
    /\ cos (rotation_angle r) = dot vec_init vec_rot
    /\ (vec_rot <> vec_init -> orthonormal (base r)).
Proof.
  intros Hl Hi Hr Hanti.
  assert (Hne : dot vec_init vec_rot <> -1).
  { intros Hd; apply Hanti, dot_opposite_iff; assumption. }
  pose proof (dot_unit_lower vec_init vec_rot Hl (norm_1_dot _ Hi) (norm_1_dot _ Hr))
    as Hlo.
  rewrite from_directions_same_length by assumption; cbv zeta.
  destruct (Req_dec_T (dot vec_init vec_rot) (-1)) as [He|_]; [contradiction|].
  eexists; split; [reflexivity|]; cbn [base rotation_angle col0 fst].
  split; [reflexivity|].
  split; [apply acos_bound|].
  destruct (Rlt_dec (dot vec_init vec_rot) 1) as [Hlt|Hge].
  - split; [apply cos_acos; lra|].
    intros _; apply from_directions_orthonormal; assumption.
  - assert (Heq : vec_init = vec_rot) by (apply dot_unit_parallel; try assumption; lra).
    split; [| intros Hneq; exfalso; apply Hneq; symmetry; exact Heq].
    rewrite <- Heq, (norm_1_dot _ Hi).
    rewrite acos_1; apply cos_0.
Qed.

Lemma from_directions_unit_invariants_witness :
  exists r,
    from_directions [1; 0] [0; 1] = Ok r
    /\ col0 (base r) = [1; 0]
    /\ 0 <= rotation_angle r <= PI
    /\ cos (rotation_angle r) = dot [1; 0] [0; 1]
    /\ ([0; 1] <> [1; 0] -> orthonormal (base r)).
Proof.
  apply from_directions_unit_invariants.
  - reflexivity.
  - apply dot_1_norm; cbn [dot]; lra.
  - apply dot_1_norm; cbn [dot]; lra.
  - cbn [vscale map]; intros [= H _]; lra.
Defined.

End RotationAlgebra.

(** ** Chains of [VectorRotationSequence] *)

Section Chain.

Lemma map2_length_min {A B C : Type} (f : A -> B -> C) (u : list A) (v : list B) :
  List.length (map2 f u v) = Nat.min (List.length u) (List.length v).
Proof.
  revert v; induction u as [|a u IH]; intros [|b v]; cbn [map2 List.length];
    try reflexivity.
  rewrite IH; reflexivity.
Qed.

Lemma removelast_length {A : Type} (l : list A) :
  List.length (removelast l) = (List.length l - 1)%nat.
Proof.
  induction l as [|a [|b l] IH]; try reflexivity.
  change (removelast (a :: b :: l)) with (a :: removelast (b :: l)).
  cbn [List.length] in *; rewrite IH; lia.
Qed.

Lemma tl_length {A : Type} (l : list A) :
  List.length (tl l) = (List.length l - 1)%nat.
Proof. destruct l; cbn [tl List.length]; lia. Qed.

(** X7: a sequence built from [n] directions holds [n - 1] rotations: as
    many bases and as many angles, and the [n] directions themselves. *)
Theorem sequence_init_lengths (vectors : list Vector) (sequence : VectorRotationSequence) :
  sequence_init vectors = Ok sequence ->
  n_rotations sequence = (List.length vectors - 1)%nat
  /\ List.length (rotation_angles sequence) = n_rotations sequence
  /\ List.length (vectors_array sequence) = List.length vectors.
Proof.
  unfold sequence_init; cbv zeta.
  destruct (existsb _ _); [discriminate|].
  intros [= <-]; unfold n_rotations; cbn [basis_array rotation_angles vectors_array].
  unfold Base; rewrite length_combine, !length_map, !map2_length_min.
  rewrite !tl_length, !removelast_length, !length_map.
  repeat split; lia.
Qed.

Lemma sequence_init_lengths_witness :
  n_rotations test_sequence = 4%nat
  /\ List.length (rotation_angles test_sequence) = n_rotations test_sequence
  /\ List.length (vectors_array test_sequence) = 5%nat.
Proof.
  apply (sequence_init_lengths test_vectors test_sequence).
  exact test_sequence_init.
Defined.

(** X8: a single direction makes a sequence without rotations, on which
    [rotate] raises [IndexError], as it assigns the last entry of an empty
    array of weights. *)
Theorem sequence_single_vector (v : Vector) :
  exists sequence,
    sequence_init [v] = Ok sequence
    /\ n_rotations sequence = 0%nat
    /\ forall direction rot_factor,
        sequence_rotate sequence direction rot_factor = Raise IndexError.
Proof.
  exists {| vectors_array := [vdiv v (norm v)]; basis_array := [];
            rotation_angles := [] |}.
  split; [| split].
  - unfold sequence_init; cbn [map tl removelast map2 existsb combine]; reflexivity.
  - reflexivity.
  - intros direction rot_factor.
    unfold sequence_rotate, n_rotations; cbn [basis_array List.length repeat set_last].
    reflexivity.
Qed.

Lemma chain_dots_cons (v0 v1 : Vector) (rest : list Vector) :
  chain_dots (v0 :: v1 :: rest) = dot v1 v0 :: chain_dots (v1 :: rest).
Proof. reflexivity. Qed.

Lemma chain_perps_cons (v0 v1 : Vector) (rest : list Vector) :
  chain_perps (v0 :: v1 :: rest) =
  vdiv (vsub v1 (vscale (dot v1 v0) v0)) (norm (vsub v1 (vscale (dot v1 v0) v0)))
  :: chain_perps (v1 :: rest).
Proof. reflexivity. Qed.

Lemma removelast_cons2 {A : Type} (a b : A) (l : list A) :
  removelast (a :: b :: l) = a :: removelast (b :: l).
Proof. reflexivity. Qed.

Lemma chain_dots_length (vectors : list Vector) :
  List.length (chain_dots vectors) = (List.length vectors - 1)%nat.
Proof.
  unfold chain_dots; rewrite map2_length_min, tl_length, removelast_length; lia.
Qed.

Lemma chain_bases_length (vectors : list Vector) :
  List.length (combine (removelast vectors) (chain_perps vectors)) =
  (List.length vectors - 1)%nat.
Proof.
  unfold chain_perps.
  rewrite length_combine, length_map, !map2_length_min, chain_dots_length.
  rewrite tl_length, removelast_length; lia.
Qed.

Lemma proper_chain_normalised (dimension : nat) (vectors : list Vector) :
  proper_chain dimension vectors ->
  map (fun v => vdiv v (norm v)) vectors = vectors.
Proof.
  induction vectors as [|v rest IH]; [reflexivity|].
  intros (_ & Hv & _ & Hrest); cbn [map].
  rewrite Hv, vdiv_1, IH by exact Hrest; reflexivity.
Qed.

Lemma proper_chain_dots (dimension : nat) (vectors : list Vector) :
  proper_chain dimension vectors ->
  Forall (fun d => -1 < d < 1) (chain_dots vectors).
Proof.
  induction vectors as [|v0 [|v1 rest] IH]; try (intros; constructor).
  - destruct H as (_ & _ & Hd & _); exact Hd.
  - apply IH; destruct H as (_ & _ & _ & Hrest); exact Hrest.
Qed.

Lemma proper_chain_bases (dimension : nat) (vectors : list Vector) :
  proper_chain dimension vectors ->
  Forall (unit_base dimension) (combine (removelast vectors) (chain_perps vectors)).
Proof.
  induction vectors as [|v0 [|v1 rest] IH]; try (intros; constructor).
  - destruct H as (Hl0 & Hn0 & Hd & (Hl1 & Hn1 & _)).
    assert (Hl : List.length v0 = List.length v1) by congruence.
    assert (Hne : dot v0 v1 <> -1) by (rewrite dot_comm; lra).
    assert (Hlt : dot v0 v1 < 1) by (rewrite dot_comm; lra).
    destruct (from_directions_orthonormal v0 v1 Hl Hn0 Hn1 Hne Hlt) as (_ & H11 & _).
    cbn [col0 col1 fst snd] in H11.
    rewrite (dot_comm v1 v0).
    unfold unit_base; cbn [col0 col1 fst snd]; repeat split.
    + exact Hl0.
    + rewrite vdiv_length, vec_perp_length; assumption.
    + exact Hn0.
    + apply dot_1_norm; exact H11.
  - apply IH; destruct H as (_ & _ & _ & Hrest); exact Hrest.
Qed.

Lemma pair_columns_flatten (bases : list Base) :
  pair_columns (flatten_bases bases) = bases.
Proof.
  induction bases as [|[c0 c1] bases IH]; [reflexivity|].
  cbn [flatten_bases pair_columns col0 col1 fst snd]; rewrite IH; reflexivity.
Qed.

Lemma flatten_bases_unit (dimension : nat) (bases : list Base) :
  Forall (unit_base dimension) bases ->
  Forall (fun c => List.length c = dimension /\ norm c = 1) (flatten_bases bases).
Proof.
  induction 1 as [|b bases (H0 & H1 & Hn0 & Hn1) _ IH]; cbn [flatten_bases];
    repeat constructor; assumption.
Qed.

(** A batch rotation by the angle [0] leaves unit columns as they are. *)
Lemma rotate_array_zero_angle (dimension : nat) (columns : list Vector) (b : Base) :
  unit_base dimension b ->
  Forall (fun c => List.length c = dimension /\ norm c = 1) columns ->
  rotate_array columns b 0 = columns.
Proof.
  intros (H0 & H1 & _ & _) Hc; rewrite rotate_array_columns.
  induction Hc as [|c columns [Hl Hn] _ IH]; cbn [map]; [reflexivity|].
  rewrite IH; f_equal.
  destruct b as [b0 b1]; cbn [col0 col1 fst snd] in *.
  apply rotate_direction_zero_angle; congruence.
Qed.

Lemma Forall_skipn {A : Type} (P : A -> Prop) (k : nat) (l : list A) :
  Forall P l -> Forall P (skipn k l).
Proof.
  intros H; apply Forall_forall; intros x Hin.
  rewrite Forall_forall in H; apply H.
  rewrite <- (firstn_skipn k l); apply in_or_app; right; exact Hin.
Qed.

(** With all cumulated weights equal to [1], a round of the top-to-bottom
    loop of [rotate_weighted] changes nothing. *)
Lemma rebase_above_full (dimension : nat) (self : VectorRotationSequence)
      (cumulated_weights : list R) (temp_base : list Base) (ii : nat) :
  Forall (unit_base dimension) temp_base ->
  (ii < List.length temp_base)%nat ->
  nth ii cumulated_weights 0 = 1 ->
  rebase_above self cumulated_weights temp_base ii = temp_base.
Proof.
  intros Hb Hii Hw; unfold rebase_above.
  rewrite Hw.
  replace (nth ii (rotation_angles self) 0 * (1 - 1)) with 0 by ring.
  rewrite (rotate_array_zero_angle dimension).
  - rewrite pair_columns_flatten; apply firstn_skipn.
  - rewrite Forall_forall in Hb; apply Hb, nth_In; exact Hii.
  - apply flatten_bases_unit, Forall_skipn; exact Hb.
Qed.

Lemma rebase_loop_full (dimension : nat) (self : VectorRotationSequence)
      (cumulated_weights : list R) (temp_base : list Base) (rounds : list nat) :
  Forall (unit_base dimension) temp_base ->
  Forall (fun ii => (ii < List.length temp_base)%nat
                    /\ nth ii cumulated_weights 0 = 1) rounds ->
  fold_left (rebase_above self cumulated_weights) rounds temp_base = temp_base.
Proof.
  intros Hb Hr; induction Hr as [|ii rounds [Hii Hw] _ IH]; cbn [fold_left];
    [reflexivity|].
  rewrite (rebase_above_full dimension) by assumption; exact IH.
Qed.

Lemma cumsum_from_zeros (acc : R) (k : nat) :
  cumsum_from acc (repeat 0 k) = repeat acc k.
Proof.
  induction k as [|k IH]; cbn [repeat cumsum_from]; [reflexivity|].
  replace (acc + 0) with acc by ring; rewrite IH; reflexivity.
Qed.

Lemma rev_repeat {A : Type} (x : A) (k : nat) : rev (repeat x k) = repeat x k.
Proof.
  induction k as [|k IH]; [reflexivity|].
  cbn [repeat rev]; rewrite IH.
  clear IH; induction k as [|k IH]; [reflexivity|].
  cbn [repeat app]; rewrite IH; reflexivity.
Qed.

(** The cumulated weights of [rotate(direction, rot_factor)]. *)
Lemma cumulated_weights_rotate (k : nat) (rot_factor : R) :
  rev (cumsum (rev (removelast (repeat 0 (S k)) ++ [rot_factor]))) =
  repeat rot_factor (S k).
Proof.
  assert (Hrm : removelast (repeat 0 (S k)) = repeat 0 k).
  { induction k as [|k IH]; [reflexivity|].
    change (repeat 0 (S (S k))) with (0 :: repeat 0 (S k)).
    change (repeat 0 (S k)) with (0 :: repeat 0 k) at 1.
    rewrite removelast_cons2.
    change (0 :: repeat 0 k) with (repeat 0 (S k)); rewrite IH; reflexivity. }
  rewrite Hrm, rev_app_distr, rev_repeat; cbn [rev app].
  unfold cumsum; cbn [cumsum_from].
  rewrite cumsum_from_zeros.
  replace (0 + rot_factor) with rot_factor by ring.
  change (rot_factor :: repeat rot_factor k) with (repeat rot_factor (S k)).
  apply rev_repeat.
Qed.

Lemma map2_Rmult_ones (angles : list R) (k : nat) :
  List.length angles = k -> map2 Rmult angles (repeat 1 k) = angles.
Proof.
  revert k; induction angles as [|a angles IH]; intros [|k] Hk;
    cbn [List.length repeat map2] in *; try discriminate; [reflexivity|].
  rewrite IH by congruence; f_equal; ring.
Qed.

Lemma nth_repeat_lt {A : Type} (x d : A) (k ii : nat) :
  (ii < k)%nat -> nth ii (repeat x k) d = x.
Proof.
  revert ii; induction k as [|k IH]; intros [|ii] H; cbn [repeat nth];
    try lia; [reflexivity | apply IH; lia].
Qed.

Lemma last_default {A : Type} (l : list A) (d d' : A) :
  l <> [] -> last l d = last l d'.
Proof.
  induction l as [|a [|b l] IH]; intros H; [congruence | reflexivity |].
  change (last (a :: b :: l) d) with (last (b :: l) d).
  change (last (a :: b :: l) d') with (last (b :: l) d').
  apply IH; discriminate.
Qed.

(** The bottom-to-top loop on a proper chain, started at its first
    direction, walks along the chain. *)
Lemma chain_fold (dimension : nat) (v0 : Vector) (rest : list Vector) :
  proper_chain dimension (v0 :: rest) ->
  fold_left (fun direction (step : R * Base) =>
               rotate_direction direction (snd step) (fst step))
            (combine (map acos (chain_dots (v0 :: rest)))
                     (combine (removelast (v0 :: rest)) (chain_perps (v0 :: rest))))
            v0 =
  last (v0 :: rest) v0.
Proof.
  revert v0; induction rest as [|v1 rest IH]; intros v0 Hc; [reflexivity|].
  rewrite chain_dots_cons, chain_perps_cons, removelast_cons2.
  cbn [map combine fold_left fst snd].
  destruct Hc as (Hl0 & Hn0 & Hd & Hrest).
  pose proof Hrest as (Hl1 & Hn1 & _).
  rewrite (dot_comm v1 v0), rotate_direction_init_to_rot;
    [| congruence | assumption | assumption | rewrite dot_comm; exact Hd].
  rewrite (IH v1 Hrest).
  change (last (v0 :: v1 :: rest) v0) with (last (v1 :: rest) v0).
  apply last_default; discriminate.
Qed.

Lemma sequence_init_proper (dimension : nat) (vectors : list Vector) :
  proper_chain dimension vectors ->
  sequence_init vectors =
  Ok {| vectors_array := vectors;
        basis_array := combine (removelast vectors) (chain_perps vectors);
        rotation_angles := map acos (chain_dots vectors) |}.
Proof.
  intros Hc; unfold sequence_init; cbv zeta.
  rewrite (proper_chain_normalised dimension vectors Hc).
  fold (chain_dots vectors); fold (chain_perps vectors).
  replace (existsb (fun d => Req_bool d (-1)) (chain_dots vectors)) with false;
    [reflexivity|].
  symmetry; apply not_true_is_false; intros Hex.
  apply existsb_exists in Hex as (d & Hin & Hd).
  pose proof (proper_chain_dots dimension vectors Hc) as Hdots.
  rewrite Forall_forall in Hdots; specialize (Hdots d Hin).
  unfold Req_bool in Hd; destruct (Req_dec_T d (-1)); [lra | discriminate].
Qed.

(** X9: on a chain of unit directions, consecutive ones neither equal nor
    opposite, [rotate] with the factor [1] takes the first direction of the
    chain to the last one, without warning. *)
Theorem sequence_rotate_first_to_last (dimension : nat) (v0 v1 : Vector)
        (rest : list Vector) :
  proper_chain dimension (v0 :: v1 :: rest) ->
  exists sequence,
    sequence_init (v0 :: v1 :: rest) = Ok sequence
    /\ sequence_rotate sequence v0 1 = Ok (last (v1 :: rest) v1, []).
Proof.
  intros Hc; eexists; split; [apply (sequence_init_proper dimension), Hc|].
  set (vectors := v0 :: v1 :: rest) in *.
  set (sequence := {| vectors_array := vectors;
                      basis_array := combine (removelast vectors) (chain_perps vectors);
                      rotation_angles := map acos (chain_dots vectors) |}) in *.
  assert (Hk : n_rotations sequence = S (List.length rest)).
  { unfold n_rotations, sequence; cbn [basis_array].
    rewrite chain_bases_length; unfold vectors; cbn [List.length]; lia. }
  assert (Ha : List.length (rotation_angles sequence) = S (List.length rest)).
  { unfold sequence; cbn [rotation_angles].
    rewrite length_map, chain_dots_length; unfold vectors; cbn [List.length]; lia. }
  unfold sequence_rotate; rewrite Hk.
  change (set_last (repeat 0 (S (List.length rest))) 1)
    with (Ok (removelast (repeat 0 (S (List.length rest))) ++ [1])).
  cbn [Py.bind]; unfold rotate_weighted.
  rewrite cumulated_weights_rotate.
  cbn [repeat]; rewrite isclose_refl.
  rewrite length_app, removelast_length; cbn [List.length].
  rewrite repeat_length, Hk.
  replace (S (List.length rest) - 1 + 1)%nat with (S (List.length rest)) by lia.
  rewrite Nat.eqb_refl; cbn [negb].
  change (1 :: repeat 1 (List.length rest)) with (repeat 1 (S (List.length rest))).
  rewrite map2_Rmult_ones by exact Ha.
  rewrite (rebase_loop_full dimension).
  - f_equal; f_equal.
    change (basis_array sequence)
      with (combine (removelast vectors) (chain_perps vectors)).
    change (rotation_angles sequence) with (map acos (chain_dots vectors)).
    unfold vectors; rewrite (chain_fold dimension) by exact Hc.
    change (last (v0 :: v1 :: rest) v0) with (last (v1 :: rest) v0).
    apply last_default; discriminate.
  - apply (proper_chain_bases dimension), Hc.
  - apply Forall_forall; intros ii Hin.
    apply in_rev, in_seq in Hin.
    fold (n_rotations sequence); rewrite Hk.
    split; [lia | apply nth_repeat_lt; lia].
Qed.

Lemma sequence_rotate_first_to_last_witness :
  exists sequence,
    sequence_init test_vectors = Ok sequence
    /\ sequence_rotate sequence [1; 0; 0] 1 = Ok ([0; -1; 0], []).
Proof.
  apply (sequence_rotate_first_to_last 3).
  cbn [proper_chain List.length dot].
  repeat split; try (apply dot_1_norm; cbn [dot]); lra.
Defined.

Lemma chain_dots_In (before after : list Vector) (u v : Vector) :
  In (dot v u) (chain_dots (before ++ u :: v :: after)).
Proof.
  induction before as [|a [|b before] IH].
  - left; reflexivity.
  - right; exact IH.
  - change ((a :: b :: before) ++ u :: v :: after)
      with (a :: b :: (before ++ u :: v :: after)).
    rewrite chain_dots_cons; right; exact IH.
Qed.

Lemma unit_vectors_normalised (vectors : list Vector) :
  Forall (fun v => norm v = 1) vectors ->
  map (fun v => vdiv v (norm v)) vectors = vectors.
Proof.
  induction 1 as [|v rest Hv _ IH]; cbn [map]; [reflexivity|].
  rewrite Hv, vdiv_1, IH; reflexivity.
Qed.

(** X10: a chain of unit directions in which some direction is followed by
    its opposite is rejected by [VectorRotationSequence.__init__] with the
    [ValueError] for antiparallel vectors, wherever the pair is. *)
Theorem sequence_init_antiparallel (before after : list Vector) (u : Vector) :
  Forall (fun v => norm v = 1) (before ++ u :: vscale (-1) u :: after) ->
  sequence_init (before ++ u :: vscale (-1) u :: after) =
  Raise (ValueError "Antiparallel vectors.").
Proof.
  intros Hunit; unfold sequence_init; cbv zeta.
  rewrite (unit_vectors_normalised _ Hunit).
  fold (chain_dots (before ++ u :: vscale (-1) u :: after)).
  replace (existsb (fun d => Req_bool d (-1))
                   (chain_dots (before ++ u :: vscale (-1) u :: after))) with true;
    [reflexivity|].
  symmetry; apply existsb_exists.
  exists (dot (vscale (-1) u) u); split; [apply chain_dots_In|].
  assert (Hu : dot u u = 1).
  { apply norm_1_dot.
    rewrite Forall_forall in Hunit; apply Hunit, in_or_app; right; left; reflexivity. }
  unfold Req_bool; rewrite dot_vscale_l, Hu.
  destruct (Req_dec_T (-1 * 1) (-1)); [reflexivity | lra].
Qed.

Lemma sequence_init_antiparallel_witness :
  sequence_init [[0; 1]; [1; 0]; [-1 * 1; -1 * 0]; [0; 1]] =
  Raise (ValueError "Antiparallel vectors.").
Proof.
  apply (sequence_init_antiparallel [[0; 1]] [[0; 1]] [1; 0]).
  cbn [app vscale map].
  repeat apply Forall_cons; try apply Forall_nil; apply dot_1_norm; cbn [dot]; lra.
Defined.

End Chain.

(** ** [rotate_array] on tiled arrays *)

Section Arrays.

Lemma nth_nil (i : nat) : nth i (@nil R) 0 = 0.
Proof. destruct i; reflexivity. Qed.

Lemma nth_map2 (f : R -> R -> R) (u v : list R) (i : nat) :
  List.length u = List.length v -> (i < List.length u)%nat ->
  nth i (map2 f u v) 0 = f (nth i u 0) (nth i v 0).
Proof.
  revert v i; induction u as [|a u IH]; intros [|b v] i Hl Hi;
    cbn [List.length] in *; try lia.
  destruct i as [|i]; cbn [map2 nth]; [reflexivity | apply IH; lia].
Qed.

Lemma nth_map_lt (f : R -> R) (l : list R) (i : nat) :
  (i < List.length l)%nat -> nth i (map f l) 0 = f (nth i l 0).
Proof.
  revert i; induction l as [|a l IH]; intros i Hi; cbn [List.length] in Hi; [lia|].
  destruct i as [|i]; cbn [map nth]; [reflexivity | apply IH; lia].
Qed.

Lemma shape_row (r c : nat) (a : Array2) (i : nat) :
  shape r c a -> (i < r)%nat -> List.length (nth i a []) = c.
Proof.
  intros [Hr Hc] Hi; rewrite Forall_forall in Hc; apply Hc, nth_In; lia.
Qed.

Lemma sum_axis0_length (n : nat) (a : Array2) :
  Forall (fun row => List.length row = n) a -> List.length (sum_axis0 n a) = n.
Proof.
  unfold sum_axis0; induction 1 as [|row a Hrow _ IH]; cbn [fold_right];
    [apply repeat_length|].
  rewrite map2_length; [exact Hrow | congruence].
Qed.

Lemma nth_repeat_0 (n j : nat) : nth j (repeat 0 n) 0 = 0.
Proof.
  revert j; induction n as [|n IH]; intros [|j]; cbn [repeat nth]; try reflexivity.
  apply IH.
Qed.

Lemma nth_sum_axis0 (n : nat) (a : Array2) (j : nat) :
  Forall (fun row => List.length row = n) a -> (j < n)%nat ->
  nth j (sum_axis0 n a) 0 = fold_right Rplus 0 (column j a).
Proof.
  intros Ha Hj; induction Ha as [|row a Hrow Ha IH]; cbn [column map fold_right].
  - apply nth_repeat_0.
  - change (sum_axis0 n (row :: a)) with (map2 Rplus row (sum_axis0 n a)).
    rewrite nth_map2 by (rewrite ?sum_axis0_length by exact Ha; lia).
    rewrite IH; reflexivity.
Qed.

Lemma column_squares (j : nat) (a : Array2) :
  fold_right Rplus 0 (column j (map (map (fun x => x * x)) a)) =
  dot (column j a) (column j a).
Proof.
  induction a as [|row a IH]; cbn [column map fold_right dot]; [reflexivity|].
  unfold column in IH; rewrite IH; f_equal.
  destruct (Nat.lt_ge_cases j (List.length row)) as [Hj|Hj].
  - apply (nth_map_lt (fun x => x * x)); exact Hj.
  - rewrite !nth_overflow by (rewrite ?length_map; lia); ring.
Qed.

Lemma nth_norm_axis0 (n : nat) (a : Array2) (j : nat) :
  Forall (fun row => List.length row = n) a -> (j < n)%nat ->
  nth j (norm_axis0 n a) 0 = norm (column j a).
Proof.
  intros Ha Hj; unfold norm_axis0.
  assert (Hsq : Forall (fun row => List.length row = n) (map (map (fun x => x * x)) a)).
  { apply Forall_map; rewrite Forall_forall in Ha |- *.
    intros row Hrow; rewrite length_map; apply Ha, Hrow. }
  rewrite nth_map_lt by (rewrite sum_axis0_length by exact Hsq; exact Hj).
  rewrite nth_sum_axis0 by assumption.
  rewrite column_squares; reflexivity.
Qed.

Lemma column_div_rows (n : nat) (a : Array2) (v : list R) (j : nat) :
  Forall (fun row => List.length row = n) a -> List.length v = n -> (j < n)%nat ->
  column j (div_rows a v) = vdiv (column j a) (nth j v 0).
Proof.
  intros Ha Hv Hj; unfold column, div_rows, vdiv; rewrite !map_map.
  apply map_ext_in; intros row Hrow.
  rewrite Forall_forall in Ha.
  apply nth_map2; rewrite (Ha row Hrow); [congruence | exact Hj].
Qed.

Lemma div_rows_rows (n : nat) (a : Array2) (v : list R) :
  Forall (fun row => List.length row = n) a -> List.length v = n ->
  Forall (fun row => List.length row = n) (div_rows a v).
Proof.
  intros Ha Hv; apply Forall_map; rewrite Forall_forall in Ha |- *.
  intros row Hrow; rewrite map2_length; [apply Ha, Hrow|].
  rewrite (Ha row Hrow); congruence.
Qed.

Lemma scaled_rows (n : nat) (b : list R) (a : Array2) :
  Forall (fun row => List.length row = n) a ->
  Forall (fun row => List.length row = n) (map2 (fun x row => map (Rmult x) row) b a).
Proof.
  intros Ha; revert b; induction Ha as [|row a Hrow _ IH]; intros [|x b];
    cbn [map2]; constructor; [rewrite length_map; exact Hrow | apply IH].
Qed.

Lemma nth_dot_rows (n : nat) (b : list R) (a : Array2) (j : nat) :
  Forall (fun row => List.length row = n) a -> List.length b = List.length a ->
  (j < n)%nat ->
  nth j (sum_axis0 n (map2 (fun x row => map (Rmult x) row) b a)) 0 =
  dot b (column j a).
Proof.
  intros Ha Hb Hj.
  rewrite nth_sum_axis0 by (try apply scaled_rows; assumption).
  revert b Hb; induction Ha as [|row a Hrow _ IH]; intros [|x b] Hb;
    cbn [List.length] in Hb; try discriminate; [reflexivity|].
  cbn [map2 column map fold_right dot].
  unfold column in IH; rewrite IH by congruence.
  rewrite nth_map_lt by lia; reflexivity.
Qed.

Lemma nth_vscale (k : R) (v : Vector) (i : nat) :
  nth i (vscale k v) 0 = k * nth i v 0.
Proof.
  unfold vscale; revert i; induction v as [|a v IH]; intros [|i]; cbn [map nth];
    try ring; apply IH.
Qed.

Lemma nth_vadd (u v : Vector) (i : nat) :
  List.length u = List.length v -> nth i (vadd u v) 0 = nth i u 0 + nth i v 0.
Proof.
  unfold vadd; revert v i; induction u as [|a u IH]; intros [|b v] [|i] Hl;
    cbn [List.length map2 nth] in *; try discriminate; try ring.
  apply IH; congruence.
Qed.

Lemma nth_vsub (u v : Vector) (i : nat) :
  List.length u = List.length v -> nth i (vsub u v) 0 = nth i u 0 - nth i v 0.
Proof.
  unfold vsub; revert v i; induction u as [|a u IH]; intros [|b v] [|i] Hl;
    cbn [List.length map2 nth] in *; try discriminate; try ring.
  apply IH; congruence.
Qed.

Lemma entry_array_map2 (f : R -> R -> R) (r c : nat) (a b : Array2) (i j : nat) :
  shape r c a -> shape r c b -> (i < r)%nat -> (j < c)%nat ->
  entry i j (array_map2 f a b) = f (entry i j a) (entry i j b).
Proof.
  intros Ha Hb Hi Hj; unfold entry, array_map2.
  pose proof (shape_row r c a i Ha Hi) as Hra.
  pose proof (shape_row r c b i Hb Hi) as Hrb.
  destruct Ha as [Hla _], Hb as [Hlb _].
  assert (Hrow : nth i (map2 (map2 f) a b) [] = map2 f (nth i a []) (nth i b [])).
  { clear Hra Hrb; subst r; revert b i Hlb Hi.
    induction a as [|x a IH]; intros [|y b] i Hlb Hi; cbn [List.length] in *; try lia.
    destruct i as [|i]; cbn [map2 nth]; [reflexivity | apply IH; lia]. }
  rewrite Hrow; apply nth_map2; lia.
Qed.

Lemma shape_array_map2 (f : R -> R -> R) (r c : nat) (a b : Array2) :
  shape r c a -> shape r c b -> shape r c (array_map2 f a b).
Proof.
  intros [Hla Ha] [Hlb Hb]; unfold array_map2; split.
  - rewrite map2_length; congruence.
  - clear Hla Hlb; revert b Hb; induction Ha as [|x a Hx _ IH]; intros b Hb;
      destruct Hb as [|y b Hy Hb]; cbn [map2]; constructor.
    + rewrite map2_length; congruence.
    + apply IH, Hb.
Qed.

Lemma shape_tile (v : list R) (k : nat) : shape k (List.length v) (tile v k).
Proof.
  unfold tile; split; [apply repeat_length|].
  apply Forall_forall; intros row Hrow; apply repeat_spec in Hrow; subst; reflexivity.
Qed.

Lemma entry_tile (v : list R) (k i j : nat) :
  (i < k)%nat -> entry i j (tile v k) = nth j v 0.
Proof.
  intros Hi; unfold entry, tile; f_equal.
  revert i Hi; induction k as [|k IH]; intros [|i] Hi; cbn [repeat nth]; try lia;
    [reflexivity | apply IH; lia].
Qed.

Lemma shape_transpose (n : nat) (a : Array2) :
  shape n (List.length a) (transpose n a).
Proof.
  unfold transpose; split; [rewrite length_map; apply length_seq|].
  apply Forall_map, Forall_forall; intros j _; apply length_map.
Qed.

Lemma entry_transpose_tile (v : list R) (n k i j : nat) :
  (i < n)%nat -> (j < k)%nat -> entry i j (transpose n (tile v k)) = nth i v 0.
Proof.
  intros Hi Hj; unfold entry, transpose.
  rewrite (nth_indep _ [] (map (fun row => nth 0 row 0) (tile v k)))
    by (rewrite length_map, length_seq; exact Hi).
  rewrite (map_nth (fun j0 => map (fun row => nth j0 row 0) (tile v k)) (seq 0 n) 0%nat).
  rewrite seq_nth by exact Hi; cbn [Nat.add].
  unfold tile; revert j Hj; induction k as [|k IH]; intros [|j] Hj; cbn [repeat map nth];
    try lia; [reflexivity | apply IH; lia].
Qed.

Lemma shape_base_matmul (r c : nat) (b0 b1 p q : list R) :
  List.length b0 = r -> List.length b1 = r -> List.length p = c -> List.length q = c ->
  shape r c (base_matmul (b0, b1) (p, q)).
Proof.
  intros H0 H1 Hp Hq; unfold base_matmul; cbn [col0 col1 fst snd]; split.
  - rewrite map2_length; congruence.
  - subst r; revert b1 H1; induction b0 as [|x b0 IH]; intros [|y b1] H1;
      cbn [List.length map2] in *; try discriminate; constructor.
    + rewrite map2_length; congruence.
    + apply IH; congruence.
Qed.

Lemma entry_base_matmul (r c : nat) (b0 b1 p q : list R) (i j : nat) :
  List.length b0 = r -> List.length b1 = r -> List.length p = c -> List.length q = c ->
  (i < r)%nat -> (j < c)%nat ->
  entry i j (base_matmul (b0, b1) (p, q)) =
  nth i b0 0 * nth j p 0 + nth i b1 0 * nth j q 0.
Proof.
  intros H0 H1 Hp Hq Hi Hj; unfold entry, base_matmul; cbn [col0 col1 fst snd].
  assert (Hrow : nth i (map2 (fun x y => map2 (fun p0 q0 => x * p0 + y * q0) p q) b0 b1) []
                 = map2 (fun p0 q0 => nth i b0 0 * p0 + nth i b1 0 * q0) p q).
  { subst r; clear Hp Hq Hj; revert b1 i H1 Hi.
    induction b0 as [|x b0 IH]; intros [|y b1] i H1 Hi; cbn [List.length] in *; try lia.
    destruct i as [|i]; cbn [map2 nth]; [reflexivity | apply IH; lia]. }
  rewrite Hrow; apply nth_map2; lia.
Qed.

Lemma entry_column (r c : nat) (a : Array2) (i j : nat) :
  shape r c a -> (i < r)%nat -> nth i (column j a) 0 = entry i j a.
Proof.
  intros [Hr _] Hi; unfold column, entry.
  rewrite (nth_indep _ 0 (nth j [] 0)) by (rewrite length_map; lia).
  apply (map_nth (fun row => nth j row 0)).
Qed.

End Arrays.

(** X4: [rotate_array], computed as the source does with tiled arrays on
    a [dimension x n_dirs] array, rotates every column as
    [rotate_direction] does: its columns are those of the column-wise
    [rotate_array]. *)
Theorem rotate_array_agrees (directions : Array2) (b0 b1 : Vector) (theta : R)
        (dimension n_dirs : nat) :
  (0 < dimension)%nat -> shape dimension n_dirs directions ->
  List.length b0 = dimension -> List.length b1 = dimension ->
  transpose n_dirs (rotate_array_tiled directions (b0, b1) theta) =
  rotate_array (transpose n_dirs directions) (b0, b1) theta.
Proof.
  intros Hdim Hshape H0 H1.
  pose proof Hshape as [Hrows Hcols].
  assert (Hn : List.length (hd [] directions) = n_dirs).
  { destruct directions as [|row rest]; cbn [List.length] in Hrows; [lia|].
    inversion Hcols; assumption. }
  rewrite rotate_array_columns; unfold transpose at 1 2; rewrite map_map.
  apply map_ext_in; intros j Hj; apply in_seq in Hj; destruct Hj as [_ Hj].
  cbn [Nat.add] in Hj.
  fold (column j (rotate_array_tiled directions (b0, b1) theta)).
  fold (column j directions).
  unfold rotate_array_tiled; cbv zeta; cbn [col0 col1 fst snd]; rewrite Hrows, Hn, H0, H1.
  set (normalised_rows := div_rows directions (norm_axis0 n_dirs directions)).
  assert (Hnl : List.length (norm_axis0 n_dirs directions) = n_dirs).
  { unfold norm_axis0; rewrite length_map, sum_axis0_length; [reflexivity|].
    apply Forall_map; rewrite Forall_forall in Hcols |- *.
    intros row Hrow; rewrite length_map; apply Hcols, Hrow. }
  assert (Hnrows : Forall (fun row => List.length row = n_dirs) normalised_rows)
    by (apply div_rows_rows; assumption).
  assert (Hnshape : shape dimension n_dirs normalised_rows).
  { split; [unfold normalised_rows, div_rows; rewrite length_map; exact Hrows|].
    exact Hnrows. }
  assert (Hcol : column j normalised_rows =
                 vdiv (column j directions) (norm (column j directions))).
  { unfold normalised_rows; rewrite (column_div_rows n_dirs) by assumption.
    rewrite nth_norm_axis0 by assumption; reflexivity. }
  set (d := vdiv (column j directions) (norm (column j directions))) in *.
  assert (Hd : List.length d = dimension)
    by (unfold d, column; rewrite vdiv_length, length_map; exact Hrows).
  unfold dot_base_T; cbn [col0 col1 fst snd].
  set (p := sum_axis0 n_dirs (map2 (fun b row => map (Rmult b) row) b0 normalised_rows)).
  set (q := sum_axis0 n_dirs (map2 (fun b row => map (Rmult b) row) b1 normalised_rows)).
  assert (Hpl : List.length p = n_dirs)
    by (apply sum_axis0_length, scaled_rows; exact Hnrows).
  assert (Hql : List.length q = n_dirs)
    by (apply sum_axis0_length, scaled_rows; exact Hnrows).
  assert (Hp : nth j p 0 = dot b0 d).
  { unfold p; rewrite (nth_dot_rows n_dirs), Hcol; try assumption; [reflexivity|].
    destruct Hnshape; congruence. }
  assert (Hq : nth j q 0 = dot b1 d).
  { unfold q; rewrite (nth_dot_rows n_dirs), Hcol; try assumption; [reflexivity|].
    destruct Hnshape; congruence. }
  set (angles := map2 (fun y x => atan2 y x + theta) q p).
  assert (Hal : List.length angles = n_dirs)
    by (unfold angles; rewrite map2_length; congruence).
  assert (Ha : nth j angles 0 = atan2 (dot b1 d) (dot b0 d) + theta).
  { unfold angles; rewrite nth_map2 by lia; rewrite Hp, Hq; reflexivity. }
  set (scale := map sqrt (sum_axis0 n_dirs [map (fun x => x ^ 2) p;
                                            map (fun x => x ^ 2) q])).
  assert (Hsl : List.length scale = n_dirs).
  { unfold scale; rewrite length_map, sum_axis0_length; [reflexivity|].
    repeat constructor; rewrite length_map; assumption. }
  assert (Hs : nth j scale 0 = sqrt ((dot b0 d) ^ 2 + (dot b1 d) ^ 2)).
  { unfold scale; rewrite nth_map_lt.
    - rewrite nth_sum_axis0;
        [| repeat constructor; rewrite length_map; assumption | exact Hj].
      cbn [column map fold_right].
      rewrite !nth_map_lt by lia; rewrite Hp, Hq; f_equal; ring.
    - rewrite sum_axis0_length; [exact Hj|].
      repeat constructor; rewrite length_map; assumption. }
  assert (Stile : forall v, List.length v = n_dirs ->
                            shape dimension n_dirs (tile v dimension)).
  { intros v Hv; rewrite <- Hv; apply shape_tile. }
  assert (Sbase : forall b, shape dimension n_dirs (transpose dimension (tile b n_dirs))).
  { intros b; replace n_dirs with (List.length (tile b n_dirs)) at 1
      by (unfold tile; apply repeat_length).
    apply shape_transpose. }
  assert (Smul : forall b v, List.length v = n_dirs ->
                             shape dimension n_dirs
                                   (array_map2 Rmult (transpose dimension (tile b n_dirs))
                                               (tile v dimension))).
  { intros b v Hv; apply shape_array_map2; [apply Sbase | apply Stile, Hv]. }
  assert (Sout : shape dimension n_dirs
                       (array_map2 Rplus
                          (array_map2 Rmult (transpose dimension (tile b0 n_dirs))
                                      (tile (map cos angles) dimension))
                          (array_map2 Rmult (transpose dimension (tile b1 n_dirs))
                                      (tile (map sin angles) dimension))))
    by (apply shape_array_map2; apply Smul; rewrite length_map; exact Hal).
  assert (Sprod : shape dimension n_dirs (base_matmul (b0, b1) (p, q)))
    by (apply shape_base_matmul; assumption).
  assert (Sres : shape dimension n_dirs
                       (array_map2 Rplus
                          (array_map2 Rmult
                             (array_map2 Rplus
                                (array_map2 Rmult (transpose dimension (tile b0 n_dirs))
                                            (tile (map cos angles) dimension))
                                (array_map2 Rmult (transpose dimension (tile b1 n_dirs))
                                            (tile (map sin angles) dimension)))
                             (tile scale dimension))
                          (array_map2 Rminus normalised_rows
                                      (base_matmul (b0, b1) (p, q))))).
  { apply shape_array_map2; apply shape_array_map2; try assumption.
    apply Stile, Hsl. }
  assert (Hrl : List.length (rotate_direction (column j directions) (b0, b1) theta)
                = dimension).
  { unfold rotate_direction; cbv zeta; cbn [col0 col1 fst snd]; fold d.
    unfold vadd, vsub, vscale.
    repeat rewrite ?map2_length_min, ?length_map; lia. }
  apply (nth_ext _ _ 0 0).
  - rewrite Hrl; unfold column; rewrite length_map; apply (proj1 Sres).
  - intros i Hi; unfold column in Hi; rewrite length_map, (proj1 Sres) in Hi.
    pose proof Hi as Hi'.
    rewrite (entry_column dimension n_dirs) by
        (try apply shape_array_map2; try apply shape_array_map2;
         try apply Stile; assumption).
    rewrite (entry_array_map2 _ dimension n_dirs);
      try (apply shape_array_map2; try apply Stile); try assumption.
    rewrite (entry_array_map2 _ dimension n_dirs);
      try apply Stile; try assumption.
    rewrite (entry_array_map2 _ dimension n_dirs); try assumption;
      try (apply Smul; rewrite length_map; exact Hal).
    rewrite !(entry_array_map2 _ dimension n_dirs); try assumption;
      try apply Sbase; try (apply Stile; rewrite ?length_map; assumption).
    rewrite !entry_transpose_tile, !entry_tile by assumption.
    rewrite (entry_base_matmul dimension n_dirs) by assumption.
    rewrite <- (entry_column dimension n_dirs normalised_rows i j Hnshape Hi'), Hcol.
    rewrite !nth_map_lt by lia; rewrite Ha, Hs, Hp, Hq.
    unfold rotate_direction; cbv zeta; cbn [col0 col1 fst snd]; fold d.
    rewrite nth_vadd, nth_vscale, nth_vadd, !nth_vscale, nth_vsub, nth_vadd, !nth_vscale;
      try (unfold vadd, vsub, vscale;
           repeat rewrite ?map2_length, ?length_map; congruence).
    ring.
Qed.

Lemma rotate_array_agrees_witness :
  transpose 2 (rotate_array_tiled [[1; 0]; [0; 1]] ([1; 0], [0; 1]) (PI / 2)) =
  rotate_array (transpose 2 [[1; 0]; [0; 1]]) ([1; 0], [0; 1]) (PI / 2).
Proof.
  apply (rotate_array_agrees [[1; 0]; [0; 1]] [1; 0] [0; 1] (PI / 2) 2 2).
  - lia.
  - split; [reflexivity | repeat constructor].
  - reflexivity.
  - reflexivity.
Defined.

(** ** Dictionaries of the graph *)

Section Dict.

Context {A : Type}.

Lemma lookup_update_same (key : NodeType) (f : A -> A) (d : list (NodeType * A)) :
  lookup key (update key f d) = option_map f (lookup key d).
Proof.
  induction d as [|[k v] d IH]; cbn [update lookup]; [reflexivity|].
  destruct (k =? key)%Z eqn:Hk; cbn [lookup]; rewrite Hk; [reflexivity | exact IH].
Qed.

Lemma lookup_app (key : NodeType) (d d' : list (NodeType * A)) :
  lookup key (d ++ d') =
  match lookup key d with Some v => Some v | None => lookup key d' end.
Proof.
  induction d as [|[k v] d IH]; cbn [app lookup]; [reflexivity|].
  destruct (k =? key)%Z; [reflexivity | exact IH].
Qed.

Lemma lookup_store_same (key : NodeType) (value : A) (d : list (NodeType * A)) :
  lookup key (store key value d) = Some value.
Proof.
  unfold store; destruct (lookup key d) eqn:Hl.
  - rewrite lookup_update_same, Hl; reflexivity.
  - rewrite lookup_app, Hl; cbn [lookup]; rewrite Z.eqb_refl; reflexivity.
Qed.

Lemma lookup_store_other (key key' : NodeType) (value : A) (d : list (NodeType * A)) :
  key <> key' -> lookup key (store key' value d) = lookup key d.
Proof.
  intros Hne; unfold store; destruct (lookup key' d).
  - apply lookup_update_other; exact Hne.
  - rewrite lookup_app; destruct (lookup key d); [reflexivity|].
    cbn [lookup]; destruct (key' =? key)%Z eqn:Hk; [| reflexivity].
    apply Z.eqb_eq in Hk; congruence.
Qed.

Lemma lookup_None_not_key (key : NodeType) (d : list (NodeType * A)) :
  lookup key d = None <-> ~ In key (map fst d).
Proof.
  induction d as [|[k v] d IH]; cbn [lookup map fst In]; [tauto|].
  destruct (k =? key)%Z eqn:Hk.
  - apply Z.eqb_eq in Hk; split; [discriminate | intros H; exfalso; apply H; left; exact Hk].
  - apply Z.eqb_neq in Hk; rewrite IH; tauto.
Qed.

Lemma update_keys (key : NodeType) (f : A -> A) (d : list (NodeType * A)) :
  map fst (update key f d) = map fst d.
Proof.
  induction d as [|[k v] d IH]; cbn [update map fst]; [reflexivity|].
  destruct (k =? key)%Z; cbn [map fst]; [reflexivity | rewrite IH; reflexivity].
Qed.

Lemma store_fresh_keys (key : NodeType) (value : A) (d : list (NodeType * A)) :
  lookup key d = None -> map fst (store key value d) = map fst d ++ [key].
Proof. intros H; unfold store; rewrite H, map_app; reflexivity. Qed.

Lemma lookup_In (key : NodeType) (value : A) (d : list (NodeType * A)) :
  NoDup (map fst d) -> In (key, value) d -> lookup key d = Some value.
Proof.
  induction d as [|[k v] d IH]; cbn [map fst lookup]; intros Hnd []; inversion Hnd; subst.
  - injection H as -> ->; rewrite Z.eqb_refl; reflexivity.
  - destruct (k =? key)%Z eqn:Hk; [| apply IH; assumption].
    apply Z.eqb_eq in Hk; subst k.
    exfalso; apply H2, in_map_iff; exists (key, value); split; [reflexivity | exact H].
Qed.

End Dict.

(** ** [VectorRotationTree.add_node] *)

Section TreeErrors.

(** X11: [add_node] under a parent that is not in the tree raises the
    [KeyError] of the parent's id, and a direction opposite to the parent's
    direction (dot product [-1]) raises the [ValueError] for antiparallel
    vectors; in both cases nothing is stored. *)
Theorem add_node_errors (self : DiGraph) (node_id parent_id : NodeType)
        (direction : Vector) (rotation_limit : R) :
  (lookup parent_id (nodes self) = None ->
   add_node self node_id direction parent_id rotation_limit =
   Raise (KeyError parent_id))
  /\ (forall parent,
         get_node self parent_id = Ok parent ->
         List.length (Rotation.direction parent) = List.length direction ->
         dot (Rotation.direction parent) direction = -1 ->
         add_node self node_id direction parent_id rotation_limit =
         Raise antiparallel_error).
Proof.
  split.
  - intros Hp; unfold add_node, get_node; rewrite Hp; reflexivity.
  - intros parent Hp Hl Hd; unfold add_node; rewrite Hp; cbn [Py.bind].
    rewrite from_directions_same_length by exact Hl; cbv zeta.
    destruct (Req_dec_T _ (-1)); [reflexivity | contradiction].
Qed.

Lemma add_node_errors_witness :
  add_node (tree_init 0%Z [0; 1]) 2%Z [1; 0] 1%Z default_rotation_limit =
  Raise (KeyError 1%Z)
  /\ add_node (tree_init 0%Z [0; 1]) 1%Z [0; -1] 0%Z default_rotation_limit =
     Raise antiparallel_error.
Proof.
  split.
  - apply add_node_errors; reflexivity.
  - eapply (proj2 (add_node_errors _ _ _ _ _)); [reflexivity | reflexivity|].
    cbn [Rotation.direction dot]; lra.
Defined.

End TreeErrors.

Section TreeInvariant.

Lemma tree_init_invariant (root_id : NodeType) (root_direction : Vector) :
  tree_invariant (tree_init root_id root_direction).
Proof.
  unfold tree_init, graph_add_node; cbn [succ lookup store nodes app].
  constructor; cbn [nodes succ].
  - repeat constructor; intros [].
  - intros node; cbn [lookup]; destruct (root_id =? node)%Z; split; congruence.
  - intros u v; unfold successors; cbn [succ lookup].
    destruct (root_id =? u)%Z; intros [].
  - intros u; unfold successors; cbn [succ lookup].
    destruct (root_id =? u)%Z; constructor.
  - intros u u' v; unfold successors; cbn [succ lookup].
    destruct (root_id =? u)%Z; intros [].
  - intros u v; unfold successors; cbn [succ lookup].
    destruct (root_id =? u)%Z; intros [].
Qed.

(** A call of [add_node] that returns has taken the branch without
    clipping. *)
Lemma add_node_ok_inv (self tree : DiGraph) (node_id parent_id : NodeType)
      (direction : Vector) (rotation_limit : R) (warnings : list warning) :
  add_node self node_id direction parent_id rotation_limit = Ok (tree, warnings) ->
  exists parent r,
    get_node self parent_id = Ok parent
    /\ from_directions (Rotation.direction parent) direction = Ok r
    /\ warnings = []
    /\ tree =
       graph_add_edge
         (graph_add_node self node_id
            {| level := level parent + 1;
               direction := direction;
               weight := 0;
               orientation := new_object r |})
         parent_id node_id.
Proof.
  unfold add_node.
  destruct (get_node self parent_id) as [parent|e] eqn:Hp; cbn [Py.bind];
    [| discriminate].
  destruct (from_directions (Rotation.direction parent) direction) as [r|e] eqn:Hr;
    cbn [Py.bind]; [| discriminate].
  destruct (truthy rotation_limit && _); cbn [Py.bind getattr_array String.eqb];
    [discriminate|].
  intros [= <- <-]; exists parent, r; repeat split; assumption.
Qed.

Lemma successors_add_edge (graph : DiGraph) (u v node : NodeType) :
  successors (graph_add_edge graph u v) node =
  if (node =? u)%Z
  then match lookup u (succ graph) with
       | Some l => if existsb (Z.eqb v) l then l else l ++ [v]
       | None => []
       end
  else successors graph node.
Proof.
  unfold successors, graph_add_edge; cbn [succ].
  destruct (node =? u)%Z eqn:Hn.
  - apply Z.eqb_eq in Hn; subst node.
    rewrite lookup_update_same; destruct (lookup u (succ graph)); reflexivity.
  - apply Z.eqb_neq in Hn; rewrite lookup_update_other by exact Hn; reflexivity.
Qed.

Lemma existsb_eqb_false (v : NodeType) (l : list NodeType) :
  ~ In v l -> existsb (Z.eqb v) l = false.
Proof.
  intros Hn; apply not_true_is_false; intros H.
  apply existsb_exists in H as (x & Hin & Hx).
  apply Z.eqb_eq in Hx; subst x; contradiction.
Qed.

Section AddFresh.

Variable self : DiGraph.
Variables node_id parent_id : NodeType.
Variable parent data : NodeData.
Hypothesis invariant : tree_invariant self.
Hypothesis fresh : lookup node_id (nodes self) = None.
Hypothesis parent_found : get_node self parent_id = Ok parent.

Let tree : DiGraph :=
  graph_add_edge (graph_add_node self node_id data) parent_id node_id.

Lemma parent_lookup : lookup parent_id (nodes self) = Some parent.
Proof.
  pose proof parent_found as H; unfold get_node in H.
  destruct (lookup parent_id (nodes self)); congruence.
Qed.

Lemma parent_not_new : parent_id <> node_id.
Proof.
  intros Heq; pose proof parent_lookup as H; rewrite Heq in H; congruence.
Qed.

Lemma add_fresh_nodes (k : NodeType) :
  lookup k (nodes tree) =
  if (k =? node_id)%Z then Some data else lookup k (nodes self).
Proof.
  unfold tree, graph_add_edge, graph_add_node; cbn [nodes].
  destruct (k =? node_id)%Z eqn:Hk.
  - apply Z.eqb_eq in Hk; subst k; apply lookup_store_same.
  - apply Z.eqb_neq in Hk; apply lookup_store_other; exact Hk.
Qed.

Lemma new_not_successor (u : NodeType) : ~ In node_id (successors self u).
Proof.
  intros Hin; apply (successors_are_nodes self invariant) in Hin.
  apply Hin; exact fresh.
Qed.

Lemma add_fresh_successors (k : NodeType) :
  successors tree k =
  if (k =? parent_id)%Z then successors self parent_id ++ [node_id]
  else if (k =? node_id)%Z then [] else successors self k.
Proof.
  pose proof (proj1 (adjacency_of_nodes self invariant node_id) fresh) as Hfs.
  unfold tree; rewrite successors_add_edge.
  unfold graph_add_node; cbn [succ]; rewrite Hfs.
  destruct (k =? parent_id)%Z eqn:Hk.
  - rewrite lookup_app.
    destruct (lookup parent_id (succ self)) as [l|] eqn:Hl.
    + assert (Hs : successors self parent_id = l)
        by (unfold successors; rewrite Hl; reflexivity).
      rewrite Hs, existsb_eqb_false; [reflexivity|].
      rewrite <- Hs; apply new_not_successor.
    + apply (adjacency_of_nodes self invariant) in Hl.
      pose proof parent_lookup; congruence.
  - unfold successors; cbn [succ]; rewrite lookup_app.
    destruct (lookup k (succ self)) as [l|] eqn:Hl.
    + destruct (k =? node_id)%Z eqn:Hkn; [| reflexivity].
      apply Z.eqb_eq in Hkn; congruence.
    + cbn [lookup]; rewrite Z.eqb_sym.
      destruct (k =? node_id)%Z; reflexivity.
Qed.

Lemma add_fresh_adjacency (k : NodeType) :
  lookup k (nodes tree) = None <-> lookup k (succ tree) = None.
Proof.
  pose proof (proj1 (adjacency_of_nodes self invariant node_id) fresh) as Hfs.
  rewrite add_fresh_nodes.
  unfold tree, graph_add_edge, graph_add_node; cbn [succ]; rewrite Hfs.
  assert (Hup : forall f, lookup k (update parent_id f (succ self ++ [(node_id, [])]))
                          = None
                          <-> lookup k (succ self ++ [(node_id, [])]) = None).
  { intros f; destruct (Z.eq_dec k parent_id) as [->|Hne].
    - rewrite lookup_update_same.
      destruct (lookup parent_id _); cbn [option_map]; split; congruence.
    - rewrite lookup_update_other by exact Hne; tauto. }
  rewrite Hup, lookup_app.
  destruct (k =? node_id)%Z eqn:Hk.
  - apply Z.eqb_eq in Hk; subst k; rewrite Hfs.
    cbn [lookup]; rewrite Z.eqb_refl; split; congruence.
  - rewrite (adjacency_of_nodes self invariant k).
    destruct (lookup k (succ self)); [split; congruence|].
    cbn [lookup]; rewrite Z.eqb_sym, Hk; tauto.
Qed.

Lemma add_fresh_level (k : NodeType) :
  level_of tree k = if (k =? node_id)%Z then level data else level_of self k.
Proof.
  unfold level_of; rewrite add_fresh_nodes.
  destruct (k =? node_id)%Z; reflexivity.
Qed.

(** Adding a new node under a node of the tree keeps the tree a tree, when
    the new node gets the level after the level of its parent. *)
Lemma add_fresh_invariant :
  level data = (level parent + 1)%Z -> tree_invariant tree.
Proof.
  intros Hlevel.
  pose proof parent_not_new as Hpn.
  assert (Hpl : level_of self parent_id = level parent)
    by (unfold level_of; rewrite parent_lookup; reflexivity).
  constructor.
  - unfold tree, graph_add_edge, graph_add_node; cbn [nodes].
    rewrite store_fresh_keys by exact fresh.
    apply NoDup_app; [apply (nodes_once self invariant) | repeat constructor; intros [] |].
    intros x Hin [<-|[]]; apply lookup_None_not_key in fresh; contradiction.
  - apply add_fresh_adjacency.
  - intros u v; rewrite add_fresh_successors; unfold is_node.
    rewrite add_fresh_nodes.
    destruct (v =? node_id)%Z eqn:Hv; [congruence|].
    destruct (u =? parent_id)%Z.
    + intros Hin; apply in_app_or in Hin as [Hin|[<-|[]]].
      * apply (successors_are_nodes self invariant _ _ Hin).
      * rewrite Z.eqb_refl in Hv; discriminate.
    + destruct (u =? node_id)%Z; [intros [] |].
      apply (successors_are_nodes self invariant).
  - intros u; rewrite add_fresh_successors.
    destruct (u =? parent_id)%Z.
    + apply NoDup_app;
        [apply (successors_once self invariant) | repeat constructor; intros [] |].
      intros x Hin [<-|[]]; apply (new_not_successor _ Hin).
    + destruct (u =? node_id)%Z; [constructor | apply (successors_once self invariant)].
  - intros u u' v; rewrite !add_fresh_successors.
    destruct (u =? parent_id)%Z eqn:Hu; destruct (u' =? parent_id)%Z eqn:Hu'.
    + apply Z.eqb_eq in Hu, Hu'; congruence.
    + apply Z.eqb_eq in Hu; subst u.
      destruct (u' =? node_id)%Z; [intros _ [] |].
      intros Hin Hin'; apply in_app_or in Hin as [Hin|[<-|[]]].
      * apply (one_parent self invariant _ _ _ Hin Hin').
      * exfalso; apply (new_not_successor _ Hin').
    + apply Z.eqb_eq in Hu'; subst u'.
      destruct (u =? node_id)%Z; [intros [] |].
      intros Hin Hin'; apply in_app_or in Hin' as [Hin'|[<-|[]]].
      * apply (one_parent self invariant _ _ _ Hin Hin').
      * exfalso; apply (new_not_successor _ Hin).
    + destruct (u =? node_id)%Z; [intros [] |].
      destruct (u' =? node_id)%Z; [intros _ [] |].
      apply (one_parent self invariant).
  - intros u v; rewrite add_fresh_successors, !add_fresh_level.
    destruct (u =? parent_id)%Z eqn:Hu.
    + apply Z.eqb_eq in Hu; subst u.
      assert (Hpn' : (parent_id =? node_id)%Z = false) by (apply Z.eqb_neq; exact Hpn).
      rewrite Hpn'.
      intros Hin; apply in_app_or in Hin as [Hin|[<-|[]]].
      * destruct (v =? node_id)%Z eqn:Hv.
        -- apply Z.eqb_eq in Hv; subst v; exfalso; apply (new_not_successor _ Hin).
        -- apply (child_level self invariant _ _ Hin).
      * rewrite Z.eqb_refl, Hlevel, Hpl; reflexivity.
    + destruct (u =? node_id)%Z; [intros [] |].
      intros Hin.
      destruct (v =? node_id)%Z eqn:Hv.
      * apply Z.eqb_eq in Hv; subst v; exfalso; apply (new_not_successor _ Hin).
      * apply (child_level self invariant _ _ Hin).
Qed.

End AddFresh.

(** X12: a call of [add_node] that returns, for an id that is new to the
    tree, emits no warning and stores the node with the level after the
    parent's, the direction given, the weight [0] and the rotation from the
    parent's direction; the node is appended to the successors of its parent
    and has none itself, and the other nodes and edges are as before. *)
Theorem add_node_stores_node (self tree : DiGraph) (node_id parent_id : NodeType)
        (direction : Vector) (rotation_limit : R) (warnings : list warning) :
  tree_invariant self ->
  lookup node_id (nodes self) = None ->
  add_node self node_id direction parent_id rotation_limit = Ok (tree, warnings) ->
  warnings = []
  /\ (exists parent r,
         get_node self parent_id = Ok parent
         /\ from_directions (Rotation.direction parent) direction = Ok r
         /\ get_node tree node_id =
            Ok {| level := level parent + 1;
                  direction := direction;
                  weight := 0;
                  orientation := new_object r |})
  /\ successors tree parent_id = successors self parent_id ++ [node_id]
  /\ successors tree node_id = []
  /\ (forall other, other <> node_id -> get_node tree other = get_node self other)
  /\ (forall other, other <> parent_id -> other <> node_id ->
                    successors tree other = successors self other).
Proof.
  intros Hinv Hfresh Hadd.
  apply add_node_ok_inv in Hadd as (parent & r & Hp & Hr & -> & ->).
  pose proof (parent_not_new self node_id parent_id parent Hfresh Hp) as Hpn.
  split; [reflexivity|].
  split; [exists parent, r; split; [exact Hp | split; [exact Hr|]] |].
  - unfold get_node; rewrite add_fresh_nodes, Z.eqb_refl; reflexivity.
  - split; [| split; [| split]].
    + rewrite (add_fresh_successors self node_id parent_id parent) by assumption.
      rewrite Z.eqb_refl; reflexivity.
    + rewrite (add_fresh_successors self node_id parent_id parent) by assumption.
      replace (node_id =? parent_id)%Z with false
        by (symmetry; apply Z.eqb_neq; congruence).
      rewrite Z.eqb_refl; reflexivity.
    + intros other Ho; unfold get_node; rewrite add_fresh_nodes.
      replace (other =? node_id)%Z with false by (symmetry; apply Z.eqb_neq; exact Ho).
      reflexivity.
    + intros other Hop Hon.
      rewrite (add_fresh_successors self node_id parent_id parent) by assumption.
      replace (other =? parent_id)%Z with false by (symmetry; apply Z.eqb_neq; exact Hop).
      replace (other =? node_id)%Z with false by (symmetry; apply Z.eqb_neq; exact Hon).
      reflexivity.
Qed.

(** X13: the tree of [__init__] is a forest with levels (every node once,
    successors are nodes, at most one predecessor, the level of a successor
    is the level of its predecessor plus one), and a call of [add_node] that
    returns, for an id that is new to the tree, keeps it one. *)
Theorem add_node_keeps_tree :
  (forall root_id root_direction, tree_invariant (tree_init root_id root_direction))
  /\ (forall self tree node_id parent_id direction rotation_limit warnings,
         tree_invariant self ->
         lookup node_id (nodes self) = None ->
         add_node self node_id direction parent_id rotation_limit = Ok (tree, warnings) ->
         tree_invariant tree).
Proof.
  split; [apply tree_init_invariant|].
  intros self tree node_id parent_id direction rotation_limit warnings Hinv Hfresh Hadd.
  apply add_node_ok_inv in Hadd as (parent & r & Hp & Hr & -> & ->).
  apply (add_fresh_invariant self node_id parent_id parent); try assumption.
  reflexivity.
Qed.

Lemma first_add_node :
  add_node (tree_init 0%Z [0; 1]) 1%Z [1; 0] 0%Z default_rotation_limit =
  Ok (graph_add_edge
        (graph_add_node (tree_init 0%Z [0; 1]) 1%Z (test_node 1 [0; 1] [1; 0]))
        0%Z 1%Z, []).
Proof.
  rewrite (add_node_within_limit
             (tree_init 0%Z [0; 1]) 1%Z 0%Z [1; 0] default_rotation_limit
             {| level := 0; direction := [0; 1]; weight := 0;
                orientation :=
                  new_object {| base := ([0; 1], [0; 1]); rotation_angle := 0 |} |}
             (built_rotation [0; 1] [1; 0]));
    [ reflexivity
    | reflexivity
    | apply from_directions_ok; [reflexivity | cbn [Rotation.direction dot]; lra]
    | cbn [built_rotation rotation_angle Rotation.direction dot];
      apply acos_within_limit; lra ].
Qed.

Lemma add_node_stores_node_witness :
  successors
    (graph_add_edge
       (graph_add_node (tree_init 0%Z [0; 1]) 1%Z (test_node 1 [0; 1] [1; 0]))
       0%Z 1%Z) 0%Z = [1%Z].
Proof.
  apply (add_node_stores_node (tree_init 0%Z [0; 1]) _ 1%Z 0%Z [1; 0]
                              default_rotation_limit []).
  - apply tree_init_invariant.
  - reflexivity.
  - exact first_add_node.
Defined.

Lemma add_node_keeps_tree_witness :
  tree_invariant
    (graph_add_edge
       (graph_add_node (tree_init 0%Z [0; 1]) 1%Z (test_node 1 [0; 1] [1; 0]))
       0%Z 1%Z).
Proof.
  apply (proj2 add_node_keeps_tree (tree_init 0%Z [0; 1]) _ 1%Z 0%Z [1; 0]
               default_rotation_limit []).
  - apply (proj1 add_node_keeps_tree).
  - reflexivity.
  - exact first_add_node.
Defined.

Lemma successors_add_node (graph : DiGraph) (node_id : NodeType) (data : NodeData)
      (u : NodeType) :
  successors (graph_add_node graph node_id data) u = successors graph u.
Proof.
  unfold successors, graph_add_node; cbn [succ].
  destruct (lookup node_id (succ graph)) eqn:Hn; [reflexivity|].
  rewrite lookup_app; destruct (lookup u (succ graph)); [reflexivity|].
  cbn [lookup]; destruct (node_id =? u)%Z; reflexivity.
Qed.

(** X14: [add_node] with the id of a node that is in the tree already, under
    another parent, replaces the attributes of the node but leaves the edge
    from its former parent: the node ends up a successor of both, and the
    graph is no longer a tree. *)
Theorem add_node_existing_id (self tree : DiGraph) (node_id parent_id old_parent : NodeType)
        (direction : Vector) (rotation_limit : R) (warnings : list warning) :
  tree_invariant self ->
  In node_id (successors self old_parent) ->
  old_parent <> parent_id ->
  add_node self node_id direction parent_id rotation_limit = Ok (tree, warnings) ->
  In node_id (successors tree old_parent)
  /\ In node_id (successors tree parent_id)
  /\ ~ tree_invariant tree
  /\ exists data,
      get_node tree node_id = Ok data /\ Rotation.direction data = direction.
Proof.
  intros Hinv Hold Hne Hadd.
  apply add_node_ok_inv in Hadd as (parent & r & Hp & Hr & -> & ->).
  assert (Hboth : In node_id (successors
                                (graph_add_edge
                                   (graph_add_node self node_id
                                      {| level := level parent + 1;
                                         direction := direction;
                                         weight := 0;
                                         orientation := new_object r |})
                                   parent_id node_id) old_parent)
                  /\ In node_id (successors
                                   (graph_add_edge
                                      (graph_add_node self node_id
                                         {| level := level parent + 1;
                                            direction := direction;
                                            weight := 0;
                                            orientation := new_object r |})
                                      parent_id node_id) parent_id)).
  { rewrite !successors_add_edge, Z.eqb_refl.
    replace (old_parent =? parent_id)%Z with false
      by (symmetry; apply Z.eqb_neq; exact Hne).
    rewrite successors_add_node; split; [exact Hold|].
    assert (Hadj : lookup parent_id (succ self) <> None).
    { intros Hnone; apply (adjacency_of_nodes _ Hinv) in Hnone.
      unfold get_node in Hp; rewrite Hnone in Hp; discriminate. }
    assert (Hnode : lookup node_id (succ self) <> None).
    { intros Hnone; apply (adjacency_of_nodes _ Hinv) in Hnone.
      apply (successors_are_nodes _ Hinv) in Hold; contradiction. }
    unfold graph_add_node; cbn [succ].
    destruct (lookup node_id (succ self)) as [l0|]; [| contradiction].
    destruct (lookup parent_id (succ self)) as [l|]; [| contradiction].
    destruct (existsb (Z.eqb node_id) l) eqn:He.
    - apply existsb_exists in He as (x & Hx & Hxe).
      apply Z.eqb_eq in Hxe; subst x; exact Hx.
    - apply in_or_app; right; left; reflexivity. }
  destruct Hboth as [H1 H2].
  split; [exact H1|]; split; [exact H2|]; split.
  - intros Htree; apply Hne, (one_parent _ Htree _ _ _ H1 H2).
  - eexists; split.
    + unfold get_node, graph_add_edge, graph_add_node; cbn [nodes].
      rewrite lookup_store_same; reflexivity.
    + reflexivity.
Qed.

Lemma test_tree_successors (u : NodeType) :
  successors test_tree u =
  if (0 =? u)%Z then [1; 3]%Z
  else if (1 =? u)%Z then [2%Z]
       else if (2 =? u)%Z then []
            else if (3 =? u)%Z then [4%Z] else [].
Proof.
  unfold successors, test_tree; cbn [succ lookup].
  repeat (destruct (_ =? u)%Z; [reflexivity|]); reflexivity.
Qed.

Ltac eqb_facts :=
  repeat match goal with
         | H : (_ =? _)%Z = true |- _ => apply Z.eqb_eq in H
         | H : (_ =? _)%Z = false |- _ => apply Z.eqb_neq in H
         end.

Lemma test_tree_invariant : tree_invariant test_tree.
Proof.
  constructor.
  - cbn [test_tree nodes map fst].
    repeat (constructor; [cbn [In]; lia|]); constructor.
  - intros node; cbn [test_tree nodes succ lookup].
    repeat (destruct (_ =? node)%Z; [split; discriminate|]); tauto.
  - intros u v; rewrite test_tree_successors; unfold is_node.
    repeat (destruct (_ =? u)%Z); cbn [In]; intros H;
      repeat (destruct H as [<-|H]; [cbn; discriminate|]); destruct H.
  - intros u; rewrite test_tree_successors.
    repeat (destruct (_ =? u)%Z);
      repeat (constructor; [cbn [In]; lia|]); constructor.
  - intros u u' v; rewrite !test_tree_successors.
    destruct (0 =? u)%Z eqn:?; destruct (1 =? u)%Z eqn:?; destruct (2 =? u)%Z eqn:?;
      destruct (3 =? u)%Z eqn:?; destruct (0 =? u')%Z eqn:?; destruct (1 =? u')%Z eqn:?;
      destruct (2 =? u')%Z eqn:?; destruct (3 =? u')%Z eqn:?;
      eqb_facts; cbn [In]; lia.
  - intros u v; rewrite test_tree_successors.
    destruct (0 =? u)%Z eqn:?; [| destruct (1 =? u)%Z eqn:?;
      [| destruct (2 =? u)%Z eqn:?; [| destruct (3 =? u)%Z eqn:?]]];
      eqb_facts; subst; cbn [In]; intros H;
      repeat (destruct H as [<-|H]; [reflexivity|]); destruct H.
Qed.

Lemma add_node_existing_id_witness :
  exists tree,
    add_node test_tree 2%Z [0; 1] 3%Z default_rotation_limit = Ok (tree, [])
    /\ In 2%Z (successors tree 1%Z)
    /\ In 2%Z (successors tree 3%Z)
    /\ ~ tree_invariant tree.
Proof.
  assert (Hadd : add_node test_tree 2%Z [0; 1] 3%Z default_rotation_limit =
                 Ok (graph_add_edge
                       (graph_add_node test_tree 2%Z (test_node 2 [-1; 0] [0; 1]))
                       3%Z 2%Z, [])).
  { rewrite (add_node_within_limit test_tree 2%Z 3%Z [0; 1] default_rotation_limit
               (test_node 1 [0; 1] [-1; 0]) (built_rotation [-1; 0] [0; 1]));
      [ reflexivity
      | reflexivity
      | apply from_directions_ok; [reflexivity | cbn [Rotation.direction test_node dot]; lra]
      | cbn [built_rotation rotation_angle Rotation.direction test_node dot];
        apply acos_within_limit; lra ]. }
  eexists; split; [exact Hadd|].
  destruct (add_node_existing_id
              test_tree
              (graph_add_edge
                 (graph_add_node test_tree 2%Z (test_node 2 [-1; 0] [0; 1])) 3%Z 2%Z)
              2%Z 3%Z 1%Z [0; 1] default_rotation_limit []
              test_tree_invariant) as (H1 & H2 & H3 & _).
  - rewrite test_tree_successors; left; reflexivity.
  - lia.
  - exact Hadd.
  - split; [exact H1 | split; [exact H2 | exact H3]].
Defined.

End TreeInvariant.

(** ** [VectorRotationTree.get_sorted_nodes] and [get_weighted_mean] *)

Section SortedNodes.

Lemma insert_by_level_perm (x : NodeType * Z) (l : list (NodeType * Z)) :
  Permutation (insert_by_level x l) (x :: l).
Proof.
  induction l as [|y l IH]; cbn [insert_by_level]; [reflexivity|].
  destruct (snd x <? snd y)%Z; [reflexivity|].
  rewrite IH; apply perm_swap.
Qed.

Lemma insert_by_level_sorted (x : NodeType * Z) (l : list (NodeType * Z)) :
  StronglySorted level_le l -> StronglySorted level_le (insert_by_level x l).
Proof.
  induction 1 as [|y l Hs IH Hy]; cbn [insert_by_level];
    [repeat constructor|].
  destruct (snd x <? snd y)%Z eqn:Hxy.
  - apply Z.ltb_lt in Hxy.
    constructor; [constructor; assumption|].
    constructor; [unfold level_le; lia|].
    rewrite Forall_forall in Hy |- *; intros z Hz.
    specialize (Hy z Hz); unfold level_le in *; lia.
  - apply Z.ltb_ge in Hxy.
    constructor; [exact IH|].
    rewrite Forall_forall in Hy |- *; intros z Hz.
    apply (Permutation_in _ (insert_by_level_perm x l)) in Hz as [<-|Hz];
      [exact Hxy | apply Hy, Hz].
Qed.

Lemma sort_from_spec (l acc : list (NodeType * Z)) :
  StronglySorted level_le acc ->
  let sorted := fold_left (fun sorted x => insert_by_level x sorted) l acc in
  Permutation sorted (l ++ acc) /\ StronglySorted level_le sorted.
Proof.
  revert acc; induction l as [|x l IH]; intros acc Hacc; cbn [fold_left app].
  - split; [reflexivity | exact Hacc].
  - destruct (IH (insert_by_level x acc) (insert_by_level_sorted x acc Hacc))
      as [Hp Hs].
    split; [| exact Hs].
    cbv zeta in *; rewrite Hp, insert_by_level_perm.
    symmetry; apply Permutation_middle.
Qed.

Lemma sort_by_level_spec (l : list (NodeType * Z)) :
  Permutation (sort_by_level l) l /\ StronglySorted level_le (sort_by_level l).
Proof.
  destruct (sort_from_spec l [] (SSorted_nil _)) as [Hp Hs].
  cbv zeta in *; rewrite app_nil_r in Hp; split; assumption.
Qed.

Lemma StronglySorted_map {A B : Type} (R : B -> B -> Prop) (f : A -> B) (l : list A) :
  StronglySorted (fun a b => R (f a) (f b)) l -> StronglySorted R (map f l).
Proof.
  induction 1 as [|a l Hs IH Ha]; cbn [map]; constructor; [exact IH|].
  apply Forall_map; exact Ha.
Qed.

Lemma level_pairs_level_of (graph : DiGraph) (pair : NodeType * Z) :
  NoDup (map fst (nodes graph)) ->
  In pair (map (fun kv => (fst kv, level (snd kv))) (nodes graph)) ->
  snd pair = level_of graph (fst pair).
Proof.
  intros Hnd Hin; apply in_map_iff in Hin as ([k data] & <- & Hin).
  cbn [fst snd]; unfold level_of.
  rewrite (lookup_In k data (nodes graph) Hnd Hin); reflexivity.
Qed.

Lemma sorted_nodes_spec (self : DiGraph) :
  NoDup (map fst (nodes self)) ->
  Permutation (get_sorted_nodes self) (map fst (nodes self))
  /\ StronglySorted (fun a b => (level_of self a <= level_of self b)%Z)
                    (get_sorted_nodes self).
Proof.
  intros Hnd; unfold get_sorted_nodes.
  set (pairs := map (fun kv => (fst kv, level (snd kv))) (nodes self)).
  destruct (sort_by_level_spec pairs) as [Hp Hs]; split.
  - rewrite Hp; unfold pairs; rewrite map_map; cbn [fst]; reflexivity.
  - assert (Hlev : forall pair, In pair (sort_by_level pairs) ->
                                snd pair = level_of self (fst pair)).
    { intros pair Hin; apply level_pairs_level_of; [exact Hnd|].
      apply (Permutation_in _ Hp); exact Hin. }
    clear Hp; induction Hs as [|a l Hs IH Ha]; cbn [map]; constructor.
    + apply IH; intros pair Hin; apply Hlev; right; exact Hin.
    + apply Forall_map; rewrite Forall_forall in Ha |- *.
      intros b Hb; specialize (Ha b Hb); unfold level_le in Ha.
      rewrite <- (Hlev a), <- (Hlev b); [exact Ha | right; exact Hb | left; reflexivity].
Qed.

End SortedNodes.

Section SameTree.

Lemma lookup_map_snd {A B : Type} (f : A -> B) (key : NodeType)
      (d : list (NodeType * A)) :
  lookup key (map (fun kv => (fst kv, f (snd kv))) d) = option_map f (lookup key d).
Proof.
  induction d as [|[k v] d IH]; cbn [map lookup fst snd]; [reflexivity|].
  destruct (k =? key)%Z; [reflexivity | exact IH].
Qed.

Lemma same_tree_refl (graph : DiGraph) : same_tree graph graph.
Proof. split; reflexivity. Qed.

Lemma same_tree_trans (g1 g2 g3 : DiGraph) :
  same_tree g1 g2 -> same_tree g2 g3 -> same_tree g1 g3.
Proof. intros [H1 H2] [H3 H4]; split; congruence. Qed.

Lemma same_tree_lookup_level (graph graph' : DiGraph) (k : NodeType) :
  same_tree graph graph' ->
  option_map level (lookup k (nodes graph')) = option_map level (lookup k (nodes graph)).
Proof.
  intros [_ H]; rewrite <- !lookup_map_snd, H; reflexivity.
Qed.

Lemma same_tree_level_of (graph graph' : DiGraph) (k : NodeType) :
  same_tree graph graph' -> level_of graph' k = level_of graph k.
Proof.
  intros H; apply (same_tree_lookup_level _ _ k) in H; unfold level_of.
  destruct (lookup k (nodes graph')), (lookup k (nodes graph));
    cbn [option_map] in H; congruence.
Qed.

Lemma same_tree_is_node (graph graph' : DiGraph) (k : NodeType) :
  same_tree graph graph' -> is_node graph k -> is_node graph' k.
Proof.
  intros H; apply (same_tree_lookup_level _ _ k) in H; unfold is_node.
  destruct (lookup k (nodes graph')), (lookup k (nodes graph));
    cbn [option_map] in H; congruence.
Qed.

Lemma same_tree_keys (graph graph' : DiGraph) :
  same_tree graph graph' -> map fst (nodes graph') = map fst (nodes graph).
Proof.
  intros [_ H]; apply (f_equal (map fst)) in H.
  rewrite !map_map in H; exact H.
Qed.

Lemma same_tree_successors (graph graph' : DiGraph) (u : NodeType) :
  same_tree graph graph' -> successors graph' u = successors graph u.
Proof. intros [H _]; unfold successors; rewrite H; reflexivity. Qed.

Lemma same_tree_sorted_nodes (graph graph' : DiGraph) :
  same_tree graph graph' -> get_sorted_nodes graph' = get_sorted_nodes graph.
Proof. intros [_ H]; unfold get_sorted_nodes; rewrite H; reflexivity. Qed.

Lemma same_tree_invariant (graph graph' : DiGraph) :
  same_tree graph graph' -> tree_invariant graph -> tree_invariant graph'.
Proof.
  intros Hs Hinv.
  pose proof (same_tree_keys _ _ Hs) as Hk.
  assert (Hn : forall k, lookup k (nodes graph') = None <-> lookup k (nodes graph) = None)
    by (intros k; rewrite !lookup_None_not_key, Hk; tauto).
  constructor.
  - rewrite Hk; apply (nodes_once _ Hinv).
  - intros node; rewrite Hn; destruct Hs as [-> _]; apply (adjacency_of_nodes _ Hinv).
  - intros u v; rewrite (same_tree_successors _ _ u Hs); intros Hin.
    apply (same_tree_is_node graph); [exact Hs|].
    apply (successors_are_nodes _ Hinv u v Hin).
  - intros u; rewrite (same_tree_successors _ _ u Hs); apply (successors_once _ Hinv).
  - intros u u' v; rewrite !(same_tree_successors _ _ _ Hs); apply (one_parent _ Hinv).
  - intros u v; rewrite (same_tree_successors _ _ u Hs), !(same_tree_level_of _ _ _ Hs).
    apply (child_level _ Hinv).
Qed.

Lemma update_level_pairs (key : NodeType) (f : NodeData -> NodeData)
      (d : list (NodeType * NodeData)) :
  (forall data, level (f data) = level data) ->
  map (fun kv => (fst kv, level (snd kv))) (update key f d) =
  map (fun kv => (fst kv, level (snd kv))) d.
Proof.
  intros Hf; induction d as [|[k v] d IH]; cbn [update map]; [reflexivity|].
  destruct (k =? key)%Z; cbn [map fst snd]; [rewrite Hf | rewrite IH]; reflexivity.
Qed.

Lemma add_weight_to_successor_same_tree (node_id succ_id : NodeType) (graph : DiGraph) :
  same_tree graph (add_weight_to_successor node_id graph succ_id).
Proof.
  unfold add_weight_to_successor.
  destruct (lookup node_id (nodes graph)); [| apply same_tree_refl].
  split; cbn [succ nodes]; [reflexivity|].
  apply update_level_pairs; reflexivity.
Qed.

Lemma add_weights_same_tree (node_id : NodeType) (l : list NodeType) (graph : DiGraph) :
  same_tree graph (fold_left (add_weight_to_successor node_id) l graph).
Proof.
  revert graph; induction l as [|s l IH]; intros graph; cbn [fold_left];
    [apply same_tree_refl|].
  eapply same_tree_trans; [apply add_weight_to_successor_same_tree | apply IH].
Qed.

Lemma add_weight_to_successor_same (node_id succ_id : NodeType) (graph : DiGraph) :
  is_node graph succ_id ->
  weight_of (add_weight_to_successor node_id graph succ_id) succ_id =
  weight_of graph succ_id + weight_of graph node_id.
Proof.
  intros Hn; unfold add_weight_to_successor, weight_of, is_node in *.
  destruct (lookup node_id (nodes graph)) as [data|]; cbn [nodes].
  - rewrite lookup_update_same.
    destruct (lookup succ_id (nodes graph)); [reflexivity | contradiction].
  - ring.
Qed.

Lemma add_weights_to_successors_in (node_id v : NodeType) (l : list NodeType)
      (graph : DiGraph) :
  NoDup l -> ~ In node_id l -> (forall x, In x l -> is_node graph x) -> In v l ->
  weight_of (fold_left (add_weight_to_successor node_id) l graph) v =
  weight_of graph v + weight_of graph node_id.
Proof.
  revert graph; induction l as [|s l IH]; intros graph Hnd Hu Hnodes Hin; [destruct Hin|].
  inversion Hnd as [|? ? Hs Hnd']; subst; cbn [fold_left].
  destruct Hin as [->|Hin].
  - destruct (add_weights_to_successors node_id v l
                (add_weight_to_successor node_id graph v) Hs) as [_ Hw].
    cbv zeta in Hw; rewrite Hw.
    apply add_weight_to_successor_same, Hnodes; left; reflexivity.
  - rewrite IH; try assumption.
    + rewrite !add_weight_to_successor_other; [reflexivity | |].
      * intros ->; apply Hu; left; reflexivity.
      * intros ->; contradiction.
    + intros Hu'; apply Hu; right; exact Hu'.
    + intros x Hx; apply (same_tree_is_node graph);
        [apply add_weight_to_successor_same_tree | apply Hnodes; right; exact Hx].
Qed.

Lemma StronglySorted_ext {A : Type} (R R' : A -> A -> Prop) (l : list A) :
  (forall a b, R a b -> R' a b) -> StronglySorted R l -> StronglySorted R' l.
Proof.
  intros H; induction 1 as [|a l Hs IH Ha]; constructor; [exact IH|].
  rewrite Forall_forall in Ha |- *; intros b Hb; apply H, Ha, Hb.
Qed.

Lemma not_own_successor (graph : DiGraph) (u : NodeType) :
  tree_invariant graph -> ~ In u (successors graph u).
Proof.
  intros Hinv Hin; apply (child_level _ Hinv) in Hin; lia.
Qed.

(** The propagation pass over a list of nodes in ascending order of level,
    each node once. *)
Lemma update_cumulated_weights_spec (sorted_list : list NodeType) :
  forall graph,
    tree_invariant graph -> NoDup sorted_list ->
    StronglySorted (fun a b => (level_of graph a <= level_of graph b)%Z) sorted_list ->
    let graph' := update_cumulated_weights graph sorted_list in
    same_tree graph graph'
    /\ (forall a b, In a sorted_list -> In b (successors graph a) ->
                    weight_of graph' b = weight_of graph b + weight_of graph' a)
    /\ (forall b, (forall a, In a sorted_list -> ~ In b (successors graph a)) ->
                  weight_of graph' b = weight_of graph b).
Proof.
  unfold update_cumulated_weights.
  induction sorted_list as [|u rest IH]; intros graph Hinv Hnd Hsorted; cbv zeta;
    cbn [fold_left].
  - split; [apply same_tree_refl|]; split; [intros a b [] | reflexivity].
  - inversion Hnd as [|? ? Hu Hnd']; subst.
    inversion Hsorted as [|? ? Hsorted' Hle]; subst.
    set (graph1 := fold_left (add_weight_to_successor u) (successors graph u) graph).
    assert (Hs1 : same_tree graph graph1) by apply add_weights_same_tree.
    assert (Hother : forall b, ~ In b (successors graph u) ->
                               weight_of graph1 b = weight_of graph b).
    { intros b Hb.
      apply (add_weights_to_successors u b (successors graph u) graph Hb). }
    destruct (IH graph1) as (Hs & Hedge & Hfree).
    { apply (same_tree_invariant graph); assumption. }
    { exact Hnd'. }
    { apply (StronglySorted_ext (fun a b => (level_of graph a <= level_of graph b)%Z));
        [| exact Hsorted'].
      intros a b; rewrite !(same_tree_level_of _ _ _ Hs1); trivial. }
    cbv zeta in Hs, Hedge, Hfree.
    assert (Hfree' : forall b, (forall a, In a rest -> ~ In b (successors graph a)) ->
                               weight_of (fold_left
                                 (fun g node_id =>
                                    fold_left (add_weight_to_successor node_id)
                                              (successors g node_id) g) rest graph1) b
                               = weight_of graph1 b).
    { intros b Hb; apply Hfree; intros a Ha.
      rewrite (same_tree_successors _ _ a Hs1); apply Hb, Ha. }
    assert (Hu' : weight_of (fold_left
                               (fun g node_id =>
                                  fold_left (add_weight_to_successor node_id)
                                            (successors g node_id) g) rest graph1) u
                  = weight_of graph u).
    { rewrite Hfree', Hother; [reflexivity | apply not_own_successor, Hinv |].
      intros p Hp Hin.
      rewrite Forall_forall in Hle; specialize (Hle p Hp).
      apply (child_level _ Hinv) in Hin; lia. }
    split; [eapply same_tree_trans; eassumption|]; split.
    + intros a b [<-|Ha] Hb.
      * rewrite Hu', Hfree'.
        -- apply add_weights_to_successors_in;
             [ apply (successors_once _ Hinv)
             | apply not_own_successor, Hinv
             | intros x; apply (successors_are_nodes _ Hinv)
             | exact Hb ].
        -- intros p Hp Hin.
           rewrite (one_parent _ Hinv _ _ _ Hin Hb) in Hp; contradiction.
      * rewrite (Hedge a b Ha);
          [| rewrite (same_tree_successors _ _ a Hs1); exact Hb].
        rewrite Hother; [reflexivity|].
        intros Hin; rewrite (one_parent _ Hinv _ _ _ Hin Hb) in Hu; contradiction.
    + intros b Hb; rewrite Hfree', Hother; [reflexivity | |].
      * apply Hb; left; reflexivity.
      * intros a Ha; apply Hb; right; exact Ha.
Qed.

Lemma StronglySorted_app_r {A : Type} (R : A -> A -> Prop) (l l' : list A) :
  StronglySorted R (l ++ l') -> StronglySorted R l'.
Proof.
  induction l as [|a l IH]; cbn [app]; [trivial|].
  intros H; inversion H; subst; apply IH; assumption.
Qed.

(** X15: on a tree, [get_sorted_nodes] lists every node once, in ascending
    order of level, so that every node comes before its successors. *)
Theorem get_sorted_nodes_parents_first (self : DiGraph) :
  tree_invariant self ->
  Permutation (get_sorted_nodes self) (map fst (nodes self))
  /\ StronglySorted (fun a b => (level_of self a <= level_of self b)%Z)
                    (get_sorted_nodes self)
  /\ (forall u v, In v (successors self u) ->
                  exists before between after,
                    get_sorted_nodes self = before ++ u :: between ++ v :: after).
Proof.
  intros Hinv.
  destruct (sorted_nodes_spec self (nodes_once _ Hinv)) as [Hperm Hsorted].
  split; [exact Hperm|]; split; [exact Hsorted|].
  intros u v Hin.
  assert (Hv : In v (get_sorted_nodes self)).
  { apply (Permutation_in _ (Permutation_sym Hperm)).
    destruct (in_dec Z.eq_dec v (map fst (nodes self))) as [Hk|Hk]; [exact Hk|].
    apply lookup_None_not_key in Hk.
    apply (successors_are_nodes _ Hinv) in Hin; contradiction. }
  assert (Hu : In u (get_sorted_nodes self)).
  { apply (Permutation_in _ (Permutation_sym Hperm)).
    destruct (in_dec Z.eq_dec u (map fst (nodes self))) as [Hk|Hk]; [exact Hk|].
    apply lookup_None_not_key in Hk.
    apply (adjacency_of_nodes _ Hinv) in Hk.
    unfold successors in Hin; rewrite Hk in Hin; destruct Hin. }
  apply in_split in Hv as (l1 & l2 & Hl).
  rewrite Hl in Hu, Hsorted |- *.
  apply in_app_or in Hu as [Hu|[Hu|Hu]].
  - apply in_split in Hu as (before & between & ->).
    exists before, between, l2; rewrite <- app_assoc; reflexivity.
  - subst u; exfalso; apply (not_own_successor self v Hinv Hin).
  - exfalso.
    apply StronglySorted_app_r in Hsorted.
    apply StronglySorted_inv in Hsorted as [_ Hle].
    rewrite Forall_forall in Hle; specialize (Hle u Hu).
    apply (child_level _ Hinv) in Hin; lia.
Qed.

Lemma get_sorted_nodes_parents_first_witness :
  exists before between after,
    get_sorted_nodes test_tree = before ++ 1%Z :: between ++ 2%Z :: after.
Proof.
  apply (proj2 (proj2 (get_sorted_nodes_parents_first test_tree test_tree_invariant))).
  rewrite test_tree_successors; left; reflexivity.
Defined.

End SameTree.

Section WeightedMeanWeights.

Lemma reset_node_weights_same_tree (graph : DiGraph) :
  same_tree graph (reset_node_weights graph).
Proof.
  split; cbn [reset_node_weights succ nodes]; [reflexivity|].
  rewrite map_map; reflexivity.
Qed.

Lemma reset_node_weights_weight_of (graph : DiGraph) (v : NodeType) :
  weight_of (reset_node_weights graph) v = 0.
Proof.
  unfold weight_of, reset_node_weights; cbn [nodes].
  rewrite (lookup_map_snd (set_weight 0)).
  destruct (lookup v (nodes graph)); reflexivity.
Qed.

Lemma assign_weight_ok (graph : DiGraph) (node : NodeType) (value : R) :
  is_node graph node ->
  exists graph',
    assign_weight graph node value = Ok graph'
    /\ same_tree graph graph'
    /\ forall v, weight_of graph' v = if (node =? v)%Z then value else weight_of graph v.
Proof.
  intros Hn; unfold assign_weight, get_node, is_node in *.
  destruct (lookup node (nodes graph)) as [data|] eqn:Hl; [| contradiction].
  eexists; split; [reflexivity|]; split.
  - split; cbn [succ nodes]; [reflexivity | apply update_level_pairs; reflexivity].
  - intros v; unfold weight_of; cbn [nodes].
    destruct (node =? v)%Z eqn:Hv.
    + apply Z.eqb_eq in Hv; subst v; rewrite lookup_update_same, Hl; reflexivity.
    + apply Z.eqb_neq in Hv; rewrite lookup_update_other by congruence; reflexivity.
Qed.

Lemma assign_weight_missing (graph : DiGraph) (node : NodeType) (value : R) :
  ~ is_node graph node -> assign_weight graph node value = Raise (KeyError node).
Proof.
  intros Hn; unfold assign_weight, get_node, is_node in *.
  destruct (lookup node (nodes graph)); [exfalso; apply Hn; discriminate | reflexivity].
Qed.

Lemma input_weight_absent (node_list : list NodeType) (weights : list R) (v : NodeType) :
  existsb (Z.eqb v) node_list = false -> input_weight node_list weights v = 0.
Proof.
  revert weights; induction node_list as [|n l IH]; intros [|w ws] H;
    cbn [input_weight existsb] in *; try reflexivity.
  apply orb_false_elim in H as [Hn Hl].
  rewrite Hl, Z.eqb_sym, Hn; reflexivity.
Qed.

Lemma assign_weights_ok (node_list : list NodeType) :
  forall (weights : list R) (graph : DiGraph),
    Forall (is_node graph) node_list ->
    (List.length node_list <= List.length weights)%nat ->
    exists graph',
      assign_weights graph node_list weights = Ok graph'
      /\ same_tree graph graph'
      /\ forall v, weight_of graph' v =
                   if existsb (Z.eqb v) node_list
                   then input_weight node_list weights v
                   else weight_of graph v.
Proof.
  induction node_list as [|n l IH]; intros weights graph Hnodes Hlen.
  - exists graph; split; [reflexivity|]; split; [apply same_tree_refl | reflexivity].
  - destruct weights as [|w ws]; cbn [List.length] in Hlen; [lia|].
    inversion Hnodes as [|? ? Hn Hl]; subst.
    destruct (assign_weight_ok graph n w Hn) as (graph1 & H1 & Hs1 & Hw1).
    destruct (IH ws graph1) as (graph' & H' & Hs' & Hw').
    { apply Forall_forall; intros x Hx; rewrite Forall_forall in Hl.
      apply (same_tree_is_node graph); [exact Hs1 | apply Hl, Hx]. }
    { lia. }
    exists graph'; cbn [assign_weights]; rewrite H1; cbn [Py.bind].
    split; [exact H'|]; split; [eapply same_tree_trans; eassumption|].
    intros v; rewrite Hw', Hw1; cbn [existsb input_weight].
    destruct (existsb (Z.eqb v) l); [rewrite orb_true_r; reflexivity|].
    rewrite orb_false_r, (Z.eqb_sym v n).
    destruct (n =? v)%Z; reflexivity.
Qed.

Lemma assign_weights_short (node_list : list NodeType) :
  forall (weights : list R) (graph : DiGraph),
    Forall (is_node graph) (firstn (List.length weights) node_list) ->
    (List.length weights < List.length node_list)%nat ->
    assign_weights graph node_list weights = Raise IndexError.
Proof.
  induction node_list as [|n l IH]; intros weights graph Hnodes Hlen;
    cbn [List.length] in Hlen; [lia|].
  destruct weights as [|w ws]; [reflexivity|].
  cbn [List.length firstn] in *; inversion Hnodes as [|? ? Hn Hl]; subst.
  destruct (assign_weight_ok graph n w Hn) as (graph1 & H1 & Hs1 & _).
  cbn [assign_weights]; rewrite H1; cbn [Py.bind].
  apply IH; [| lia].
  apply Forall_forall; intros x Hx; rewrite Forall_forall in Hl.
  apply (same_tree_is_node graph); [exact Hs1 | apply Hl, Hx].
Qed.

Lemma assign_weights_missing (before : list NodeType) :
  forall (node : NodeType) (after : list NodeType) (weights : list R) (graph : DiGraph),
    Forall (is_node graph) before -> ~ is_node graph node ->
    (List.length before < List.length weights)%nat ->
    assign_weights graph (before ++ node :: after) weights = Raise (KeyError node).
Proof.
  induction before as [|n l IH]; intros node after weights graph Hnodes Hnode Hlen;
    (destruct weights as [|w ws]; cbn [List.length] in Hlen; [lia|]);
    cbn [app assign_weights].
  - rewrite assign_weight_missing by exact Hnode; reflexivity.
  - inversion Hnodes as [|? ? Hn Hl]; subst.
    destruct (assign_weight_ok graph n w Hn) as (graph1 & H1 & Hs1 & _).
    rewrite H1; cbn [Py.bind].
    apply IH; [| | lia].
    + apply Forall_forall; intros x Hx; rewrite Forall_forall in Hl.
      apply (same_tree_is_node graph); [exact Hs1 | apply Hl, Hx].
    + intros H; apply Hnode.
      apply (same_tree_is_node graph1); [| exact H].
      destruct Hs1 as [Ha Hb]; split; symmetry; assumption.
Qed.

Lemma is_node_reset (graph : DiGraph) (node : NodeType) :
  is_node (reset_node_weights graph) node <-> is_node graph node.
Proof.
  split; apply same_tree_is_node;
    [| apply reset_node_weights_same_tree].
  destruct (reset_node_weights_same_tree graph) as [Ha Hb]; split; symmetry; assumption.
Qed.

Lemma Forall_is_node_reset (graph : DiGraph) (l : list NodeType) :
  Forall (is_node graph) l -> Forall (is_node (reset_node_weights graph)) l.
Proof.
  intros H; apply Forall_forall; intros x Hx; rewrite Forall_forall in H.
  apply is_node_reset, H, Hx.
Qed.

(** X16: on a tree, for nodes of the tree and enough weights,
    [get_weighted_mean] leaves on every node the weight assigned to it (the
    last one when the node is listed twice, [0] when it is not listed) plus
    the weight left on its predecessor: weights cumulate from the roots
    down.  Edges and levels are as before. *)
Theorem get_weighted_mean_weights_cumulates (self : DiGraph)
        (node_list : list NodeType) (weights : list R) :
  tree_invariant self ->
  Forall (is_node self) node_list ->
  (List.length node_list <= List.length weights)%nat ->
  exists graph,
    get_weighted_mean_weights self node_list weights = Ok graph
    /\ (forall u v, In v (successors self u) ->
                    weight_of graph v = input_weight node_list weights v + weight_of graph u)
    /\ (forall v, (forall u, ~ In v (successors self u)) ->
                  weight_of graph v = input_weight node_list weights v)
    /\ succ graph = succ self
    /\ (forall v, level_of graph v = level_of self v).
Proof.
  intros Hinv Hnodes Hlen.
  destruct (assign_weights_ok node_list weights (reset_node_weights self)
              (Forall_is_node_reset _ _ Hnodes) Hlen) as (graph0 & H0 & Hs0 & Hw0).
  assert (Hs : same_tree self graph0)
    by (eapply same_tree_trans; [apply reset_node_weights_same_tree | exact Hs0]).
  assert (Hw : forall v, weight_of graph0 v = input_weight node_list weights v).
  { intros v; rewrite Hw0, reset_node_weights_weight_of.
    destruct (existsb (Z.eqb v) node_list) eqn:He; [reflexivity|].
    symmetry; apply input_weight_absent, He. }
  pose proof (same_tree_invariant _ _ Hs Hinv) as Hinv0.
  destruct (sorted_nodes_spec graph0 (nodes_once _ Hinv0)) as [Hperm Hsorted].
  destruct (update_cumulated_weights_spec (get_sorted_nodes graph0) graph0 Hinv0)
    as (Hs' & Hedge & Hfree); [| exact Hsorted |].
  { apply (Permutation_NoDup (Permutation_sym Hperm)), (nodes_once _ Hinv0). }
  cbv zeta in Hs', Hedge, Hfree.
  exists (update_cumulated_weights graph0 (get_sorted_nodes graph0)).
  unfold get_weighted_mean_weights; cbv zeta; rewrite H0; cbn [Py.bind].
  split; [reflexivity|].
  pose proof (same_tree_trans _ _ _ Hs Hs') as Hs''.
  split; [| split; [| split]].
  - intros u v Hin; rewrite <- Hw; apply Hedge.
    + apply (Permutation_in _ (Permutation_sym Hperm)).
      destruct (in_dec Z.eq_dec u (map fst (nodes graph0))) as [Hk|Hk]; [exact Hk|].
      apply lookup_None_not_key in Hk.
      apply (adjacency_of_nodes _ Hinv0) in Hk.
      rewrite <- (same_tree_successors _ _ u Hs) in Hin.
      unfold successors in Hin; rewrite Hk in Hin; destruct Hin.
    + rewrite (same_tree_successors _ _ u Hs); exact Hin.
  - intros v Hv; rewrite <- Hw; apply Hfree.
    intros a _; rewrite (same_tree_successors _ _ a Hs); apply Hv.
  - destruct Hs'' as [Hsucc _]; exact Hsucc.
  - intros v; apply same_tree_level_of, Hs''.
Qed.

(** X17: [get_weighted_mean] raises [IndexError] when [weights] is shorter
    than [node_list] (and the nodes listed before the end of [weights] are
    in the tree), and the [KeyError] of the first listed node that is not in
    the tree when that node has a weight. *)
Theorem get_weighted_mean_weights_errors (self : DiGraph) (node_list : list NodeType)
        (weights : list R) :
  (Forall (is_node self) (firstn (List.length weights) node_list) ->
   (List.length weights < List.length node_list)%nat ->
   get_weighted_mean_weights self node_list weights = Raise IndexError)
  /\ (forall before node after,
         node_list = before ++ node :: after ->
         Forall (is_node self) before -> ~ is_node self node ->
         (List.length before < List.length weights)%nat ->
         get_weighted_mean_weights self node_list weights = Raise (KeyError node)).
Proof.
  split.
  - intros Hnodes Hlen; unfold get_weighted_mean_weights; cbv zeta.
    rewrite assign_weights_short; [reflexivity | | exact Hlen].
    apply Forall_is_node_reset, Hnodes.
  - intros before node after -> Hnodes Hnode Hlen.
    unfold get_weighted_mean_weights; cbv zeta.
    rewrite assign_weights_missing; [reflexivity | | | exact Hlen].
    + apply Forall_is_node_reset, Hnodes.
    + intros H; apply Hnode, is_node_reset, H.
Qed.

Ltac in_test_tree :=
  repeat apply Forall_cons; try apply Forall_nil; unfold is_node;
  cbn [test_tree nodes lookup Z.eqb Pos.eqb]; discriminate.

Lemma get_weighted_mean_weights_cumulates_witness :
  exists graph,
    get_weighted_mean_weights test_tree [0; 2; 4]%Z [3 / 10; 3 / 10; 3 / 10] = Ok graph
    /\ weight_of graph 2%Z =
       input_weight [0; 2; 4]%Z [3 / 10; 3 / 10; 3 / 10] 2%Z + weight_of graph 1%Z.
Proof.
  destruct (get_weighted_mean_weights_cumulates
              test_tree [0; 2; 4]%Z [3 / 10; 3 / 10; 3 / 10] test_tree_invariant)
    as (graph & Hg & Hedge & _).
  - in_test_tree.
  - cbn [List.length]; lia.
  - exists graph; split; [exact Hg|].
    apply Hedge; rewrite test_tree_successors; left; reflexivity.
Defined.

Lemma get_weighted_mean_weights_errors_witness :
  get_weighted_mean_weights test_tree [0; 2]%Z [3 / 10] = Raise IndexError
  /\ get_weighted_mean_weights test_tree [0; 7]%Z [3 / 10; 3 / 10] =
     Raise (KeyError 7%Z).
Proof.
  split.
  - apply get_weighted_mean_weights_errors.
    + cbn [List.length firstn]; in_test_tree.
    + cbn [List.length]; lia.
  - apply (proj2 (get_weighted_mean_weights_errors test_tree [0; 7]%Z [3 / 10; 3 / 10])
                 [0%Z] 7%Z []).
    + reflexivity.
    + in_test_tree.
    + unfold is_node; cbn [test_tree nodes lookup Z.eqb Pos.eqb]; intros H; apply H.
      reflexivity.
    + cbn [List.length]; lia.
Defined.

End WeightedMeanWeights.

(** ** [VectorRotationTree.get_all_childs_children] *)

Section Descendants.

Variable self : DiGraph.
Variable node : NodeType.
Hypothesis invariant : tree_invariant self.

Lemma descendant_level (v : NodeType) :
  descendant self node v -> (level_of self node < level_of self v)%Z.
Proof.
  induction 1 as [v Hin | u v _ IH Hin];
    apply (child_level _ invariant) in Hin; lia.
Qed.

Lemma descendant_is_node (v : NodeType) : descendant self node v -> is_node self v.
Proof.
  intros [v' Hin | u v' _ Hin]; apply (successors_are_nodes _ invariant _ _ Hin).
Qed.

Lemma is_node_key (v : NodeType) : is_node self v -> In v (map fst (nodes self)).
Proof.
  intros Hn.
  destruct (in_dec Z.eq_dec v (map fst (nodes self))) as [Hk|Hk]; [exact Hk|].
  apply lookup_None_not_key in Hk; contradiction.
Qed.

Lemma nth_not_in_firstn (l : list NodeType) (ii : nat) :
  NoDup l -> (ii < List.length l)%nat -> ~ In (nth ii l 0%Z) (firstn ii l).
Proof.
  intros Hnd Hii Hin.
  rewrite <- (firstn_skipn ii l) in Hnd.
  assert (Hs : skipn ii l = nth ii l 0%Z :: skipn (S ii) l).
  { clear Hnd Hin; revert ii Hii; induction l as [|a l IH]; intros [|ii] Hii;
      cbn [List.length] in Hii; try lia; [reflexivity|].
    cbn [skipn nth]; rewrite (IH ii) by lia; reflexivity. }
  rewrite Hs in Hnd; apply NoDup_remove_2 in Hnd.
  apply Hnd, in_or_app; left; exact Hin.
Qed.

Lemma firstn_succ_nth (l l' : list NodeType) (ii : nat) :
  (ii < List.length l)%nat ->
  firstn (ii + 1) (l ++ l') = firstn ii l ++ [nth ii l 0%Z].
Proof.
  revert ii; induction l as [|a l IH]; intros [|ii] Hii; cbn [List.length] in Hii;
    try lia; [reflexivity|].
  cbn [Nat.add app firstn nth]; rewrite <- (IH ii) by lia; reflexivity.
Qed.

Lemma firstn_app_le (l l' : list NodeType) (ii : nat) :
  (ii <= List.length l)%nat -> firstn ii (l ++ l') = firstn ii l.
Proof.
  intros H; rewrite firstn_app.
  replace (ii - List.length l)%nat with 0%nat by lia.
  cbn [firstn]; apply app_nil_r.
Qed.

Lemma loop_invariant_start : loop_invariant self node (successors self node) 0.
Proof.
  repeat split.
  - lia.
  - apply (successors_once _ invariant).
  - intros v; apply descendant_child.
  - trivial.
  - intros u v [].
  - intros v Hv; left; exact Hv.
Qed.

Lemma loop_invariant_step (successor_list : list NodeType) (ii : nat) :
  loop_invariant self node successor_list ii -> (ii < List.length successor_list)%nat ->
  loop_invariant self node
    (successor_list ++ successors self (nth ii successor_list 0%Z)) (ii + 1).
Proof.
  intros (Hle & Hnd & Hdesc & Hroot & Hclosed & Hfrom) Hii.
  set (x := nth ii successor_list 0%Z).
  assert (Hx : In x successor_list) by (apply nth_In; exact Hii).
  repeat split.
  - rewrite length_app; lia.
  - apply NoDup_app; [exact Hnd | apply (successors_once _ invariant) |].
    intros v Hv Hvx.
    destruct (Hfrom v Hv) as [Hr | (u & Hu & Hvu)].
    + rewrite <- (one_parent _ invariant _ _ _ Hr Hvx) in Hx.
      apply Hdesc, descendant_level in Hx; lia.
    + rewrite (one_parent _ invariant _ _ _ Hvu Hvx) in Hu.
      apply (nth_not_in_firstn successor_list ii Hnd Hii Hu).
  - intros v Hv; apply in_app_or in Hv as [Hv|Hv]; [apply Hdesc, Hv|].
    apply (descendant_step _ _ x); [apply Hdesc, Hx | exact Hv].
  - intros v Hv; apply in_or_app; left; apply Hroot, Hv.
  - intros u v Hu Hv; rewrite firstn_succ_nth in Hu by exact Hii.
    apply in_or_app; apply in_app_or in Hu as [Hu|[<-|[]]].
    + left; apply (Hclosed u v Hu Hv).
    + right; exact Hv.
  - intros v Hv; rewrite firstn_succ_nth by exact Hii.
    apply in_app_or in Hv as [Hv|Hv].
    + destruct (Hfrom v Hv) as [Hr | (u & Hu & Hvu)]; [left; exact Hr|].
      right; exists u; split; [apply in_or_app; left; exact Hu | exact Hvu].
    + right; exists x; split; [apply in_or_app; right; left; reflexivity | exact Hv].
Qed.

Lemma loop_invariant_bound (successor_list : list NodeType) (ii : nat) :
  loop_invariant self node successor_list ii ->
  (List.length successor_list <= List.length (nodes self))%nat.
Proof.
  intros (_ & Hnd & Hdesc & _).
  rewrite <- (length_map fst (nodes self)).
  apply NoDup_incl_length; [exact Hnd|].
  intros v Hv; apply is_node_key, descendant_is_node, Hdesc, Hv.
Qed.

Lemma childs_children_loop_spec (fuel : nat) :
  forall successor_list ii,
    loop_invariant self node successor_list ii ->
    (List.length (nodes self) - ii < fuel)%nat ->
    exists result,
      childs_children_loop fuel self successor_list ii = Some result
      /\ loop_invariant self node result (List.length result).
Proof.
  induction fuel as [|fuel IH]; intros successor_list ii Hinv Hfuel; [lia|].
  cbn [childs_children_loop].
  destruct (ii <? List.length successor_list)%nat eqn:Hii.
  - apply Nat.ltb_lt in Hii.
    pose proof (loop_invariant_bound _ _ Hinv).
    apply IH; [apply loop_invariant_step; assumption | lia].
  - apply Nat.ltb_ge in Hii.
    exists successor_list; split; [reflexivity|].
    destruct Hinv as (Hle & Hrest).
    replace (List.length successor_list) with ii by lia.
    split; [lia | exact Hrest].
Qed.

End Descendants.

(** X18: on a tree, for a node of the tree, the loop of
    [get_all_childs_children(node)] ends within as many rounds as there are
    nodes, and the list it returns holds every node that is reached from
    [node] along one or more edges, each once, and nothing else. *)
Theorem get_all_childs_children_descendants (self : DiGraph) (node : NodeType)
        (fuel : nat) :
  tree_invariant self ->
  is_node self node ->
  (List.length (nodes self) < fuel)%nat ->
  exists successor_list,
    get_all_childs_children fuel self node = Some successor_list
    /\ NoDup successor_list
    /\ (forall v, In v successor_list <-> descendant self node v).
Proof.
  intros Hinv _ Hfuel.
  destruct (childs_children_loop_spec self node Hinv fuel (successors self node) 0
              (loop_invariant_start self node Hinv))
    as (result & Hres & _ & Hnd & Hdesc & Hroot & Hclosed & _); [lia|].
  exists result; split; [exact Hres|]; split; [exact Hnd|].
  intros v; split; [apply Hdesc|].
  rewrite firstn_all in Hclosed.
  induction 1 as [v Hin | u v _ IH Hin]; [apply Hroot, Hin|].
  apply (Hclosed u v IH Hin).
Qed.

Lemma get_all_childs_children_descendants_witness :
  exists successor_list,
    get_all_childs_children 6 test_tree 0%Z = Some successor_list
    /\ NoDup successor_list
    /\ (forall v, In v successor_list <-> descendant test_tree 0%Z v).
Proof.
  apply get_all_childs_children_descendants.
  - exact test_tree_invariant.
  - unfold is_node; cbn [test_tree nodes lookup Z.eqb]; discriminate.
  - cbn [test_tree nodes List.length]; lia.
Defined.

(** ** Order and growth of the obstacle list in [check_collision] *)

Section CollisionOrder.

Lemma append_obstacle_list (self updated : Container) (value : Obstacle)
      (parent : option Z) :
  append self value parent = Ok updated ->
  obstacle_list updated = obstacle_list self ++ [value].
Proof.
  unfold append, extend_graph, set_parent, add_children.
  destruct parent as [p|]; [| intros [= <-]; reflexivity].
  destruct (p =? -1)%Z; [| intros [= <-]; reflexivity].
  destruct (Py.index _ _); cbn [Py.bind]; [| discriminate].
  destruct (Py.index _ _); cbn [Py.bind]; [| discriminate].
  intros [= <-]; reflexivity.
Qed.

(** X19: [check_collision] does not depend on the order of the obstacles
    in the container. *)
Theorem check_collision_permutation (self other : Container) (position : Vector) :
  Permutation (obstacle_list self) (obstacle_list other) ->
  check_collision self position = check_collision other position.
Proof.
  intros Hp.
  assert (Hdir : forall a b, Permutation (obstacle_list a) (obstacle_list b) ->
                             check_collision a position = true ->
                             check_collision b position = true).
  { intros a b Hab Ha; apply check_collision_spec.
    apply check_collision_spec in Ha as [(o & Hin & Hhit) | Hw].
    - left; exists o; split; [apply (Permutation_in _ Hab Hin) | exact Hhit].
    - right; intros o Hin; apply Hw, (Permutation_in _ (Permutation_sym Hab) Hin). }
  destruct (check_collision self position) eqn:Hs.
  - symmetry; apply (Hdir self other Hp Hs).
  - destruct (check_collision other position) eqn:Ho; [| reflexivity].
    rewrite (Hdir other self (Permutation_sym Hp) Ho) in Hs; discriminate.
Qed.

(** X20: after [append(value)], a plain obstacle adds its own test to the
    answer of [check_collision] (collision before, or [gamma < 1] for the
    new obstacle), while a boundary can only remove collisions: a collision
    after the call was one before, and nothing changes where the new
    boundary has [gamma <= 1]. *)
Theorem check_collision_append (self updated : Container) (value : Obstacle)
        (parent : option Z) (position : Vector) :
  append self value parent = Ok updated ->
  (is_boundary value = false ->
   check_collision updated position =
   check_collision self position || Rlt_bool (get_gamma value position) 1)
  /\ (is_boundary value = true ->
      check_collision updated position = true -> check_collision self position = true)
  /\ (is_boundary value = true -> get_gamma value position <= 1 ->
      check_collision updated position = check_collision self position).
Proof.
  intros Ha; apply append_obstacle_list in Ha.
  pose proof (check_collision_spec updated position) as Hu; rewrite Ha in Hu.
  pose proof (check_collision_spec self position) as Hs.
  assert (Hupd : check_collision updated position = true <->
                 (exists o, In o (obstacle_list self) /\ hits position o)
                 \/ hits position value
                 \/ (walls_closed position (obstacle_list self)
                     /\ (is_boundary value = true -> get_gamma value position <= 1))).
  { rewrite Hu; split.
    - intros [(o & Hin & Hhit) | Hw].
      + apply in_app_or in Hin as [Hin|[<-|[]]]; [left; exists o; tauto | tauto].
      + right; right; split.
        * intros o Hin; apply Hw, in_or_app; left; exact Hin.
        * apply Hw, in_or_app; right; left; reflexivity.
    - intros [(o & Hin & Hhit) | [Hhit | [Hw Hv]]].
      + left; exists o; split; [apply in_or_app; left; exact Hin | exact Hhit].
      + left; exists value; split; [apply in_or_app; right; left; reflexivity | exact Hhit].
      + right; intros o Hin; apply in_app_or in Hin as [Hin|[<-|[]]];
          [apply Hw, Hin | exact Hv]. }
  clear Hu; unfold hits in Hupd at 2.
  split; [| split].
  - intros Hb; apply eq_true_iff_eq.
    rewrite orb_true_iff, Hupd, Hs, Rlt_bool_true, Hb.
    split.
    + intros [H | [[_ H] | [H _]]]; tauto.
    + intros [[H | H] | H]; [tauto | | tauto].
      right; right; split; [exact H | discriminate].
  - intros Hb; rewrite Hupd, Hs, Hb.
    intros [H | [[H _] | [H _]]]; [tauto | discriminate | tauto].
  - intros Hb Hg; apply eq_true_iff_eq; rewrite Hupd, Hs, Hb.
    split.
    + intros [H | [[H _] | [H _]]]; [tauto | discriminate | tauto].
    + intros [H | H]; tauto.
Qed.

Lemma check_collision_permutation_witness :
  check_collision (container_of [constant_obstacle true 2; constant_obstacle false 3])
                  [0; 0] =
  check_collision (container_of [constant_obstacle false 3; constant_obstacle true 2])
                  [0; 0].
Proof.
  apply check_collision_permutation.
  cbn [container_of obstacle_list]; apply perm_swap.
Defined.

Lemma check_collision_append_witness :
  check_collision
    (container_of [constant_obstacle true 2; constant_obstacle false (1 / 2)]) [0; 0] =
  check_collision (container_of [constant_obstacle true 2]) [0; 0]
  || Rlt_bool (get_gamma (constant_obstacle false (1 / 2)) [0; 0]) 1.
Proof.
  apply (proj1 (check_collision_append
                  (container_of [constant_obstacle true 2])
                  (container_of [constant_obstacle true 2; constant_obstacle false (1 / 2)])
                  (constant_obstacle false (1 / 2)) None [0; 0] eq_refl)).
  reflexivity.
Defined.

End CollisionOrder.

(** ** The graph built by [append] and [extend_graph] *)

Section AppendChain.

Lemma append_first (self : Container) (value : Obstacle) :
  well_formed self -> n_obstacles self = 0%nat ->
  append self value (Some (-1)%Z) =
  Ok {| obstacle_list := [value];
        parent_array := [(-1)%Z];
        children_list := [[0%Z]];
        parent_intersection_point := parent_intersection_point self ++ [None] |}.
Proof.
  intros [Hp Hc] Hz; rewrite Hz in Hp, Hc.
  apply length_zero_iff_nil in Hp, Hc.
  unfold n_obstacles in Hz; apply length_zero_iff_nil in Hz.
  unfold append, extend_graph, set_parent, add_children, n_obstacles.
  rewrite Hz, Hp, Hc; reflexivity.
Qed.

(** X21: on a container without obstacles, [append(value, parent=-1)]
    makes the new obstacle its own child (the parent index [-1] wraps round
    to the obstacle itself) and leaves it a root; and an index other than
    [-1] given as [parent] is ignored: the call is [append(value)]. *)
Theorem append_parent_argument (self : Container) (value : Obstacle) :
  (well_formed self -> n_obstacles self = 0%nat ->
   exists updated,
     append self value (Some (-1)%Z) = Ok updated
     /\ get_parent updated 0 = Ok (-1)%Z
     /\ get_children updated 0 = Ok [0%Z])
  /\ (forall parent, parent <> (-1)%Z ->
                     append self value (Some parent) = append self value None).
Proof.
  split.
  - intros Hwf Hz; eexists; split; [apply append_first; assumption|].
    split; reflexivity.
  - intros parent Hne; unfold append.
    apply Z.eqb_neq in Hne; rewrite Hne; reflexivity.
Qed.

Lemma chain_children_length (n : nat) : List.length (chain_children n) = n.
Proof.
  destruct n as [|[|k]]; try reflexivity.
  cbn [chain_children List.length]; rewrite length_app, length_map, length_seq.
  cbn [List.length]; lia.
Qed.

Lemma chain_children_step (n : nat) :
  (1 <= n)%nat ->
  update_nth (n - 1) (fun l => l ++ [Z.of_nat n]) (chain_children n) ++ [[]] =
  chain_children (S n).
Proof.
  destruct n as [|[|k]]; intros Hn; [lia | reflexivity |].
  replace (S (S k) - 1)%nat with (S k) by lia.
  cbn [chain_children update_nth].
  replace k with (List.length (map (fun i => [(Z.of_nat i + 1)%Z]) (seq 1 k))) at 1
    by (rewrite length_map, length_seq; reflexivity).
  rewrite update_nth_last; cbn [app].
  rewrite seq_S, map_app; cbn [map Nat.add].
  replace (Z.of_nat (S k) + 1)%Z with (Z.of_nat (S (S k))) by lia.
  rewrite <- app_assoc; reflexivity.
Qed.

Lemma chain_parents_step (n : nat) :
  chain_parents n ++ [(Z.of_nat n - 1)%Z] = chain_parents (S n).
Proof. unfold chain_parents; rewrite seq_S, map_app; reflexivity. Qed.

Lemma append_each_app (self : Container) (values values' : list Obstacle)
      (parent : option Z) :
  append_each self (values ++ values') parent =
  (self <- append_each self values parent ;; append_each self values' parent).
Proof.
  revert self; induction values as [|v values IH]; intros self; cbn [app append_each];
    [reflexivity|].
  destruct (append self v parent); cbn [Py.bind]; [apply IH | reflexivity].
Qed.

(** X22: appending obstacles one after the other with [parent=-1], from
    the empty container, never fails and builds a chain: obstacle [i] has
    the parent [i - 1], the first obstacle has the children [0] and [1]
    (itself and the second), every later one the next obstacle, and the
    last one none. *)
Theorem append_each_chain (values : list Obstacle) :
  exists updated,
    append_each empty values (Some (-1)%Z) = Ok updated
    /\ obstacle_list updated = values
    /\ parent_array updated = chain_parents (List.length values)
    /\ children_list updated = chain_children (List.length values).
Proof.
  induction values as [|value values IH] using rev_ind.
  - exists empty; repeat split.
  - destruct IH as (c & Hc & Ho & Hp & Hch).
    assert (Hwf : well_formed c).
    { unfold well_formed, n_obstacles; rewrite Hp, Hch, Ho.
      unfold chain_parents; rewrite length_map, length_seq, chain_children_length.
      split; reflexivity. }
    rewrite append_each_app, Hc; cbn [Py.bind append_each].
    rewrite length_app; cbn [List.length].
    replace (List.length values + 1)%nat with (S (List.length values)) by lia.
    destruct (Nat.eq_dec (List.length values) 0) as [Hz|Hnz].
    + rewrite append_first by (unfold n_obstacles; congruence || assumption).
      cbn [Py.bind]; eexists; split; [reflexivity|].
      apply length_zero_iff_nil in Hz; rewrite Hz.
      split; [reflexivity|]; split; reflexivity.
    + rewrite (append_child c value Hwf) by (unfold n_obstacles; rewrite Ho; lia).
      cbn [Py.bind]; eexists; split; [reflexivity|].
      cbn [obstacle_list parent_array children_list].
      unfold n_obstacles; rewrite Ho, Hp, Hch.
      split; [reflexivity|]; split.
      * rewrite <- chain_parents_step; f_equal; f_equal; lia.
      * rewrite <- chain_children_step by lia; f_equal; f_equal.
        replace (Z.of_nat (List.length values) + 1 - 1)%Z
          with (Z.of_nat (List.length values)) by lia.
        reflexivity.
Qed.

Lemma index_ok_iff (len : nat) (i : Z) :
  (exists k, Py.index len i = Ok k) <-> (- Z.of_nat len <= i < Z.of_nat len)%Z.
Proof.
  unfold Py.index.
  destruct (0 <=? i)%Z eqn:H0; destruct (i <? Z.of_nat len)%Z eqn:H1;
    destruct (- Z.of_nat len <=? i)%Z eqn:H2; destruct (i <? 0)%Z eqn:H3;
    cbn [andb];
    try apply Z.leb_le in H0; try apply Z.leb_gt in H0;
    try apply Z.ltb_lt in H1; try apply Z.ltb_ge in H1;
    try apply Z.leb_le in H2; try apply Z.leb_gt in H2;
    try apply Z.ltb_lt in H3; try apply Z.ltb_ge in H3;
    split; try lia; try (intros _; eexists; reflexivity);
    intros [k Hk]; discriminate.
Qed.

Lemma index_bound (len : nat) (i : Z) (k : nat) :
  Py.index len i = Ok k -> (k < len)%nat.
Proof.
  unfold Py.index.
  destruct (0 <=? i)%Z eqn:H0; destruct (i <? Z.of_nat len)%Z eqn:H1;
    destruct (- Z.of_nat len <=? i)%Z eqn:H2; destruct (i <? 0)%Z eqn:H3;
    cbn [andb]; intros [= <-];
    try apply Z.leb_le in H0; try apply Z.leb_gt in H0;
    try apply Z.ltb_lt in H1; try apply Z.ltb_ge in H1;
    try apply Z.leb_le in H2; try apply Z.leb_gt in H2;
    try apply Z.ltb_lt in H3; try apply Z.ltb_ge in H3; lia.
Qed.

Lemma index_raises (len : nat) (i : Z) (e : exception) :
  Py.index len i = Raise e -> e = IndexError.
Proof.
  unfold Py.index.
  destruct (_ && _); [discriminate|].
  destruct (_ && _); [discriminate|].
  intros [= <-]; reflexivity.
Qed.

Lemma getitem_nth {A : Type} (l : list A) (i : Z) (k : nat) (d : A) :
  Py.index (List.length l) i = Ok k -> getitem l i = Ok (nth k l d).
Proof.
  intros Hk; unfold getitem; rewrite Hk; cbn [Py.bind].
  rewrite (nth_error_nth' l d (index_bound _ _ _ Hk)); reflexivity.
Qed.

(** X23: for a [parent] that an [int64] holds, [extend_graph(child,
    parent)] returns exactly when [child] is an index of the parent array
    and [parent] one of the list of children (negative indices count from
    the end), and raises [IndexError] otherwise; after it,
    [get_parent(child)] is [parent] and [get_children(parent)] is the list
    from before the call with [child] at its end, and the obstacles and the
    sizes of the arrays are as before. *)
Theorem extend_graph_round_trip (self : Container) (child parent : Z) :
  int64 parent ->
  ((exists updated, extend_graph self child parent = Ok updated)
   <-> (- Z.of_nat (List.length (parent_array self)) <= child
        < Z.of_nat (List.length (parent_array self)))%Z
       /\ (- Z.of_nat (List.length (children_list self)) <= parent
           < Z.of_nat (List.length (children_list self)))%Z)
  /\ ((exists updated, extend_graph self child parent = Ok updated)
      \/ extend_graph self child parent = Raise IndexError)
  /\ (forall updated,
         extend_graph self child parent = Ok updated ->
         get_parent updated child = Ok parent
         /\ (exists children,
                get_children self parent = Ok children
                /\ get_children updated parent = Ok (children ++ [child]))
         /\ obstacle_list updated = obstacle_list self
         /\ List.length (parent_array updated) = List.length (parent_array self)
         /\ List.length (children_list updated) = List.length (children_list self)).
Proof.
  intros _; unfold extend_graph, set_parent, add_children; split; [| split].
  - rewrite <- !index_ok_iff; split.
    + intros [updated H].
      destruct (Py.index (List.length (parent_array self)) child) as [k|];
        cbn [Py.bind children_list] in H; [| discriminate].
      destruct (Py.index (List.length (children_list self)) parent) as [k'|];
        [| discriminate].
      split; eexists; reflexivity.
    + intros [[k ->] [k' Hk']]; cbn [Py.bind children_list]; rewrite Hk'.
      eexists; reflexivity.
  - destruct (Py.index (List.length (parent_array self)) child) as [k|e] eqn:Hk;
      cbn [Py.bind children_list].
    + destruct (Py.index (List.length (children_list self)) parent) as [k'|e] eqn:Hk';
        cbn [Py.bind]; [left; eexists; reflexivity | right].
      apply index_raises in Hk'; subst e; reflexivity.
    + right; apply index_raises in Hk; subst e; reflexivity.
  - intros updated.
    destruct (Py.index (List.length (parent_array self)) child) as [k|] eqn:Hk;
      cbn [Py.bind children_list]; [| discriminate].
    destruct (Py.index (List.length (children_list self)) parent) as [k'|] eqn:Hk';
      cbn [Py.bind]; [| discriminate].
    intros [= <-]; unfold get_parent, get_children;
      cbn [parent_array children_list obstacle_list].
    pose proof (index_bound _ _ _ Hk) as Hlt.
    pose proof (index_bound _ _ _ Hk') as Hlt'.
    split; [| split; [| split; [reflexivity|]]];
      [| | rewrite !update_nth_length; split; reflexivity].
    + rewrite (getitem_nth _ child k 0%Z) by (rewrite update_nth_length; exact Hk).
      rewrite nth_update_nth by exact Hlt; reflexivity.
    + exists (nth k' (children_list self) []); split.
      * apply getitem_nth; exact Hk'.
      * rewrite (getitem_nth _ parent k' []) by (rewrite update_nth_length; exact Hk').
        rewrite nth_update_nth by exact Hlt'; reflexivity.
Qed.

Lemma append_parent_argument_witness :
  exists updated,
    append empty (constant_obstacle true 2) (Some (-1)%Z) = Ok updated
    /\ get_parent updated 0 = Ok (-1)%Z
    /\ get_children updated 0 = Ok [0%Z].
Proof.
  apply (proj1 (append_parent_argument empty (constant_obstacle true 2)));
    [exact empty_well_formed | reflexivity].
Defined.

Lemma extend_graph_round_trip_witness :
  get_parent
    {| obstacle_list := [constant_obstacle true 2; constant_obstacle true 3];
       parent_array := [-1; 0]%Z;
       children_list := [[1%Z]; []];
       parent_intersection_point := [None; None] |} 1 = Ok 0%Z.
Proof.
  apply (proj2 (proj2 (extend_graph_round_trip
                         (container_of [constant_obstacle true 2; constant_obstacle true 3])
                         1 0 ltac:(unfold int64; lia)))).
  reflexivity.
Defined.

End AppendChain.

(** ** [MultiBoundaryContainer.get_convergence_direction] *)

Section ConvergenceDirection.

Variable evaluate_linear_dynamical_system : Vector -> Vector -> Vector.
Variable self : Container.
Variable position : Vector.

Lemma normalised_norm (direction : Vector) :
  norm (normalised direction) = 1 \/ Forall (fun x => x = 0) (normalised direction).
Proof.
  unfold normalised, truthy, Req_bool.
  destruct (Req_dec_T (norm direction) 0) as [Hz|Hnz]; cbn [negb].
  - right; apply dot_self_zero.
    unfold norm in Hz; apply sqrt_eq_0 in Hz; [exact Hz | apply dot_self_nonneg].
  - left; apply normalised_unit; exact Hnz.
Qed.

(** X24: a direction returned by [get_convergence_direction] has norm [1],
    or is the zero vector (where the dynamics vanish). *)
Theorem get_convergence_direction_unit
        (_attractor_position : Attribute (option Vector))
        (it_obs : Z) (attractor_position : option Vector) (direction : Vector) :
  snd (get_convergence_direction evaluate_linear_dynamical_system self
         _attractor_position position it_obs attractor_position) = Ok direction ->
  norm direction = 1 \/ Forall (fun x => x = 0) direction.
Proof.
  unfold get_convergence_direction; cbv zeta; cbn [snd].
  destruct (getitem (parent_intersection_point self) it_obs) as [intersection|];
    cbn [Py.bind]; [| discriminate].
  match goal with
  | |- Py.bind ?m _ = _ -> _ => destruct m as [local_attractor|]
  end; cbn [Py.bind]; [| discriminate].
  intros [= <-].
  apply (normalised_norm (evaluate_linear_dynamical_system position local_attractor)).
Qed.

Lemma getitem_in_range {A : Type} (l : list A) (i : Z) :
  (- Z.of_nat (List.length l) <= i < Z.of_nat (List.length l))%Z ->
  exists x, getitem l i = Ok x.
Proof.
  intros Hi; apply index_ok_iff in Hi as [k Hk].
  unfold getitem; rewrite Hk; cbn [Py.bind].
  destruct (nth_error l k) as [x|] eqn:Hx; [exists x; reflexivity|].
  apply nth_error_None in Hx; apply index_bound in Hk; lia.
Qed.

(** With an attractor kept, a call for an obstacle of the container
    returns, and keeps the attractor given or, when none is given, the one
    kept before. *)
Lemma get_convergence_direction_kept (attractor : Vector) (it_obs : Z)
      (attractor_position : option Vector) :
  List.length (parent_intersection_point self) = n_obstacles self ->
  (- Z.of_nat (n_obstacles self) <= it_obs < Z.of_nat (n_obstacles self))%Z ->
  exists direction,
    get_convergence_direction evaluate_linear_dynamical_system self
      (assigned (Some attractor)) position it_obs attractor_position =
    (assigned (Some match attractor_position with
                    | Some given => given
                    | None => attractor
                    end),
     Ok direction).
Proof.
  intros Hlen Hi; unfold get_convergence_direction; cbv zeta.
  destruct (getitem_in_range (parent_intersection_point self) it_obs) as [x Hx];
    [rewrite Hlen; exact Hi|].
  destruct (getitem_in_range (obstacle_list self) it_obs) as [o Ho]; [exact Hi|].
  rewrite Hx; cbn [Py.bind].
  destruct x as [point|]; [rewrite Ho; cbn [Py.bind] |];
    destruct attractor_position; eexists; reflexivity.
Qed.

End ConvergenceDirection.

(** X25: once an attractor is kept, calls of [get_convergence_direction]
    for obstacles of the container never raise, whether they give an
    attractor or not, and the attractor kept is the last one given.  Before
    any attractor was assigned, a call without attractor for an obstacle
    without intersection point raises [AttributeError] (the attribute is
    missing), and the [ValueError] of the method when the attribute holds
    [None]. *)
Theorem get_convergence_direction_attractor
        (evaluate_linear_dynamical_system : Vector -> Vector -> Vector)
        (self : Container) (attractor : Vector) (calls : list ConvergenceCall) :
  (List.length (parent_intersection_point self) = n_obstacles self ->
   Forall (fun call =>
             (- Z.of_nat (n_obstacles self) <= call_it_obs call
              < Z.of_nat (n_obstacles self))%Z) calls ->
   fst (convergence_calls evaluate_linear_dynamical_system self
          (assigned (Some attractor)) calls) =
   assigned (Some (last_attractor attractor calls))
   /\ Forall (fun r => exists direction, r = Ok direction)
             (snd (convergence_calls evaluate_linear_dynamical_system self
                     (assigned (Some attractor)) calls)))
  /\ (forall position it_obs,
         getitem (parent_intersection_point self) it_obs = Ok None ->
         get_convergence_direction evaluate_linear_dynamical_system self
           missing position it_obs None =
         (missing, Raise (AttributeError "_attractor_position"))
         /\ get_convergence_direction evaluate_linear_dynamical_system self
              (assigned None) position it_obs None =
            (assigned None, Raise attractor_error)).
Proof.
  split.
  - intros Hlen Hcalls; revert attractor.
    induction Hcalls as [|call calls Hcall _ IH]; intros attractor.
    + split; [reflexivity | constructor].
    + cbn [convergence_calls fst snd].
      destruct (get_convergence_direction_kept
                  evaluate_linear_dynamical_system self (call_position call)
                  attractor (call_it_obs call) (call_attractor_position call)
                  Hlen Hcall) as [direction Hd].
      rewrite Hd; cbn [fst snd].
      destruct (IH match call_attractor_position call with
                   | Some given => given
                   | None => attractor
                   end) as [Hkept Hres].
      split; [exact Hkept|].
      constructor; [exists direction; reflexivity | exact Hres].
  - intros position it_obs Hroot; unfold get_convergence_direction; cbv zeta.
    rewrite Hroot; split; reflexivity.
Qed.

Lemma get_convergence_direction_unit_witness :
  norm (normalised (toward [1] [3])) = 1
  \/ Forall (fun x => x = 0) (normalised (toward [1] [3])).
Proof.
  apply (get_convergence_direction_unit toward one_wall [1] missing 0 (Some [3])).
  reflexivity.
Defined.

Lemma get_convergence_direction_attractor_witness :
  fst (convergence_calls toward one_wall (assigned (Some [3]))
         [{| call_position := [1]; call_it_obs := 0;
             call_attractor_position := None |};
          {| call_position := [1]; call_it_obs := 0;
             call_attractor_position := Some [5] |}]) =
  assigned (Some [5]).
Proof.
  destruct (proj1 (get_convergence_direction_attractor
                     toward one_wall [3]
                     [{| call_position := [1]; call_it_obs := 0;
                         call_attractor_position := None |};
                      {| call_position := [1]; call_it_obs := 0;
                         call_attractor_position := Some [5] |}]))
    as [Hkept _].
  - reflexivity.
  - repeat constructor; cbn; lia.
  - exact Hkept.
Defined.

(** ** What [update_relative_reference_point] keeps *)

Section ReferenceUpdate.

Variable self : Container.
Variable position : Vector.
Variable gamma_margin_close_wall : R.

Lemma update_inside_shape (ii_self : nat) (obstacle updated : Obstacle) :
  update_inside self position gamma_margin_close_wall ii_self obstacle = Ok updated ->
  exists point relative_gamma,
    updated = set_relative_reference (blended point position relative_gamma) obstacle.
Proof.
  unfold update_inside; cbv zeta.
  destruct (np_max _) as [w|e]; cbn [Py.bind]; [| discriminate].
  destruct (Rlt_bool 1 w); [discriminate|].
  intros [= <-]; eexists _, _; reflexivity.
Qed.

Lemma update_inside_loop_shape (obstacles : list (nat * Obstacle))
      (updated : list Obstacle) :
  update_inside_loop self position gamma_margin_close_wall obstacles = Ok updated ->
  Forall2 (fun other obstacle =>
             if is_inside position (snd other)
             then exists point relative_gamma,
                 obstacle =
                 set_relative_reference (blended point position relative_gamma)
                                        (snd other)
             else obstacle = snd other)
          obstacles updated.
Proof.
  revert updated.
  induction obstacles as [|[ii o] obstacles IH]; intros updated;
    cbn [update_inside_loop].
  - intros [= <-]; constructor.
  - destruct (is_inside position o) eqn:Hins.
    + destruct (update_inside self position gamma_margin_close_wall ii o)
        as [o'|e] eqn:Hu; cbn [Py.bind]; [| discriminate].
      destruct (update_inside_loop self position gamma_margin_close_wall obstacles)
        as [rest|e]; cbn [Py.bind]; [| discriminate].
      intros [= <-]; constructor; [| apply IH; reflexivity].
      cbn [snd]; rewrite Hins; apply (update_inside_shape ii), Hu.
    + cbn [Py.bind].
      destruct (update_inside_loop self position gamma_margin_close_wall obstacles)
        as [rest|e]; cbn [Py.bind]; [| discriminate].
      intros [= <-]; constructor; [| apply IH; reflexivity].
      cbn [snd]; rewrite Hins; reflexivity.
Qed.

Lemma update_inside_loop_outside (obstacles : list (nat * Obstacle)) :
  (forall other, In other obstacles -> is_inside position (snd other) = false) ->
  update_inside_loop self position gamma_margin_close_wall obstacles =
  Ok (map snd obstacles).
Proof.
  induction obstacles as [|[ii o] obstacles IH]; intros Hout; [reflexivity|].
  cbn [update_inside_loop map snd].
  pose proof (Hout (ii, o) (or_introl eq_refl)) as Ho; cbn [snd] in Ho.
  rewrite Ho; cbn [Py.bind].
  rewrite IH by (intros other Hin; apply Hout; right; exact Hin); reflexivity.
Qed.

Lemma filter_none {A : Type} (f : A -> bool) (l : list A) :
  (forall x, In x l -> f x = false) -> filter f l = [].
Proof.
  induction l as [|x l IH]; intros H; cbn [filter]; [reflexivity|].
  rewrite (H x) by (left; reflexivity).
  apply IH; intros y Hy; apply H; right; exact Hy.
Qed.

Lemma update_inside_zero_size (ii_self : nat) (obstacle : Obstacle) :
  (forall other, In other (obstacle_list self) ->
                 is_close position gamma_margin_close_wall other = false) ->
  update_inside self position gamma_margin_close_wall ii_self obstacle =
  Raise zero_size_error.
Proof.
  intros Hfar; unfold update_inside, blend_weights; cbv zeta.
  replace (filter _ (indexed self)) with (@nil (nat * Obstacle)); [reflexivity|].
  symmetry; apply filter_none; intros [ii o] Hin; cbn [snd].
  apply Hfar.
  unfold indexed in Hin; apply in_combine_r in Hin; exact Hin.
Qed.

Lemma update_inside_loop_zero_size (obstacles : list (nat * Obstacle)) :
  (forall other, In other (obstacle_list self) ->
                 is_close position gamma_margin_close_wall other = false) ->
  (exists other, In other obstacles /\ is_inside position (snd other) = true) ->
  update_inside_loop self position gamma_margin_close_wall obstacles =
  Raise zero_size_error.
Proof.
  intros Hfar; induction obstacles as [|[ii o] obstacles IH]; intros (other & Hin & Hins);
    [destruct Hin|].
  cbn [update_inside_loop].
  destruct (is_inside position o) eqn:Ho.
  - rewrite update_inside_zero_size by exact Hfar; reflexivity.
  - cbn [Py.bind]; rewrite IH; [reflexivity|].
    destruct Hin as [<-|Hin]; [cbn [snd] in Hins; congruence|].
    exists other; split; assumption.
Qed.

Lemma map_snd_indexed : map snd (indexed self) = obstacle_list self.
Proof.
  unfold indexed, n_obstacles.
  generalize 0%nat; induction (obstacle_list self) as [|o l IH]; intros start;
    cbn [List.length seq combine map snd]; [reflexivity|].
  rewrite IH; reflexivity.
Qed.

End ReferenceUpdate.

(** X26: a call of [update_relative_reference_point(position)] that
    returns leaves the graph of the container and the number of obstacles as
    they are, and changes nothing of an obstacle but its relative reference:
    blended at [position] for a boundary with [gamma > 1] there, reset for
    every other obstacle. *)
Theorem update_relative_reference_point_keeps (self updated : Container)
        (position : Vector) (gamma_margin_close_wall : R) :
  update_relative_reference_point self position gamma_margin_close_wall = Ok updated ->
  parent_array updated = parent_array self
  /\ children_list updated = children_list self
  /\ parent_intersection_point updated = parent_intersection_point self
  /\ n_obstacles updated = n_obstacles self
  /\ Forall2 (reference_updated position) (obstacle_list self) (obstacle_list updated).
Proof.
  unfold update_relative_reference_point.
  destruct (update_inside_loop self position gamma_margin_close_wall (indexed self))
    as [l|e] eqn:Hloop; cbn [Py.bind]; [| discriminate].
  intros [= <-]; cbn [obstacle_list parent_array children_list
                      parent_intersection_point].
  apply update_inside_loop_shape in Hloop.
  apply (Forall2_indexed
           (P := fun o o' =>
                   if is_inside position o
                   then exists point relative_gamma,
                       o' = set_relative_reference
                              (blended point position relative_gamma) o
                   else o' = o)) in Hloop.
  assert (Hall : Forall2 (reference_updated position) (obstacle_list self)
                         (map (fun obstacle =>
                                 if is_inside position obstacle then obstacle
                                 else set_relative_reference reset obstacle) l)).
  { induction Hloop as [|o o' l0 l1 Ho _ IH]; cbn [map]; constructor; [| exact IH].
    unfold reference_updated; destruct (is_inside position o) eqn:Hins.
    - destruct Ho as (point & rg & ->).
      rewrite is_inside_set_relative_reference, Hins.
      exists point, rg; reflexivity.
    - subst o'; rewrite Hins; reflexivity. }
  repeat split; try exact Hall.
  unfold n_obstacles; cbn [obstacle_list].
  symmetry; apply (Forall2_length Hall).
Qed.

(** X27: where no boundary has [gamma > 1],
    [update_relative_reference_point] returns and resets the relative
    reference of every obstacle; where some boundary has, but none has
    [gamma > gamma_margin_close_wall] (a margin of [1] or more), it raises
    the [ValueError] of [np.max] on an empty array. *)
Theorem update_relative_reference_point_edge_cases (self : Container)
        (position : Vector) (gamma_margin_close_wall : R) :
  ((forall obstacle, In obstacle (obstacle_list self) ->
                     is_inside position obstacle = false) ->
   update_relative_reference_point self position gamma_margin_close_wall =
   Ok {| obstacle_list := map (set_relative_reference reset) (obstacle_list self);
         parent_array := parent_array self;
         children_list := children_list self;
         parent_intersection_point := parent_intersection_point self |})
  /\ ((exists obstacle, In obstacle (obstacle_list self)
                        /\ is_inside position obstacle = true) ->
      (forall obstacle, In obstacle (obstacle_list self) ->
                        is_close position gamma_margin_close_wall obstacle = false) ->
      update_relative_reference_point self position gamma_margin_close_wall =
      Raise zero_size_error).
Proof.
  unfold update_relative_reference_point; split.
  - intros Hout; rewrite update_inside_loop_outside.
    + cbn [Py.bind]; rewrite map_snd_indexed; f_equal; f_equal.
      apply map_ext_in; intros o Hin; rewrite (Hout o Hin); reflexivity.
    + intros [ii o] Hin; cbn [snd]; apply Hout.
      unfold indexed in Hin; apply in_combine_r in Hin; exact Hin.
  - intros (o & Hin & Hins) Hfar.
    rewrite update_inside_loop_zero_size; [reflexivity | exact Hfar |].
    rewrite <- map_snd_indexed in Hin; apply in_map_iff in Hin as (other & <- & Hin).
    exists other; split; assumption.
Qed.

Lemma update_relative_reference_point_keeps_witness :
  exists updated,
    update_relative_reference_point one_wall [1] default_margin = Ok updated
    /\ n_obstacles updated = n_obstacles one_wall
    /\ Forall2 (reference_updated [1]) (obstacle_list one_wall) (obstacle_list updated).
Proof.
  destruct one_wall_update as [updated Hu].
  exists updated; split; [exact Hu|].
  destruct (update_relative_reference_point_keeps one_wall updated [1] default_margin Hu)
    as (_ & _ & _ & Hn & Hall).
  split; [exact Hn | exact Hall].
Defined.

Lemma update_relative_reference_point_edge_cases_witness :
  update_relative_reference_point (container_of [constant_obstacle false 2]) [0; 0]
                                  default_margin =
  Ok (container_of [set_relative_reference reset (constant_obstacle false 2)])
  /\ update_relative_reference_point one_wall [1] 3 = Raise zero_size_error.
Proof.
  split.
  - apply (proj1 (update_relative_reference_point_edge_cases
                    (container_of [constant_obstacle false 2]) [0; 0] default_margin)).
    intros o [<-|[]]; unfold is_inside; cbn [is_boundary constant_obstacle].
    apply andb_false_r.
  - apply (proj2 (update_relative_reference_point_edge_cases one_wall [1] 3)).
    + exists (wall 2 2); split; [left; reflexivity|].
      unfold is_inside; cbn [is_boundary get_gamma_absolute wall].
      rewrite Rlt_bool_eq_true by lra; reflexivity.
    + intros o [<-|[]]; unfold is_close; cbn [is_boundary get_gamma_absolute wall].
      rewrite Rlt_bool_eq_false by lra; reflexivity.
Defined.
